(** * Scan classification and scan history of the QR scanner app

    A shallow embedding of [lib/scan-history.tsx]: the classifier
    [detectScanType] with the regular expressions it tests, and the history
    store ([loadHistory], [saveHistory], [addScan], [removeScan],
    [clearHistory]) together with the host functions it calls
    ([String.prototype.trim], [RegExp.prototype.test], [JSON.stringify],
    [JSON.parse], [AsyncStorage]). *)

From Stdlib Require Import ZArith NArith List Ascii String Bool Lia.
From stdpp Require Import base option numbers list gmap.

Set Warnings "-register-all".

Local Open Scope N_scope.

(** ** Strings

    A JavaScript string is a sequence of UTF-16 code units; a code unit is a
    natural number below [0x10000]. Nothing below depends on that bound, so the
    functions are defined on every [list N]. *)

Abbreviation jsstring := (list N) (only parsing).

(** A source literal made of ASCII characters. *)
Definition lit (s : string) : jsstring :=
  map N_of_ascii (list_ascii_of_string s).

(** ECMAScript WhiteSpace and LineTerminator code points: what
    [String.prototype.trim] strips and what [\s] matches. *)
Definition isWhiteSpace (c : N) : bool :=
  (c =? 0x09) || (c =? 0x0A) || (c =? 0x0B) || (c =? 0x0C) || (c =? 0x0D)
  || (c =? 0x20) || (c =? 0xA0) || (c =? 0x1680)
  || ((0x2000 <=? c) && (c <=? 0x200A))
  || (c =? 0x2028) || (c =? 0x2029) || (c =? 0x202F) || (c =? 0x205F)
  || (c =? 0x3000) || (c =? 0xFEFF).

Fixpoint trimStart (s : jsstring) : jsstring :=
  match s with
  | [] => []
  | c :: s' => if isWhiteSpace c then trimStart s' else s
  end.

Definition trimEnd (s : jsstring) : jsstring :=
  reverse (trimStart (reverse s)).

(** [String.prototype.trim] *)
Definition trim (s : jsstring) : jsstring := trimEnd (trimStart s).

(** ** Regular expressions

    The fragment of the regular expression syntax that the classifier uses:
    character classes, concatenation, alternation and repetition. *)

Inductive regex : Type :=
| Never
| Eps
| CharClass (p : N -> bool)
| Seq (r1 r2 : regex)
| Alt (r1 r2 : regex)
| Star (r : regex).

(** The strings a pattern matches from its first to its last code unit. *)
Inductive matches : regex -> jsstring -> Prop :=
| matches_eps : matches Eps []
| matches_class p c : p c = true -> matches (CharClass p) [c]
| matches_seq r1 r2 s1 s2 :
    matches r1 s1 -> matches r2 s2 -> matches (Seq r1 r2) (s1 ++ s2)
| matches_alt_l r1 r2 s : matches r1 s -> matches (Alt r1 r2) s
| matches_alt_r r1 r2 s : matches r2 s -> matches (Alt r1 r2) s
| matches_star_nil r : matches (Star r) []
| matches_star_app r s1 s2 :
    matches r s1 -> matches (Star r) s2 -> matches (Star r) (s1 ++ s2).

Fixpoint nullable (r : regex) : bool :=
  match r with
  | Never => false
  | Eps => true
  | CharClass _ => false
  | Seq r1 r2 => nullable r1 && nullable r2
  | Alt r1 r2 => nullable r1 || nullable r2
  | Star _ => true
  end.

(** What is left of the pattern once the code unit [c] has been read. *)
Fixpoint deriv (c : N) (r : regex) : regex :=
  match r with
  | Never => Never
  | Eps => Never
  | CharClass p => if p c then Eps else Never
  | Seq r1 r2 =>
      if nullable r1 then Alt (Seq (deriv c r1) r2) (deriv c r2)
      else Seq (deriv c r1) r2
  | Alt r1 r2 => Alt (deriv c r1) (deriv c r2)
  | Star r1 => Seq (deriv c r1) (Star r1)
  end.

(** [/^r$/.test(s)] *)
Fixpoint full_match (r : regex) (s : jsstring) : bool :=
  match s with
  | [] => nullable r
  | c :: s' => full_match (deriv c r) s'
  end.

(** [/^r/.test(s)]: some prefix of [s] matches. *)
Fixpoint prefix_match (r : regex) (s : jsstring) : bool :=
  nullable r ||
  match s with
  | [] => false
  | c :: s' => prefix_match (deriv c r) s'
  end.

(** Derived forms: [r?], [r+], [r{n,}]. *)
Definition Opt (r : regex) : regex := Alt r Eps.
Definition Plus (r : regex) : regex := Seq r (Star r).
Fixpoint AtLeast (n : nat) (r : regex) : regex :=
  match n with
  | O => Star r
  | S n' => Seq r (AtLeast n' r)
  end.

(** Canonicalize of a pattern without the [u] flag, as far as it matters for
    a pattern made of ASCII characters: [a]..[z] go to [A]..[Z], and a code
    unit of 128 or more never canonicalizes to one below 128. *)
Definition Canonicalize (c : N) : N :=
  if (0x61 <=? c) && (c <=? 0x7A) then c - 0x20 else c.

(** One character of a pattern: [Chr] under no flag, [ChrI] under [/i]. *)
Definition Chr (a : N) : regex := CharClass (N.eqb a).
Definition ChrI (a : N) : regex :=
  CharClass (fun c => Canonicalize c =? Canonicalize a).

Fixpoint Word (chr : N -> regex) (w : jsstring) : regex :=
  match w with
  | [] => Eps
  | a :: w' => Seq (chr a) (Word chr w')
  end.

(** [\d], [[^\s@]] and [[\d\s\-()]] *)
Definition isDigit (c : N) : bool := (0x30 <=? c) && (c <=? 0x39).
Definition notSpaceNorAt (c : N) : bool := negb (isWhiteSpace c || (c =? 0x40)).
Definition isPhoneChar (c : N) : bool :=
  isDigit c || isWhiteSpace c || (c =? 0x2D) || (c =? 0x28) || (c =? 0x29).

(** A regular expression literal that starts with [^]; [to_end] says whether
    it ends with [$]. *)
Record RegExp : Type := { body : regex; to_end : bool }.

(** [RegExp.prototype.test] *)
Definition test (re : RegExp) (s : jsstring) : bool :=
  if to_end re then full_match (body re) s else prefix_match (body re) s.

(** The seven literals of [detectScanType]. *)

(** [/^https?:\/\//i] *)
Definition re_http : RegExp :=
  {| body := Seq (Word ChrI (lit "http"))
                 (Seq (Opt (ChrI 0x73)) (Word ChrI (lit "://")));
     to_end := false |}.
(** [/^www\./i] *)
Definition re_www : RegExp :=
  {| body := Word ChrI (lit "www."); to_end := false |}.
(** [/^mailto:/i] *)
Definition re_mailto : RegExp :=
  {| body := Word ChrI (lit "mailto:"); to_end := false |}.
(** [/^[^\s@]+@[^\s@]+\.[^\s@]+$/] *)
Definition re_email : RegExp :=
  {| body := Seq (Plus (CharClass notSpaceNorAt))
                 (Seq (Chr 0x40)
                      (Seq (Plus (CharClass notSpaceNorAt))
                           (Seq (Chr 0x2E) (Plus (CharClass notSpaceNorAt)))));
     to_end := true |}.
(** [/^tel:/i] *)
Definition re_tel : RegExp :=
  {| body := Word ChrI (lit "tel:"); to_end := false |}.
(** [/^\+?\d[\d\s\-()]{6,}$/] *)
Definition re_phone : RegExp :=
  {| body := Seq (Opt (Chr 0x2B))
                 (Seq (CharClass isDigit) (AtLeast 6 (CharClass isPhoneChar)));
     to_end := true |}.
(** [/^WIFI:/i] *)
Definition re_wifi : RegExp :=
  {| body := Word ChrI (lit "WIFI:"); to_end := false |}.

(** ** The classifier *)

Inductive ScanType : Type := url | text | email | phone | wifi | unknown.

Definition detectScanType (data : jsstring) : ScanType :=
  let trimmed := trim data in
  if test re_http trimmed || test re_www trimmed then url
  else if test re_mailto trimmed || test re_email trimmed then email
  else if test re_tel trimmed || test re_phone trimmed then phone
  else if test re_wifi trimmed then wifi
  else if (0 <? length trimmed)%nat then text
  else unknown.

(** ** The rules of the classifier, stated on strings

    Each rule is a property of the trimmed text that does not mention the
    matcher; it is decided by the test of the corresponding literals. *)

(** [t] begins with [p], letters compared without regard to case. *)
Definition starts_with_ci (p t : jsstring) : Prop :=
  exists h rest, t = h ++ rest /\ Canonicalize <$> h = Canonicalize <$> p.

(** Neither white space nor [@]. *)
Definition plain (c : N) : Prop := isWhiteSpace c = false /\ c <> 0x40.

(** local part, [@], domain, [.], top-level part: three non-empty runs of plain
    code units, hence a single [@] and no white space. *)
Definition email_shape (t : jsstring) : Prop :=
  exists l d tld,
    t = l ++ 0x40 :: d ++ 0x2E :: tld /\
    l <> [] /\ d <> [] /\ tld <> [] /\
    Forall plain l /\ Forall plain d /\ Forall plain tld.

(** A digit, white space, a hyphen or a parenthesis. *)
Definition phone_char (c : N) : Prop :=
  isDigit c = true \/ isWhiteSpace c = true \/ c = 0x2D \/ c = 0x28 \/ c = 0x29.

(** An optional [+], a digit, then six or more [phone_char]s. *)
Definition phone_shape (t : jsstring) : Prop :=
  exists sign d tail,
    t = sign ++ d :: tail /\ (sign = [] \/ sign = [0x2B]) /\
    isDigit d = true /\ (6 <= length tail)%nat /\ Forall phone_char tail.

Definition url_rule (t : jsstring) : Prop :=
  starts_with_ci (lit "http://") t \/ starts_with_ci (lit "https://") t \/
  starts_with_ci (lit "www.") t.
Definition email_rule (t : jsstring) : Prop :=
  starts_with_ci (lit "mailto:") t \/ email_shape t.
Definition phone_rule (t : jsstring) : Prop :=
  starts_with_ci (lit "tel:") t \/ phone_shape t.
Definition wifi_rule (t : jsstring) : Prop := starts_with_ci (lit "WIFI:") t.
Definition text_rule (t : jsstring) : Prop := t <> [].


(** First match wins: the tag of a trimmed text under the six rules taken in
    order. *)
Inductive classifies (t : jsstring) : ScanType -> Prop :=
| classifies_url : url_rule t -> classifies t url
| classifies_email : ~ url_rule t -> email_rule t -> classifies t email
| classifies_phone :
    ~ url_rule t -> ~ email_rule t -> phone_rule t -> classifies t phone
| classifies_wifi :
    ~ url_rule t -> ~ email_rule t -> ~ phone_rule t -> wifi_rule t ->
    classifies t wifi
| classifies_text :
    ~ url_rule t -> ~ email_rule t -> ~ phone_rule t -> ~ wifi_rule t ->
    text_rule t -> classifies t text
| classifies_unknown :
    ~ url_rule t -> ~ email_rule t -> ~ phone_rule t -> ~ wifi_rule t ->
    ~ text_rule t -> classifies t unknown.

(** The first and the last code unit of a text, when it has one, pass [p]. *)
Definition ends_pass (p : N -> bool) (t : jsstring) : Prop :=
  from_option p true (head t) = true /\ from_option p true (last t) = true.

(** [t] is [s] without its leading and trailing white space. *)
Definition trimmed_of (s t : jsstring) : Prop :=
  exists lead trail,
    s = lead ++ t ++ trail /\
    Forall (fun c => isWhiteSpace c = true) lead /\
    Forall (fun c => isWhiteSpace c = true) trail /\
    ends_pass (fun c => negb (isWhiteSpace c)) t.

(** ** Scan items and their run-time values *)

Record ScanItem : Type :=
  { id : jsstring; data : jsstring; type : ScanType; timestamp : Z }.

(** A [ScanType] is one of six string literals. *)
Definition ScanType_string (t : ScanType) : jsstring :=
  match t with
  | url => lit "url"
  | text => lit "text"
  | email => lit "email"
  | phone => lit "phone"
  | wifi => lit "wifi"
  | unknown => lit "unknown"
  end.

(** The mathematical value of a JSON numeric literal,
    [(-1)^negative * mantissa * 10^exponent]. The Number it denotes is this
    value rounded to a double; equal records denote equal Numbers. The integer
    [z] of a time value is [{| negative := z <? 0; mantissa := |z|;
    exponent := 0 |}]. *)
Record JSNum : Type := { negative : bool; mantissa : N; exponent : Z }.

(** The values that [JSON.parse] returns. An object is a finite map from
    property keys to values. *)
Inductive JSValue : Type :=
| JNull
| JBool (b : bool)
| JNumber (n : JSNum)
| JString (s : jsstring)
| JArray (l : list JSValue)
| JObject (props : gmap jsstring JSValue).

Definition num_of_Z (z : Z) : JSNum :=
  {| negative := (z <? 0)%Z; mantissa := Z.abs_N z; exponent := 0 |}.

(** The object [{ id, data, type, timestamp }]. *)
Definition item_value (it : ScanItem) : JSValue :=
  JObject (<[lit "timestamp" := JNumber (num_of_Z (timestamp it))]>
          (<[lit "type" := JString (ScanType_string (type it))]>
          (<[lit "data" := JString (data it)]>
          (<[lit "id" := JString (id it)]> ∅)))).

(** A [ScanItem[]] at run time. *)
Definition items_value (items : list ScanItem) : JSValue :=
  JArray (item_value <$> items).

(** ** [JSON.stringify] of a [ScanItem[]] *)

Definition hex_digit (d : N) : N :=
  if d <? 10 then 0x30 + d else 0x61 + (d - 10).

(** [\uXXXX] with lower-case hexadecimal digits. *)
Definition UnicodeEscape (c : N) : jsstring :=
  [0x5C; 0x75; hex_digit (c / 0x1000 mod 16); hex_digit (c / 0x100 mod 16);
   hex_digit (c / 0x10 mod 16); hex_digit (c mod 16)].

Definition is_leading_surrogate (c : N) : bool := (0xD800 <=? c) && (c <=? 0xDBFF).
Definition is_trailing_surrogate (c : N) : bool := (0xDC00 <=? c) && (c <=? 0xDFFF).

(** One code point of QuoteJSONString that is a single code unit. *)
Definition quote_code_unit (c : N) : jsstring :=
  if c =? 0x08 then [0x5C; 0x62]
  else if c =? 0x09 then [0x5C; 0x74]
  else if c =? 0x0A then [0x5C; 0x6E]
  else if c =? 0x0C then [0x5C; 0x66]
  else if c =? 0x0D then [0x5C; 0x72]
  else if c =? 0x22 then [0x5C; 0x22]
  else if c =? 0x5C then [0x5C; 0x5C]
  else if (c <? 0x20) || is_leading_surrogate c || is_trailing_surrogate c
       then UnicodeEscape c
  else [c].

(** The code points of the string in turn: a surrogate pair goes out as it
    is, a lone surrogate escaped. *)
Fixpoint quote_code_points (s : jsstring) : jsstring :=
  match s with
  | [] => []
  | c :: s1 =>
      match s1 with
      | d :: s2 =>
          if is_leading_surrogate c && is_trailing_surrogate d
          then c :: d :: quote_code_points s2
          else quote_code_unit c ++ quote_code_points s1
      | [] => quote_code_unit c
      end
  end.

Definition QuoteJSONString (s : jsstring) : jsstring :=
  0x22 :: quote_code_points s ++ [0x22].

(** The decimal digits of [n], most significant first. *)
Fixpoint digits_fuel (fuel : nat) (n : N) : jsstring :=
  match fuel with
  | O => []
  | S fuel' =>
      if n <? 10 then [0x30 + n]
      else digits_fuel fuel' (n / 10) ++ [0x30 + n mod 10]
  end.

Definition decimal_digits (n : N) : jsstring := digits_fuel (S (N.size_nat n)) n.

(** Number::toString of an integral Number of magnitude below [10^21], which
    the time values of [Date.now()] are. *)
Definition Number_toString (z : Z) : jsstring :=
  (if (z <? 0)%Z then [0x2D] else []) ++ decimal_digits (Z.abs_N z).

(** [elements] joined by commas. *)
Fixpoint join_comma (elements : list jsstring) : jsstring :=
  match elements with
  | [] => []
  | [e] => e
  | e :: rest => e ++ 0x2C :: join_comma rest
  end.

(** SerializeJSONProperty of one member: the quoted key, a colon, the
    value. *)
Definition member (key value : jsstring) : jsstring :=
  QuoteJSONString key ++ 0x3A :: value.

(** SerializeJSONObject of a scan item, its keys in creation order. *)
Definition stringify_item (it : ScanItem) : jsstring :=
  0x7B ::
  join_comma
    [member (lit "id") (QuoteJSONString (id it));
     member (lit "data") (QuoteJSONString (data it));
     member (lit "type") (QuoteJSONString (ScanType_string (type it)));
     member (lit "timestamp") (Number_toString (timestamp it))]
  ++ [0x7D].

(** SerializeJSONArray: [JSON.stringify(items)] without indentation. *)
Definition JSON_stringify (items : list ScanItem) : jsstring :=
  0x5B :: join_comma (stringify_item <$> items) ++ [0x5D].

(** *** [JSON.stringify] of a run-time value

    The state of the provider holds whatever [JSON.parse] has returned, and
    [saveHistory] is handed what the callbacks build from it. *)

Definition ScanType_of_string (s : jsstring) : option ScanType :=
  if bool_decide (s = lit "url") then Some url
  else if bool_decide (s = lit "text") then Some text
  else if bool_decide (s = lit "email") then Some email
  else if bool_decide (s = lit "phone") then Some phone
  else if bool_decide (s = lit "wifi") then Some wifi
  else if bool_decide (s = lit "unknown") then Some unknown
  else None.

(** The integer that a numeral is the [num_of_Z] of. *)
Definition Z_of_num (n : JSNum) : option Z :=
  if (exponent n =? 0)%Z then
    if negative n
    then (if mantissa n =? 0 then None else Some (- Z.of_N (mantissa n))%Z)
    else Some (Z.of_N (mantissa n))
  else None.

(** The scan item that a value is the [item_value] of: an object with the
    four properties of a scan item and no other. *)
Definition record_of (v : JSValue) : option ScanItem :=
  match v with
  | JObject props =>
      match props !! lit "id", props !! lit "data", props !! lit "type",
            props !! lit "timestamp" with
      | Some (JString i), Some (JString d), Some (JString t), Some (JNumber n) =>
          match ScanType_of_string t, Z_of_num n with
          | Some ty, Some z =>
              if bool_decide (size props = 4%nat)
              then Some {| id := i; data := d; type := ty; timestamp := z |}
              else None
          | _, _ => None
          end
      | _, _, _, _ => None
      end
  | _ => None
  end.

Definition records_of (l : list JSValue) : option (list ScanItem) :=
  mapM record_of l.

(** [JSON.stringify(value)]. An array of scan items is written by
    [JSON_stringify], each item with its properties in the order in which
    [addScan] creates them, which is also the order in which a snapshot
    written by [saveHistory] gives them back. The text of any other value
    depends on what a [JSValue] does not keep, the order of the properties of
    an object and the Number behind a numeral, and is left to [other]. *)
Definition JSON_stringify_value (other : JSValue -> jsstring) (value : JSValue)
  : jsstring :=
  match value with
  | JArray l =>
      match records_of l with
      | Some items => JSON_stringify items
      | None => other value
      end
  | _ => other value
  end.

(** ** [JSON.parse] *)

Definition is_json_ws (c : N) : bool :=
  (c =? 0x09) || (c =? 0x0A) || (c =? 0x0D) || (c =? 0x20).

Fixpoint skip_ws (s : jsstring) : jsstring :=
  match s with
  | [] => []
  | c :: s' => if is_json_ws c then skip_ws s' else s
  end.

(** [s] without the prefix [p], when it has it. *)
Fixpoint strip_prefix (p s : jsstring) : option jsstring :=
  match p, s with
  | [], _ => Some s
  | a :: p', c :: s' => if a =? c then strip_prefix p' s' else None
  | _ :: _, [] => None
  end.

Definition hex_value (c : N) : option N :=
  if (0x30 <=? c) && (c <=? 0x39) then Some (c - 0x30)
  else if (0x61 <=? c) && (c <=? 0x66) then Some (c - 0x61 + 10)
  else if (0x41 <=? c) && (c <=? 0x46) then Some (c - 0x41 + 10)
  else None.

Definition hex4 (h1 h2 h3 h4 : N) : option N :=
  v1 ← hex_value h1; v2 ← hex_value h2; v3 ← hex_value h3; v4 ← hex_value h4;
  Some (((v1 * 16 + v2) * 16 + v3) * 16 + v4).

(** The code unit that the escape [\e] stands for. *)
Definition unescape (e : N) : option N :=
  if e =? 0x22 then Some 0x22
  else if e =? 0x5C then Some 0x5C
  else if e =? 0x2F then Some 0x2F
  else if e =? 0x62 then Some 0x08
  else if e =? 0x66 then Some 0x0C
  else if e =? 0x6E then Some 0x0A
  else if e =? 0x72 then Some 0x0D
  else if e =? 0x74 then Some 0x09
  else None.

Definition cons_char (c : N) (r : option (jsstring * jsstring))
  : option (jsstring * jsstring) :=
  '(str, rest) ← r; Some (c :: str, rest).

(** The characters of a string literal after its opening quote, up to and
    with the closing quote. *)
Fixpoint parse_chars (s : jsstring) : option (jsstring * jsstring) :=
  match s with
  | [] => None
  | c :: s1 =>
      if c =? 0x22 then Some ([], s1)
      else if c =? 0x5C then
        match s1 with
        | [] => None
        | e :: s2 =>
            if e =? 0x75 then
              match s2 with
              | h1 :: h2 :: h3 :: h4 :: s3 =>
                  match hex4 h1 h2 h3 h4 with
                  | Some u => cons_char u (parse_chars s3)
                  | None => None
                  end
              | _ => None
              end
            else
              match unescape e with
              | Some u => cons_char u (parse_chars s2)
              | None => None
              end
        end
      else if c <? 0x20 then None
      else cons_char c (parse_chars s1)
  end.

(** The longest run of decimal digits at the start of [s]. *)
Fixpoint span_digits (s : jsstring) : jsstring * jsstring :=
  match s with
  | c :: s' =>
      if isDigit c then let '(ds, rest) := span_digits s' in (c :: ds, rest)
      else ([], s)
  | [] => ([], [])
  end.

Definition digits_value (ds : jsstring) : N :=
  foldl (fun acc d => 10 * acc + (d - 0x30)) 0 ds.

(** The digits of the integer part: [0] alone, or a run that starts with
    [1]..[9]. *)
Definition parse_int (s : jsstring) : option (jsstring * jsstring) :=
  match s with
  | d :: s' =>
      if d =? 0x30 then Some ([d], s')
      else if isDigit d then Some (span_digits s)
      else None
  | [] => None
  end.

Definition parse_frac (s : jsstring) : option (jsstring * jsstring) :=
  match s with
  | c :: s' =>
      if c =? 0x2E then
        let '(ds, rest) := span_digits s' in
        if decide (ds = []) then None else Some (ds, rest)
      else Some ([], s)
  | [] => Some ([], [])
  end.

Definition parse_exp_digits (neg : bool) (s : jsstring) : option (Z * jsstring) :=
  let '(ds, rest) := span_digits s in
  if decide (ds = []) then None
  else Some (if neg then (- Z.of_N (digits_value ds))%Z
             else Z.of_N (digits_value ds), rest).

Definition parse_exp (s : jsstring) : option (Z * jsstring) :=
  match s with
  | c :: s' =>
      if (c =? 0x65) || (c =? 0x45) then
        match s' with
        | g :: s'' =>
            if g =? 0x2B then parse_exp_digits false s''
            else if g =? 0x2D then parse_exp_digits true s''
            else parse_exp_digits false s'
        | [] => None
        end
      else Some (0%Z, s)
  | [] => Some (0%Z, [])
  end.

(** [int frac? exp?], the sign already read. *)
Definition parse_unsigned (neg : bool) (s : jsstring) : option (JSNum * jsstring) :=
  '(int, s2) ← parse_int s;
  '(frac, s3) ← parse_frac s2;
  '(e, s4) ← parse_exp s3;
  Some ({| negative := neg;
           mantissa := digits_value (int ++ frac);
           exponent := (e - Z.of_nat (length frac))%Z |}, s4).

(** A numeric literal: [-? int frac? exp?]. *)
Definition parse_number (s : jsstring) : option (JSNum * jsstring) :=
  match s with
  | c :: s' => if c =? 0x2D then parse_unsigned true s' else parse_unsigned false s
  | [] => None
  end.

(** One JSON value at the start of [s], after white space, and the text that
    follows it; [elements] and [members] read what is between the brackets of
    an array and the braces of an object. *)
Definition value_step
    (elements : jsstring -> option (list JSValue * jsstring))
    (members : gmap jsstring JSValue -> jsstring ->
               option (gmap jsstring JSValue * jsstring))
    (s : jsstring) : option (JSValue * jsstring) :=
  match skip_ws s with
  | [] => None
  | c :: s1 =>
      if c =? 0x22 then
        '(str, rest) ← parse_chars s1; Some (JString str, rest)
      else if c =? 0x5B then
        match skip_ws s1 with
        | [] => None
        | c1 :: s2 =>
            if c1 =? 0x5D then Some (JArray [], s2)
            else '(vs, rest) ← elements s1; Some (JArray vs, rest)
        end
      else if c =? 0x7B then
        match skip_ws s1 with
        | [] => None
        | c1 :: s2 =>
            if c1 =? 0x7D then Some (JObject ∅, s2)
            else '(m, rest) ← members ∅ s1; Some (JObject m, rest)
        end
      else if c =? 0x74 then
        rest ← strip_prefix (lit "rue") s1; Some (JBool true, rest)
      else if c =? 0x66 then
        rest ← strip_prefix (lit "alse") s1; Some (JBool false, rest)
      else if c =? 0x6E then
        rest ← strip_prefix (lit "ull") s1; Some (JNull, rest)
      else
        '(n, rest) ← parse_number (c :: s1); Some (JNumber n, rest)
  end.

(** The elements of a non-empty array up to and with its closing bracket. *)
Definition elements_step
    (value : jsstring -> option (JSValue * jsstring))
    (elements : jsstring -> option (list JSValue * jsstring))
    (s : jsstring) : option (list JSValue * jsstring) :=
  '(v, s1) ← value s;
  match skip_ws s1 with
  | [] => None
  | c :: s2 =>
      if c =? 0x2C then '(vs, rest) ← elements s2; Some (v :: vs, rest)
      else if c =? 0x5D then Some ([v], s2)
      else None
  end.

(** The members of a non-empty object up to and with its closing brace,
    added to [m] in turn: of two members with one key the later stays. *)
Definition members_step
    (value : jsstring -> option (JSValue * jsstring))
    (members : gmap jsstring JSValue -> jsstring ->
               option (gmap jsstring JSValue * jsstring))
    (m : gmap jsstring JSValue) (s : jsstring)
  : option (gmap jsstring JSValue * jsstring) :=
  match skip_ws s with
  | [] => None
  | q :: s1 =>
      if q =? 0x22 then
        '(key, s2) ← parse_chars s1;
        match skip_ws s2 with
        | [] => None
        | c :: s3 =>
            if c =? 0x3A then
              '(v, s4) ← value s3;
              match skip_ws s4 with
              | [] => None
              | c' :: s5 =>
                  if c' =? 0x2C then members (<[key := v]> m) s5
                  else if c' =? 0x7D then Some (<[key := v]> m, s5)
                  else None
              end
            else None
        end
      else None
  end.

(** The three readers; [fuel] bounds the depth of their calls. *)
Fixpoint parse_value (fuel : nat) (s : jsstring) : option (JSValue * jsstring) :=
  match fuel with
  | O => None
  | S fuel' => value_step (parse_elements fuel') (parse_members fuel') s
  end
with parse_elements (fuel : nat) (s : jsstring)
  : option (list JSValue * jsstring) :=
  match fuel with
  | O => None
  | S fuel' => elements_step (parse_value fuel') (parse_elements fuel') s
  end
with parse_members (fuel : nat) (m : gmap jsstring JSValue) (s : jsstring)
  : option (gmap jsstring JSValue * jsstring) :=
  match fuel with
  | O => None
  | S fuel' => members_step (parse_value fuel') (parse_members fuel') m s
  end.

(** [JSON.parse(s)]: [None] when it throws a SyntaxError. *)
Definition JSON_parse (s : jsstring) : option JSValue :=
  '(v, rest) ← parse_value (2 * length s + 2) s;
  match skip_ws rest with
  | [] => Some v
  | _ :: _ => None
  end.

(** ** Asynchronous functions

    The body of an [async] function is a tree: it returns, throws, calls into
    the host and goes on with the answer, or awaits a storage request and goes
    on once the request has settled. *)

Inductive JSError : Type :=
| SyntaxError
| TypeError
| HostError (message : jsstring).

(** How a promise settles. *)
Inductive Settled (X : Type) : Type :=
| Fulfilled (x : X)
| Rejected (e : JSError).
Arguments Fulfilled {X} x.
Arguments Rejected {X} e.

(** Calls that answer at once. [setHistory] and [setIsLoading] are the state
    setters of the provider, [randomUUID] is [Crypto.randomUUID()], [Date_now]
    is [Date.now()], [stringify] is [JSON.stringify]. *)
Inductive SyncOp : Type -> Type :=
| randomUUID : SyncOp jsstring
| Date_now : SyncOp Z
| stringify (value : JSValue) : SyncOp jsstring
| setHistory (v : JSValue) : SyncOp unit
| setIsLoading (b : bool) : SyncOp unit
| console_error (message : jsstring) (e : JSError) : SyncOp unit.

(** Requests to [AsyncStorage]; each returns a promise. *)
Inductive AsyncOp : Type -> Type :=
| getItem (key : jsstring) : AsyncOp (option jsstring)
| setItem (key value : jsstring) : AsyncOp unit.

Inductive Prog (A : Type) : Type :=
| Ret (a : A)
| Throw (e : JSError)
| Do {X : Type} (op : SyncOp X) (k : X -> Prog A)
| Await {X : Type} (io : AsyncOp X) (k : Settled X -> Prog A).
Arguments Ret {A} a.
Arguments Throw {A} e.
Arguments Do {A X} op k.
Arguments Await {A X} io k.

Fixpoint bind {A B : Type} (p : Prog A) (f : A -> Prog B) : Prog B :=
  match p with
  | Ret a => f a
  | Throw e => Throw e
  | Do op k => Do op (fun x => bind (k x) f)
  | Await io k => Await io (fun r => bind (k r) f)
  end.

#[global] Instance Prog_ret : MRet Prog := fun A a => Ret a.
#[global] Instance Prog_bind : MBind Prog := fun A B f p => bind p f.

(** [op(...)] and [await io(...)] as statements. *)
Definition call {X : Type} (op : SyncOp X) : Prog X := Do op Ret.
Definition await {X : Type} (io : AsyncOp X) : Prog X :=
  Await io (fun r => match r with
                     | Fulfilled x => Ret x
                     | Rejected e => Throw e
                     end).

(** [try { p } catch (e) { h e }] *)
Fixpoint try_catch {A : Type} (p : Prog A) (h : JSError -> Prog A) : Prog A :=
  match p with
  | Ret a => Ret a
  | Throw e => h e
  | Do op k => Do op (fun x => try_catch (k x) h)
  | Await io k => Await io (fun r => try_catch (k r) h)
  end.

(** [try { p } finally { f }] *)
Fixpoint try_finally {A : Type} (p : Prog A) (f : Prog unit) : Prog A :=
  match p with
  | Ret a => f;; Ret a
  | Throw e => f;; Throw e
  | Do op k => Do op (fun x => try_finally (k x) f)
  | Await io k => Await io (fun r => try_finally (k r) f)
  end.

(** ** The provider and its host

    [history] and [isLoading] are the two pieces of state of
    [ScanHistoryProvider]; [history] holds a run-time value, a [ScanItem[]] as
    far as the type checker knows. [storage] is the content of
    [AsyncStorage], [console] what [console.error] has printed. *)
Record World : Type :=
  { history : JSValue;
    isLoading : bool;
    storage : gmap jsstring jsstring;
    console : list (jsstring * JSError) }.

(** What the host answers during one call: the identifier and the clock
    reading it hands out, whether a read or a write of the storage fails, and
    the text that its [JSON.stringify] gives for a value that is not an array
    of scan items. *)
Record Host : Type :=
  { uuid : jsstring;
    now : Z;
    read_error : option JSError;
    write_error : option JSError;
    stringify_other : JSValue -> jsstring }.

Definition set_history (v : JSValue) (w : World) : World :=
  {| history := v; isLoading := isLoading w;
     storage := storage w; console := console w |}.
Definition set_isLoading (b : bool) (w : World) : World :=
  {| history := history w; isLoading := b;
     storage := storage w; console := console w |}.
Definition log_error (message : jsstring) (e : JSError) (w : World) : World :=
  {| history := history w; isLoading := isLoading w;
     storage := storage w; console := console w ++ [(message, e)] |}.
Definition write_storage (key value : jsstring) (w : World) : World :=
  {| history := history w; isLoading := isLoading w;
     storage := <[key := value]> (storage w); console := console w |}.

Definition do_sync (h : Host) (w : World) {X : Type} (op : SyncOp X) : World * X :=
  match op in SyncOp X return World * X with
  | randomUUID => (w, uuid h)
  | Date_now => (w, now h)
  | stringify value => (w, JSON_stringify_value (stringify_other h) value)
  | setHistory v => (set_history v w, tt)
  | setIsLoading b => (set_isLoading b w, tt)
  | console_error message e => (log_error message e w, tt)
  end.

(** A storage request settles: fulfilled, or rejected with the error of the
    host, which then leaves the storage as it was. *)
Definition do_async (h : Host) (w : World) {X : Type} (io : AsyncOp X)
  : World * Settled X :=
  match io in AsyncOp X return World * Settled X with
  | getItem key =>
      match read_error h with
      | Some e => (w, Rejected e)
      | None => (w, Fulfilled (storage w !! key))
      end
  | setItem key value =>
      match write_error h with
      | Some e => (w, Rejected e)
      | None => (write_storage key value w, Fulfilled tt)
      end
  end.

(** A call run until its promise settles. *)
Fixpoint run {A : Type} (h : Host) (w : World) (p : Prog A) : World * Settled A :=
  match p with
  | Ret a => (w, Fulfilled a)
  | Throw e => (w, Rejected e)
  | Do op k => let '(w', x) := do_sync h w op in run h w' (k x)
  | Await io k => let '(w', r) := do_async h w io in run h w' (k r)
  end.

(** A call run up to its first [await]: either its promise has settled, or
    it waits for a storage request and goes on with [k]. *)
Inductive Status (A : Type) : Type :=
| Settles (r : Settled A)
| Awaits {X : Type} (io : AsyncOp X) (k : Settled X -> Prog A).
Arguments Settles {A} r.
Arguments Awaits {A X} io k.

Fixpoint run_sync {A : Type} (h : Host) (w : World) (p : Prog A) : World * Status A :=
  match p with
  | Ret a => (w, Settles (Fulfilled a))
  | Throw e => (w, Settles (Rejected e))
  | Do op k => let '(w', x) := do_sync h w op in run_sync h w' (k x)
  | Await io k => (w, Awaits io k)
  end.

(** ** The history store *)

Definition STORAGE_KEY : jsstring := lit "@qr_scan_history".

Definition JSON_parse_or_throw (text : jsstring) : Prog JSValue :=
  match JSON_parse text with
  | Some v => Ret v
  | None => Throw SyntaxError
  end.

(** [if (stored)] takes the branch unless [stored] is [null] or the empty
    string. *)
Definition loadHistory : Prog unit :=
  try_finally
    (try_catch
       (stored ← await (getItem STORAGE_KEY);
        match stored with
        | Some (c :: s) =>
            v ← JSON_parse_or_throw (c :: s);
            call (setHistory v)
        | Some [] | None => Ret tt
        end)
       (fun e => call (console_error (lit "Failed to load scan history:") e)))
    (call (setIsLoading false)).

(** [text] read by its iterator: code point by code point, a surrogate pair
    as one string. *)
Fixpoint code_points (text : jsstring) : list jsstring :=
  match text with
  | [] => []
  | c :: rest =>
      match rest with
      | d :: rest' =>
          if is_leading_surrogate c && is_trailing_surrogate d
          then [c; d] :: code_points rest'
          else [c] :: code_points rest
      | [] => [[c]]
      end
  end.

(** [[...value]]: the elements of an array, the code points of a string;
    [null], a boolean, a number and a plain object are not iterable, and the
    spread throws a [TypeError]. *)
Definition spread (value : JSValue) : option (list JSValue) :=
  match value with
  | JArray elements => Some elements
  | JString s => Some (JString <$> code_points s)
  | JNull | JBool _ | JNumber _ | JObject _ => None
  end.

(** [item.id !== id']. Reading a property of [null] throws a [TypeError]; a
    value that has no property [id] gives [undefined], which differs from a
    string. *)
Definition id_differs (id' : jsstring) (item : JSValue) : option bool :=
  match item with
  | JNull => None
  | JObject props =>
      match props !! lit "id" with
      | Some (JString i) => Some (negb (bool_decide (i = id')))
      | _ => Some true
      end
  | JBool _ | JNumber _ | JString _ | JArray _ => Some true
  end.

Fixpoint filter_elements (id' : jsstring) (elements : list JSValue)
  : option (list JSValue) :=
  match elements with
  | [] => Some []
  | item :: rest =>
      match id_differs id' item with
      | None => None
      | Some keep =>
          match filter_elements id' rest with
          | None => None
          | Some kept => Some (if keep then item :: kept else kept)
          end
      end
  end.

(** [value.filter(item => item.id !== id')]: only an array has a method
    [filter]; on anything else the call throws a [TypeError]. *)
Definition Array_filter (id' : jsstring) (value : JSValue)
  : option (list JSValue) :=
  match value with
  | JArray elements => filter_elements id' elements
  | JNull | JBool _ | JNumber _ | JString _ | JObject _ => None
  end.

Definition saveHistory (items : JSValue) : Prog unit :=
  try_catch
    (snapshot ← call (stringify items);
     await (setItem STORAGE_KEY snapshot))
    (fun e => call (console_error (lit "Failed to save scan history:") e)).

(** [history] is the value of the state that the callback has captured: a
    [ScanItem[]] as far as the type checker knows, at run time whatever
    [loadHistory] or an earlier callback has set. *)
Definition addScan (history : JSValue) (data : jsstring) : Prog ScanItem :=
  new_id ← call randomUUID;
  let new_type := detectScanType data in
  new_timestamp ← call Date_now;
  let newItem :=
    {| id := new_id; data := data; type := new_type;
       timestamp := new_timestamp |} in
  match spread history with
  | None => Throw TypeError
  | Some elements =>
      let updated := JArray (item_value newItem :: elements) in
      call (setHistory updated);;
      saveHistory updated;;
      Ret newItem
  end.

Definition removeScan (history : JSValue) (id' : jsstring) : Prog unit :=
  match Array_filter id' history with
  | None => Throw TypeError
  | Some kept =>
      let updated := JArray kept in
      call (setHistory updated);;
      saveHistory updated
  end.

Definition clearHistory : Prog unit :=
  call (setHistory (JArray []));;
  saveHistory (JArray []).

(** The provider when it mounts: [useState([])] and [useState(true)]. *)
Definition mount (store : gmap jsstring jsstring) : World :=
  {| history := items_value []; isLoading := true;
     storage := store; console := [] |}.

(** ** Notions used to state the properties *)

(** The number of at signs of a text. *)
Definition count_at (t : jsstring) : nat :=
  length (filter (fun c => c = 0x40) t).

(** What may follow a numeric literal without being read as part of it. *)
Definition ends_number (c : N) : bool :=
  negb (isDigit c || (c =? 0x2E) || (c =? 0x65) || (c =? 0x45)).

(** The record that [addScan] builds from the answers of the host. *)
Definition new_item (h : Host) (data : jsstring) : ScanItem :=
  {| id := uuid h; data := data; type := detectScanType data;
     timestamp := now h |}.

(** The provider once [saveHistory items] has settled: the snapshot is
    written, or the failure is on the console and the storage is as it was. *)
Definition after_save (h : Host) (items : list ScanItem) (w : World) : World :=
  match write_error h with
  | Some e => log_error (lit "Failed to save scan history:") e w
  | None => write_storage STORAGE_KEY (JSON_stringify items) w
  end.

(** The same for any value that [saveHistory] is handed. *)
Definition after_save_value (h : Host) (value : JSValue) (w : World) : World :=
  match write_error h with
  | Some e => log_error (lit "Failed to save scan history:") e w
  | None =>
      write_storage STORAGE_KEY
        (JSON_stringify_value (stringify_other h) value) w
  end.

(** What [loadHistory] makes of the stored snapshot: the value that
    [JSON.parse] returns for it, when it is read and parses. *)
Definition loaded_value (h : Host) (store : gmap jsstring jsstring)
  : option JSValue :=
  match read_error h with
  | Some _ => None
  | None => store !! STORAGE_KEY ≫= JSON_parse
  end.


(** A pattern whose character classes do not tell a letter from its capital. *)
Fixpoint blind_to_case (r : regex) : Prop :=
  match r with
  | Never | Eps => True
  | CharClass p => forall c, p (Canonicalize c) = p c
  | Seq r1 r2 | Alt r1 r2 => blind_to_case r1 /\ blind_to_case r2
  | Star r1 => blind_to_case r1
  end.


(** ** The screens

    The pure and the state-changing parts of [app/(tabs)/index.tsx] (the
    scanner screen) and of the history screen: the look-up tables of a scan
    type, [formatTime], the two [handleOpen] and the handlers of the scanner
    screen. *)

Inductive IconFamily : Type := ionicons | material.

Record TypeIcon : Type := { name : jsstring; family : IconFamily }.

(** The same function in both screens. *)
Definition getTypeIcon (type : ScanType) : TypeIcon :=
  match type with
  | url => {| name := lit "link"; family := ionicons |}
  | email => {| name := lit "mail"; family := ionicons |}
  | phone => {| name := lit "call"; family := ionicons |}
  | wifi => {| name := lit "wifi"; family := ionicons |}
  | text => {| name := lit "text-box-outline"; family := material |}
  | unknown => {| name := lit "qr-code"; family := ionicons |}
  end.

Definition getTypeColor (type : ScanType) : jsstring :=
  match type with
  | url => lit "#3B82F6"
  | email => lit "#8B5CF6"
  | phone => lit "#10B981"
  | wifi => lit "#F59E0B"
  | text => lit "#EF4444"
  | unknown => lit "#6B7280"
  end.

Definition getTypeLabel (type : ScanType) : jsstring :=
  match type with
  | url => lit "Website URL"
  | email => lit "Email Address"
  | phone => lit "Phone Number"
  | wifi => lit "WiFi Network"
  | text => lit "Text"
  | unknown => lit "QR Code"
  end.

#[global] Instance ScanType_eq_dec : EqDecision ScanType.
Proof. solve_decision. Defined.

(** The condition under which a screen renders the button that calls
    [handleOpen]: [type === 'url' || type === 'email' || type === 'phone']. *)
Definition offers_open (type : ScanType) : bool :=
  bool_decide (type = url) || bool_decide (type = email)
  || bool_decide (type = phone).

(** [formatTime(timestamp)], with the reading [now] of [Date.now()] and the
    host's [toLocaleDateString] as arguments. Time values are integers, and
    for an age below [2^43] milliseconds [Math.floor(diff / d)] is the integer
    quotient: the rounding of the division is too small to reach the next
    integer. *)
Definition formatTime (toLocaleDateString : Z -> jsstring) (now timestamp : Z)
  : jsstring :=
  let diff := (now - timestamp)%Z in
  let minutes := (diff / 60000)%Z in
  let hours := (diff / 3600000)%Z in
  let days := (diff / 86400000)%Z in
  if (minutes <? 1)%Z then lit "Just now"
  else if (minutes <? 60)%Z then Number_toString minutes ++ lit "m ago"
  else if (hours <? 24)%Z then Number_toString hours ++ lit "h ago"
  else if (days <? 7)%Z then Number_toString days ++ lit "d ago"
  else toLocaleDateString timestamp.

(** *** [Linking] *)

Inductive LinkingCall : Type :=
| canOpenURL (target : jsstring)
| openURL (target : jsstring).

(** What the host answers to the two requests. *)
Record Linking : Type :=
  { canOpenURL_answer : jsstring -> Settled bool;
    openURL_answer : jsstring -> Settled unit }.

(** [s.replace(re, '')] for a literal [re] that starts with [^] and whose
    matches all have [n] code units: the match, when there is one, is the
    first [n] code units of [s]. *)
Definition remove_match (re : RegExp) (n : nat) (s : jsstring) : jsstring :=
  if test re s then drop n s else s.

(** The body of both [handleOpen]: the requests it makes to [Linking], in
    order, and how its promise settles. *)
Definition open_scan (host : Linking) (data : jsstring) (type : ScanType)
  : list LinkingCall * Settled unit :=
  match type with
  | url =>
      let target := if test re_http data then data else lit "https://" ++ data in
      match canOpenURL_answer host target with
      | Fulfilled true =>
          ([canOpenURL target; openURL target], openURL_answer host target)
      | Fulfilled false => ([canOpenURL target], Fulfilled tt)
      | Rejected e => ([canOpenURL target], Rejected e)
      end
  | email =>
      let target := lit "mailto:" ++ remove_match re_mailto 7 data in
      ([openURL target], openURL_answer host target)
  | phone =>
      let target := lit "tel:" ++ remove_match re_tel 4 data in
      ([openURL target], openURL_answer host target)
  | wifi | text | unknown => ([], Fulfilled tt)
  end.

(** What a call asks [Linking] about. *)
Definition call_target (c : LinkingCall) : jsstring :=
  match c with
  | canOpenURL target => target
  | openURL target => target
  end.

Inductive Feedback : Type := NotificationSuccess | ImpactLight.

(** The device as the handlers see it: whether [Platform.OS] is ['web'], and
    the haptic feedback asked for so far. *)
Record Device : Type := { web : bool; haptics : list Feedback }.

Definition haptic (f : Feedback) (d : Device) : Device :=
  if web d then d else {| web := web d; haptics := haptics d ++ [f] |}.

Module HistoryScreen.

Definition handleOpen (host : Linking) (item : ScanItem)
  : list LinkingCall * Settled unit :=
  open_scan host (data item) (type item).

End HistoryScreen.

Module ScannerScreen.

(** The state of [ScannerScreen]; [lastScan] is [null] or the pair of the
    [data] and the [type] of the last scan. *)
Record State : Type :=
  { hasPermission : option bool;
    canAskAgain : bool;
    scanned : bool;
    showResult : bool;
    lastScan : option (jsstring * ScanType);
    torch : bool }.

(** The six [useState] of the screen. *)
Definition initial : State :=
  {| hasPermission := None; canAskAgain := true; scanned := false;
     showResult := false; lastScan := None; torch := false |}.

Definition setScanned (b : bool) (s : State) : State :=
  {| hasPermission := hasPermission s; canAskAgain := canAskAgain s;
     scanned := b; showResult := showResult s; lastScan := lastScan s;
     torch := torch s |}.
Definition setShowResult (b : bool) (s : State) : State :=
  {| hasPermission := hasPermission s; canAskAgain := canAskAgain s;
     scanned := scanned s; showResult := b; lastScan := lastScan s;
     torch := torch s |}.
Definition setLastScan (l : option (jsstring * ScanType)) (s : State) : State :=
  {| hasPermission := hasPermission s; canAskAgain := canAskAgain s;
     scanned := scanned s; showResult := showResult s; lastScan := l;
     torch := torch s |}.
Definition setTorch (b : bool) (s : State) : State :=
  {| hasPermission := hasPermission s; canAskAgain := canAskAgain s;
     scanned := scanned s; showResult := showResult s; lastScan := lastScan s;
     torch := b |}.
Definition setPermission (granted canAsk : bool) (s : State) : State :=
  {| hasPermission := Some granted; canAskAgain := canAsk;
     scanned := scanned s; showResult := showResult s; lastScan := lastScan s;
     torch := torch s |}.

(** [handleBarCodeScanned(result)] as a render hands it to the camera. The
    callback reads the [scanned] of that render, [render], and its [addScan]
    has captured the state [history] of the provider; the setters act on the
    state [s] that the screen has when the event comes. [h] is what the host
    answers during the call, which is run to its end: nothing else happens
    while it waits for the write. The result is the new state, and how the
    promise of the handler settles. *)
Definition handleBarCodeScanned (h : Host) (render : State) (history : JSValue)
    (result_data : jsstring) (s : State) (d : Device) (w : World)
  : State * Device * World * Settled unit :=
  if scanned render then (s, d, w, Fulfilled tt)
  else
    let s1 := setScanned true s in
    let d1 := haptic NotificationSuccess d in
    match run h w (addScan history result_data) with
    | (w', Fulfilled scanItem) =>
        (setShowResult true
           (setLastScan (Some (data scanItem, type scanItem)) s1), d1, w',
         Fulfilled tt)
    | (w', Rejected e) => (s1, d1, w', Rejected e)
    end.

Definition handleDismiss (s : State) : State :=
  setLastScan None (setScanned false (setShowResult false s)).

Definition handleOpen (host : Linking) (s : State)
  : list LinkingCall * Settled unit :=
  match lastScan s with
  | None => ([], Fulfilled tt)
  | Some (data, type) => open_scan host data type
  end.

(** The states that the screen can be in when every state of the provider
    that a scan has captured satisfies [P]: the initial one, and those that
    the handlers and the setters wired to the camera permission and to the
    torch button lead to, whichever render the callback comes from. *)
Inductive reachable (P : JSValue -> Prop) : State -> Prop :=
| reach_initial : reachable P initial
| reach_permission granted canAsk s :
    reachable P s -> reachable P (setPermission granted canAsk s)
| reach_torch render s :
    reachable P s -> reachable P (setTorch (negb (torch render)) s)
| reach_scan h render history result_data s d w :
    P history ->
    reachable P s ->
    reachable P (handleBarCodeScanned h render history result_data s d w).1.1.1
| reach_dismiss s : reachable P s -> reachable P (handleDismiss s).

End ScannerScreen.

(** *** Notions used to state the properties of the screens *)

(** [t] begins with [http://] or [https://], in any letter case. *)
Definition has_web_scheme (t : jsstring) : Prop :=
  starts_with_ci (lit "http://") t \/ starts_with_ci (lit "https://") t.

(** [target] is [data] under [scheme]: [scheme] and then [data], without the
    scheme that [data] begins with, if it begins with one. *)
Definition under_scheme (scheme data target : jsstring) : Prop :=
  exists rest,
    target = scheme ++ rest /\
    ((~ starts_with_ci scheme data /\ rest = data) \/
     (exists p, data = p ++ rest /\
                Canonicalize <$> p = Canonicalize <$> scheme)).

(** What a scan of a type may be opened as. *)
Definition link_target (data : jsstring) (type : ScanType) (target : jsstring)
  : Prop :=
  match type with
  | url =>
      has_web_scheme target /\
      ((has_web_scheme data /\ target = data) \/
       (~ has_web_scheme data /\ target = lit "https://" ++ data))
  | email => under_scheme (lit "mailto:") data target
  | phone => under_scheme (lit "tel:") data target
  | wifi | text | unknown => False
  end.

(** ** The scenarios of the specification, run *)

Example detect_url : detectScanType (lit "https://example.com") = url.
Proof. reflexivity. Qed.
Example detect_wifi : detectScanType (lit "WIFI:T:WPA;S:MyNet;P:pass;;") = wifi.
Proof. reflexivity. Qed.
Example detect_email : detectScanType (lit "john@x.co") = email.
Proof. reflexivity. Qed.
Example detect_phone : detectScanType (lit "+1 555-123-4567") = phone.
Proof. reflexivity. Qed.
Example detect_text : detectScanType (lit "hello world") = text.
Proof. reflexivity. Qed.
Example detect_unknown : detectScanType (lit "") = unknown.
Proof. reflexivity. Qed.
Example detect_trailing : detectScanType (lit "john@x.co extra") = text.
Proof. reflexivity. Qed.
Example detect_phone_at : detectScanType (lit "1234567@b.c") = email.
Proof. reflexivity. Qed.

Example detect_any_case : detectScanType (lit "  HtTpS://Example.com ") = url.
Proof. reflexivity. Qed.
Example detect_www_first : detectScanType (lit "www.a@b.c") = url.
Proof. reflexivity. Qed.
Example detect_phone_tab :
  detectScanType (lit "555" ++ [0x09] ++ lit "1234") = phone.
Proof. reflexivity. Qed.
Example detect_ideographic_space : detectScanType [0x3000; 0x3000] = unknown.
Proof. reflexivity. Qed.

Example parse_values :
  JSON_parse (lit " [1, -2.50e3, true, null, {}, []] ")
  = Some (JArray [JNumber {| negative := false; mantissa := 1; exponent := 0 |};
                  JNumber {| negative := true; mantissa := 250; exponent := 1 |};
                  JBool true; JNull; JObject ∅; JArray []]).
Proof. reflexivity. Qed.
Example parse_trailing_comma : JSON_parse (lit "[1,]") = None.
Proof. reflexivity. Qed.
Example parse_leading_zero : JSON_parse (lit "01") = None.
Proof. reflexivity. Qed.
Example parse_control_in_string : JSON_parse [0x22; 0x0A; 0x22] = None.
Proof. reflexivity. Qed.
Example stringify_escapes :
  JSON_stringify [{| id := lit "a"; data := [0x0A; 0xDC00]; type := text;
                     timestamp := -5 |}]
  = [0x5B; 0x7B] ++ QuoteJSONString (lit "id") ++ [0x3A]
    ++ QuoteJSONString (lit "a") ++ [0x2C]
    ++ QuoteJSONString (lit "data") ++ [0x3A; 0x22] ++ lit "\n\udc00"
    ++ [0x22; 0x2C]
    ++ QuoteJSONString (lit "type") ++ [0x3A] ++ QuoteJSONString (lit "text")
    ++ [0x2C]
    ++ QuoteJSONString (lit "timestamp") ++ [0x3A] ++ lit "-5" ++ [0x7D; 0x5D].
Proof. reflexivity. Qed.
(** ** Correctness of the matcher *)

Section Matcher.

Implicit Types (r : regex) (s : jsstring) (c : N).

Lemma matches_never_iff s : matches Never s <-> False.
Proof. split; [inversion 1 | tauto]. Qed.

Lemma matches_eps_iff s : matches Eps s <-> s = [].
Proof. split; [by inversion 1 | intros ->; constructor]. Qed.

Lemma matches_class_iff p s :
  matches (CharClass p) s <-> exists c, s = [c] /\ p c = true.
Proof.
  split.
  - inversion 1; subst; eauto.
  - intros (c & -> & Hc). by constructor.
Qed.

Lemma matches_seq_iff r1 r2 s :
  matches (Seq r1 r2) s <->
  exists s1 s2, s = s1 ++ s2 /\ matches r1 s1 /\ matches r2 s2.
Proof.
  split.
  - inversion 1; subst; eauto.
  - intros (s1 & s2 & -> & H1 & H2). by constructor.
Qed.

Lemma matches_alt_iff r1 r2 s :
  matches (Alt r1 r2) s <-> matches r1 s \/ matches r2 s.
Proof.
  split.
  - inversion 1; subst; auto.
  - intros [H | H]; [by apply matches_alt_l | by apply matches_alt_r].
Qed.

Lemma nullable_spec r : nullable r = true <-> matches r [].
Proof.
  induction r as [| |p|r1 IH1 r2 IH2|r1 IH1 r2 IH2|r IH]; simpl.
  - rewrite matches_never_iff. split; [discriminate | tauto].
  - rewrite matches_eps_iff. tauto.
  - rewrite matches_class_iff. split; [discriminate |].
    by intros (c & Hc & _).
  - rewrite andb_true_iff, IH1, IH2, matches_seq_iff. split.
    + intros [H1 H2]. by exists [], [].
    + intros (s1 & s2 & Hs & H1 & H2).
      symmetry in Hs. apply app_eq_nil in Hs as [-> ->]. tauto.
  - rewrite orb_true_iff, IH1, IH2, matches_alt_iff. tauto.
  - split; [constructor | tauto].
Qed.

(** A non-empty match of [r*] starts with a non-empty match of [r]. *)
Lemma matches_star_cons r c s :
  matches (Star r) (c :: s) ->
  exists s1 s2, s = s1 ++ s2 /\ matches r (c :: s1) /\ matches (Star r) s2.
Proof.
  intros H. remember (Star r) as r' eqn:Hr. remember (c :: s) as s' eqn:Hs.
  revert s Hs.
  induction H as [| | | | | |r0 s1 s2 H1 _ H2 IH2]; try discriminate.
  intros s Hs. injection Hr as ->.
  destruct s1 as [|c1 s1]; simpl in Hs.
  - by apply IH2.
  - injection Hs as ? ?; subst. eauto.
Qed.

Lemma deriv_spec c r s : matches (deriv c r) s <-> matches r (c :: s).
Proof.
  revert s.
  induction r as [| |p|r1 IH1 r2 IH2|r1 IH1 r2 IH2|r IH]; intros s; simpl.
  - by rewrite !matches_never_iff.
  - rewrite matches_never_iff, matches_eps_iff. split; [tauto | discriminate].
  - rewrite matches_class_iff. destruct (p c) eqn:Hp.
    + rewrite matches_eps_iff. split.
      * intros ->. eauto.
      * by intros (c' & [= -> ->] & _).
    + rewrite matches_never_iff. split; [tauto |].
      intros (c' & [= -> ->] & Hc). congruence.
  - assert (Hseq : matches (Seq (deriv c r1) r2) s <->
              exists s1 s2, s = s1 ++ s2 /\ matches r1 (c :: s1) /\ matches r2 s2).
    { rewrite matches_seq_iff. by setoid_rewrite IH1. }
    rewrite (matches_seq_iff r1 r2).
    destruct (nullable r1) eqn:Hn.
    + rewrite matches_alt_iff, Hseq, IH2. apply nullable_spec in Hn. split.
      * intros [(s1 & s2 & -> & H1 & H2) | H2].
        -- by exists (c :: s1), s2.
        -- by exists [], (c :: s).
      * intros (s1 & s2 & Hs & H1 & H2). destruct s1 as [|c1 s1]; simpl in Hs.
        -- subst s2. by right.
        -- injection Hs as ? ?; subst. left. eauto.
    + rewrite Hseq. split.
      * intros (s1 & s2 & -> & H1 & H2). by exists (c :: s1), s2.
      * intros (s1 & s2 & Hs & H1 & H2). destruct s1 as [|c1 s1]; simpl in Hs.
        -- apply nullable_spec in H1. congruence.
        -- injection Hs as ? ?; subst. eauto.
  - by rewrite !matches_alt_iff, IH1, IH2.
  - rewrite matches_seq_iff. setoid_rewrite IH. split.
    + intros (s1 & s2 & -> & H1 & H2).
      by apply (matches_star_app r (c :: s1) s2).
    + apply matches_star_cons.
Qed.

Lemma full_match_spec r s : full_match r s = true <-> matches r s.
Proof.
  revert r. induction s as [|c s IH]; intros r; simpl.
  - apply nullable_spec.
  - by rewrite IH, deriv_spec.
Qed.

Lemma prefix_match_spec r s :
  prefix_match r s = true <-> exists p rest, s = p ++ rest /\ matches r p.
Proof.
  revert r. induction s as [|c s IH]; intros r; simpl.
  - rewrite orb_false_r, nullable_spec. split.
    + intros H. by exists [], [].
    + intros (p & rest & Hs & H).
      symmetry in Hs. by apply app_eq_nil in Hs as [-> _].
  - rewrite orb_true_iff, nullable_spec, IH. split.
    + intros [H | (p & rest & -> & H)].
      * by exists [], (c :: s).
      * exists (c :: p), rest. by rewrite <- deriv_spec.
    + intros (p & rest & Hs & H). destruct p as [|c1 p]; simpl in Hs.
      * by left.
      * injection Hs as ? ?; subst. right. exists p, rest. by rewrite deriv_spec.
Qed.

End Matcher.

(** What the derived forms match. *)

Section Shapes.

Implicit Types (r : regex) (s w : jsstring) (p : N -> bool).

Lemma matches_chr a s : matches (Chr a) s <-> s = [a].
Proof.
  unfold Chr. rewrite matches_class_iff. split.
  - intros (c & -> & Hc). apply N.eqb_eq in Hc. by subst.
  - intros ->. exists a. by rewrite N.eqb_refl.
Qed.

Lemma matches_opt r s : matches (Opt r) s <-> matches r s \/ s = [].
Proof. unfold Opt. by rewrite matches_alt_iff, matches_eps_iff. Qed.

Lemma matches_star_class p s :
  matches (Star (CharClass p)) s <-> Forall (fun c => p c = true) s.
Proof.
  split.
  - intros H. remember (Star (CharClass p)) as r eqn:Hr.
    induction H as [| | | | | |r0 s1 s2 H1 _ H2 IH2]; try discriminate.
    + constructor.
    + injection Hr as ->. apply matches_class_iff in H1 as (c & -> & Hc).
      constructor; auto.
  - induction 1 as [|c s Hc _ IH].
    + constructor.
    + apply (matches_star_app _ [c] s); [by constructor | done].
Qed.

Lemma matches_plus_class p s :
  matches (Plus (CharClass p)) s <-> s <> [] /\ Forall (fun c => p c = true) s.
Proof.
  unfold Plus. rewrite matches_seq_iff.
  setoid_rewrite matches_class_iff. setoid_rewrite matches_star_class. split.
  - intros (s1 & s2 & -> & (c & -> & Hc) & Hs2). split; [done |].
    by constructor.
  - intros [Hne Hs]. destruct Hs as [|c s Hc Hs]; [done |].
    exists [c], s. eauto.
Qed.

Lemma matches_atleast_class n p s :
  matches (AtLeast n (CharClass p)) s <->
  (n <= length s)%nat /\ Forall (fun c => p c = true) s.
Proof.
  revert s. induction n as [|n IH]; intros s; simpl.
  - rewrite matches_star_class. split; [split; [lia | done] | tauto].
  - rewrite matches_seq_iff.
    setoid_rewrite matches_class_iff. setoid_rewrite IH. split.
    + intros (s1 & s2 & -> & (c & -> & Hc) & Hn & Hs2). simpl. split; [lia |].
      by constructor.
    + intros [Hn Hs]. destruct Hs as [|c s Hc Hs]; simpl in Hn; [lia |].
      exists [c], s. repeat split; eauto. lia.
Qed.

Lemma matches_word_chri w s :
  matches (Word ChrI w) s <-> Canonicalize <$> s = Canonicalize <$> w.
Proof.
  revert s. induction w as [|a w IH]; intros s; cbn [Word].
  - rewrite matches_eps_iff. split; [by intros -> |].
    by intros ->%fmap_nil_inv.
  - rewrite matches_seq_iff. unfold ChrI at 1.
    setoid_rewrite matches_class_iff. setoid_rewrite IH. split.
    + intros (s1 & s2 & -> & (c & -> & Hc) & Hs2). apply N.eqb_eq in Hc.
      rewrite fmap_app, Hs2. csimpl. by rewrite Hc.
    + destruct s as [|c s]; [discriminate |]. csimpl. intros [= Hc Hs].
      exists [c], s. repeat split; [| done]. exists c.
      by rewrite Hc, N.eqb_refl.
Qed.

End Shapes.

Section Rules.

Implicit Types (t : jsstring).

Lemma notSpaceNorAt_plain c : notSpaceNorAt c = true <-> plain c.
Proof.
  unfold notSpaceNorAt, plain.
  rewrite negb_true_iff, orb_false_iff, N.eqb_neq. tauto.
Qed.

Lemma isPhoneChar_phone_char c : isPhoneChar c = true <-> phone_char c.
Proof.
  unfold isPhoneChar, phone_char. rewrite !orb_true_iff, !N.eqb_eq. tauto.
Qed.

Lemma Forall_notSpaceNorAt s :
  Forall (fun c => notSpaceNorAt c = true) s <-> Forall plain s.
Proof. apply Forall_iff. intros c. apply notSpaceNorAt_plain. Qed.

Lemma Forall_isPhoneChar s :
  Forall (fun c => isPhoneChar c = true) s <-> Forall phone_char s.
Proof. apply Forall_iff. intros c. apply isPhoneChar_phone_char. Qed.

Lemma test_word w t :
  test {| body := Word ChrI w; to_end := false |} t = true <->
  starts_with_ci w t.
Proof.
  unfold test, starts_with_ci; cbn [body to_end]. rewrite prefix_match_spec.
  by setoid_rewrite matches_word_chri.
Qed.

Lemma test_re_http t :
  test re_http t = true <->
  starts_with_ci (lit "http://") t \/ starts_with_ci (lit "https://") t.
Proof.
  unfold test, re_http, starts_with_ci; cbn [body to_end].
  rewrite prefix_match_spec. split.
  - intros (h & rest & -> & Hm).
    apply matches_seq_iff in Hm as (h1 & h' & -> & H1 & Hm).
    apply matches_seq_iff in Hm as (h2 & h3 & -> & H2 & H3).
    apply matches_word_chri in H1, H3. apply matches_opt in H2 as [H2 | ->].
    + right. exists (h1 ++ h2 ++ h3), rest. split; [done |].
      apply matches_class_iff in H2 as (c & -> & Hc). apply N.eqb_eq in Hc.
      rewrite !fmap_app, H1, H3. simpl. by rewrite Hc.
    + left. exists (h1 ++ [] ++ h3), rest. split; [done |].
      by rewrite !fmap_app, H1, H3.
  - intros [(h & rest & -> & Hh) | (h & rest & -> & Hh)]; exists h, rest;
      (split; [done |]).
    + change (lit "http://") with (lit "http" ++ lit "://") in Hh.
      rewrite fmap_app in Hh.
      apply fmap_app_inv in Hh as (h1 & h3 & H1 & H3 & ->).
      symmetry in H1, H3.
      apply matches_seq_iff. exists h1, h3. split; [done |].
      split; [by apply matches_word_chri |].
      apply matches_seq_iff. exists [], h3. split; [done |].
      split; [apply matches_opt; by right | by apply matches_word_chri].
    + change (lit "https://") with (lit "http" ++ [0x73] ++ lit "://") in Hh.
      rewrite !fmap_app in Hh.
      apply fmap_app_inv in Hh as (h1 & h' & H1 & Hh & ->).
      symmetry in H1, Hh.
      apply fmap_app_inv in Hh as (h2 & h3 & H2 & H3 & ->).
      symmetry in H3.
      apply matches_seq_iff. exists h1, (h2 ++ h3). split; [done |].
      split; [by apply matches_word_chri |].
      apply matches_seq_iff. exists h2, h3. split; [done |].
      split; [| by apply matches_word_chri].
      apply matches_opt. left.
      destruct h2 as [|c [|? ?]]; try discriminate.
      injection H2 as H2. apply matches_class_iff. exists c.
      by rewrite <- H2, N.eqb_refl.
Qed.

Lemma test_re_email t : test re_email t = true <-> email_shape t.
Proof.
  unfold test, re_email, email_shape; cbn [body to_end].
  rewrite full_match_spec. split.
  - intros Hm.
    apply matches_seq_iff in Hm as (l & t1 & -> & Hl & Hm).
    apply matches_seq_iff in Hm as (a & t2 & -> & ->%matches_chr & Hm).
    apply matches_seq_iff in Hm as (d & t3 & -> & Hd & Hm).
    apply matches_seq_iff in Hm as (dot & tld & -> & ->%matches_chr & Htld).
    apply matches_plus_class in Hl as [? ?%Forall_notSpaceNorAt].
    apply matches_plus_class in Hd as [? ?%Forall_notSpaceNorAt].
    apply matches_plus_class in Htld as [? ?%Forall_notSpaceNorAt].
    by exists l, d, tld.
  - intros (l & d & tld & -> & ? & ? & ? & Hl & Hd & Htld).
    apply matches_seq_iff. exists l, (0x40 :: d ++ 0x2E :: tld).
    split; [done |]. split.
    { apply matches_plus_class. by rewrite Forall_notSpaceNorAt. }
    apply matches_seq_iff. exists [0x40], (d ++ 0x2E :: tld).
    split; [done |]. split; [by apply matches_chr |].
    apply matches_seq_iff. exists d, (0x2E :: tld).
    split; [done |]. split.
    { apply matches_plus_class. by rewrite Forall_notSpaceNorAt. }
    apply matches_seq_iff. exists [0x2E], tld.
    split; [done |]. split; [by apply matches_chr |].
    apply matches_plus_class. by rewrite Forall_notSpaceNorAt.
Qed.

Lemma test_re_phone t : test re_phone t = true <-> phone_shape t.
Proof.
  unfold test, re_phone, phone_shape; cbn [body to_end].
  rewrite full_match_spec. split.
  - intros Hm.
    apply matches_seq_iff in Hm as (sign & t1 & -> & Hsign & Hm).
    apply matches_seq_iff in Hm as (d & tail & -> & Hd & Htail).
    apply matches_class_iff in Hd as (c & -> & Hc).
    apply matches_atleast_class in Htail as [? ?%Forall_isPhoneChar].
    exists sign, c, tail. repeat split; try done.
    apply matches_opt in Hsign as [->%matches_chr | ->]; auto.
  - intros (sign & d & tail & -> & Hsign & Hd & Hlen & Htail).
    apply matches_seq_iff. exists sign, (d :: tail). split; [done |]. split.
    { apply matches_opt. destruct Hsign as [-> | ->]; [by right | left].
      by apply matches_chr. }
    apply matches_seq_iff. exists [d], tail. split; [done |]. split.
    { apply matches_class_iff. eauto. }
    apply matches_atleast_class. by rewrite Forall_isPhoneChar.
Qed.

Lemma test_url_rule t :
  test re_http t || test re_www t = true <-> url_rule t.
Proof.
  unfold url_rule. rewrite orb_true_iff, test_re_http.
  unfold re_www. rewrite test_word. tauto.
Qed.

Lemma test_email_rule t :
  test re_mailto t || test re_email t = true <-> email_rule t.
Proof.
  unfold email_rule. rewrite orb_true_iff, test_re_email.
  unfold re_mailto. by rewrite test_word.
Qed.

Lemma test_phone_rule t :
  test re_tel t || test re_phone t = true <-> phone_rule t.
Proof.
  unfold phone_rule. rewrite orb_true_iff, test_re_phone.
  unfold re_tel. by rewrite test_word.
Qed.

Lemma test_wifi_rule t : test re_wifi t = true <-> wifi_rule t.
Proof. unfold wifi_rule, re_wifi. by rewrite test_word. Qed.

Lemma test_text_rule t : (0 <? length t)%nat = true <-> text_rule t.
Proof.
  unfold text_rule. rewrite Nat.ltb_lt. destruct t; simpl; [|split; [done|lia]].
  split; [lia | done].
Qed.

End Rules.

(** ** Trimming *)

Section Trim.

Implicit Types (s t : jsstring).

Local Abbreviation is_ws := (fun c : N => isWhiteSpace c = true).
Local Abbreviation not_ws := (fun c : N => negb (isWhiteSpace c)).

Lemma trimStart_spec s : exists lead, s = lead ++ trimStart s /\ Forall is_ws lead.
Proof.
  induction s as [|c s (lead & IH & Hlead)]; simpl.
  - by exists [].
  - destruct (isWhiteSpace c) eqn:Hc.
    + exists (c :: lead). split; [by rewrite IH at 1 | by constructor].
    + by exists [].
Qed.

Lemma trimStart_head s : from_option not_ws true (head (trimStart s)) = true.
Proof.
  induction s as [|c s IH]; simpl; [done |].
  destruct (isWhiteSpace c) eqn:Hc; [done |]. simpl. by rewrite Hc.
Qed.

Lemma trimStart_fix s :
  from_option not_ws true (head s) = true -> trimStart s = s.
Proof. destruct s as [|c s]; simpl; [done |]. by intros ->%negb_true_iff. Qed.

Lemma trimStart_idem s : trimStart (trimStart s) = trimStart s.
Proof. apply trimStart_fix, trimStart_head. Qed.

Lemma trimStart_app s t :
  from_option not_ws true (head t) = true ->
  trimStart (s ++ t) = trimStart s ++ t.
Proof.
  intros Ht. induction s as [|c s IH]; simpl.
  - by apply trimStart_fix.
  - by destruct (isWhiteSpace c).
Qed.

Lemma trimStart_all_ws s : Forall is_ws s -> trimStart s = [].
Proof. induction 1 as [|c s Hc _ IH]; simpl; [done |]. by rewrite Hc. Qed.

Lemma trimEnd_spec s : exists trail, s = trimEnd s ++ trail /\ Forall is_ws trail.
Proof.
  unfold trimEnd. destruct (trimStart_spec (reverse s)) as (lead & Hs & Hlead).
  exists (reverse lead). split.
  - by rewrite <- reverse_app, <- Hs, reverse_involutive.
  - by apply Forall_reverse.
Qed.

Lemma trimEnd_last s : from_option not_ws true (last (trimEnd s)) = true.
Proof. unfold trimEnd. rewrite last_reverse. apply trimStart_head. Qed.

Lemma trimEnd_idem s : trimEnd (trimEnd s) = trimEnd s.
Proof. unfold trimEnd. by rewrite reverse_involutive, trimStart_idem. Qed.

(** Stripping the end of a text that starts with no white space keeps its
    first code unit. *)
Lemma trimEnd_head s :
  from_option not_ws true (head s) = true ->
  from_option not_ws true (head (trimEnd s)) = true.
Proof.
  destruct s as [|c s]; [done |]. simpl. intros Hc. unfold trimEnd.
  rewrite reverse_cons, trimStart_app by done.
  by rewrite reverse_app.
Qed.

Lemma trim_trimmed_of s : trimmed_of s (trim s).
Proof.
  unfold trim. destruct (trimStart_spec s) as (lead & Hs & Hlead).
  destruct (trimEnd_spec (trimStart s)) as (trail & Ht & Htrail).
  exists lead, trail. repeat split; try done.
  - by rewrite <- Ht.
  - apply trimEnd_head, trimStart_head.
  - apply trimEnd_last.
Qed.

Lemma trim_idem s : trim (trim s) = trim s.
Proof.
  unfold trim. rewrite (trimStart_fix (trimEnd _)).
  - apply trimEnd_idem.
  - apply trimEnd_head, trimStart_head.
Qed.

Lemma trim_all_ws s : Forall is_ws s -> trim s = [].
Proof. intros H. unfold trim. by rewrite trimStart_all_ws. Qed.

(** The trimmed text is the only one that [trimmed_of] allows. *)
Lemma trimmed_of_unique s t : trimmed_of s t -> t = trim s.
Proof.
  intros (lead & trail & -> & Hlead & Htrail & Hhd & Hlt).
  destruct t as [|c t].
  - symmetry. apply trim_all_ws. by apply Forall_app.
  - unfold trim. rewrite trimStart_app by done.
    rewrite trimStart_all_ws by done. unfold trimEnd. rewrite app_nil_l.
    rewrite reverse_app, trimStart_app.
    + rewrite trimStart_all_ws by by apply Forall_reverse.
      simpl. by rewrite reverse_involutive.
    + by rewrite head_reverse.
Qed.

End Trim.

(** ** The classifier follows the rules *)

Section Classifier.

Implicit Types (t data : jsstring) (tag : ScanType).

Lemma detectScanType_classifies data :
  classifies (trim data) (detectScanType data).
Proof.
  unfold detectScanType. cbv zeta. set (t := trim data).
  destruct (test re_http t || test re_www t) eqn:E1.
  { by apply classifies_url, test_url_rule. }
  assert (~ url_rule t) by (rewrite <- test_url_rule; congruence).
  destruct (test re_mailto t || test re_email t) eqn:E2.
  { apply classifies_email; [done | by apply test_email_rule]. }
  assert (~ email_rule t) by (rewrite <- test_email_rule; congruence).
  destruct (test re_tel t || test re_phone t) eqn:E3.
  { apply classifies_phone; [done.. | by apply test_phone_rule]. }
  assert (~ phone_rule t) by (rewrite <- test_phone_rule; congruence).
  destruct (test re_wifi t) eqn:E4.
  { apply classifies_wifi; [done.. | by apply test_wifi_rule]. }
  assert (~ wifi_rule t) by (rewrite <- test_wifi_rule; congruence).
  destruct (0 <? length t)%nat eqn:E5.
  { apply classifies_text; [done.. | by apply test_text_rule]. }
  apply classifies_unknown; try done.
  rewrite <- test_text_rule. congruence.
Qed.

Lemma classifies_functional t tag1 tag2 :
  classifies t tag1 -> classifies t tag2 -> tag1 = tag2.
Proof. destruct 1; destruct 1; done. Qed.

Lemma detectScanType_iff data tag :
  detectScanType data = tag <-> classifies (trim data) tag.
Proof.
  split.
  - intros <-. apply detectScanType_classifies.
  - apply classifies_functional, detectScanType_classifies.
Qed.

Lemma detectScanType_all_ws data :
  Forall (fun c => isWhiteSpace c = true) data -> detectScanType data = unknown.
Proof. intros H. unfold detectScanType. by rewrite trim_all_ws. Qed.

Lemma detectScanType_trim data : detectScanType (trim data) = detectScanType data.
Proof. unfold detectScanType. by rewrite trim_idem. Qed.

(** C1. The classifier is a total function on strings. It reads the text
    without its leading and trailing white space, and the tag it returns is the
    one that the six rules give when taken in order, the first rule that holds
    deciding: (1) the text starts with http:// or https:// or with www., in any
    case: url; (2) it starts with mailto: in any case, or has the shape
    local@domain.tld with a single at sign and no white space: email; (3) it
    starts with tel: in any case, or is an optional plus sign, a digit and six
    or more digits, white space, hyphens or parentheses: phone; (4) it starts
    with WIFI: in any case: wifi; (5) it is not empty: text; (6) otherwise
    unknown. So each string has exactly one tag, and the empty string and the
    strings of white space only are unknown. *)
Theorem detectScanType_first_match_wins :
  (forall data, trimmed_of data (trim data)) /\
  (forall data tag, detectScanType data = tag <-> classifies (trim data) tag) /\
  (forall t tag1 tag2, classifies t tag1 -> classifies t tag2 -> tag1 = tag2) /\
  detectScanType [] = unknown /\
  (forall data,
     Forall (fun c => isWhiteSpace c = true) data ->
     detectScanType data = unknown).
Proof.
  split; [apply trim_trimmed_of |].
  split; [apply detectScanType_iff |].
  split; [apply classifies_functional |].
  split; [done | apply detectScanType_all_ws].
Qed.

Lemma detectScanType_first_match_wins_witness :
  (Forall (fun c => isWhiteSpace c = true) [0x20; 0x09; 0x3000; 0x0A] /\
   detectScanType [0x20; 0x09; 0x3000; 0x0A] = unknown) /\
  (classifies (lit "www.a@b.c") url /\
   classifies (lit "www.a@b.c") (detectScanType (lit " www.a@b.c ")) /\
   url = detectScanType (lit " www.a@b.c ")).
Proof.
  destruct detectScanType_first_match_wins as (_ & Hiff & Hfun & _ & Hws).
  split.
  - assert (H : Forall (fun c => isWhiteSpace c = true) [0x20; 0x09; 0x3000; 0x0A])
      by (repeat constructor).
    split; [exact H | exact (Hws _ H)].
  - assert (H1 : classifies (lit "www.a@b.c") url).
    { apply classifies_url. right. right. exists (lit "www."), (lit "a@b.c").
      split; reflexivity. }
    assert (H2 : classifies (lit "www.a@b.c") (detectScanType (lit " www.a@b.c ")))
      by (apply (proj1 (Hiff (lit " www.a@b.c ") _)); reflexivity).
    split; [exact H1 |]. split; [exact H2 |]. exact (Hfun _ _ _ H1 H2).
Defined.

End Classifier.

(** ** The shape checks span the whole trimmed text *)

Section Anchoring.

Implicit Types (t s data : jsstring).

Lemma count_at_app s t : count_at (s ++ t) = (count_at s + count_at t)%nat.
Proof. unfold count_at. by rewrite filter_app, length_app. Qed.

Lemma count_at_cons_at t : count_at (0x40 :: t) = S (count_at t).
Proof. unfold count_at. by rewrite filter_cons_True. Qed.

Lemma count_at_cons_other c t : c <> 0x40 -> count_at (c :: t) = count_at t.
Proof. intros Hc. unfold count_at. by rewrite filter_cons_False. Qed.

Lemma count_at_plain s : Forall plain s -> count_at s = 0%nat.
Proof.
  induction 1 as [|c s [_ Hc] _ IH]; [done |].
  by rewrite count_at_cons_other.
Qed.

Lemma plain_not_ws s : Forall plain s -> Forall (fun c => isWhiteSpace c = false) s.
Proof. intros H. apply (Forall_impl _ _ _ H). by intros c [? _]. Qed.

(** A text of the email shape has one at sign and no white space. *)
Lemma email_shape_inv t :
  email_shape t ->
  count_at t = 1%nat /\ Forall (fun c => isWhiteSpace c = false) t.
Proof.
  intros (l & d & tld & -> & _ & _ & _ & Hl & Hd & Htld). split.
  - rewrite count_at_app, count_at_cons_at, count_at_app.
    rewrite count_at_cons_other by done.
    by rewrite !count_at_plain.
  - apply Forall_app. split; [by apply plain_not_ws |].
    constructor; [done |]. apply Forall_app. split; [by apply plain_not_ws |].
    constructor; [done | by apply plain_not_ws].
Qed.

(** A text of the phone shape has no at sign and starts with a plus sign or
    a digit. *)
Lemma phone_shape_inv t :
  phone_shape t ->
  count_at t = 0%nat /\
  exists c rest, t = c :: rest /\ (c = 0x2B \/ isDigit c = true).
Proof.
  intros (sign & d & tail & -> & Hsign & Hd & _ & Htail).
  assert (Hd' : d <> 0x40) by (intros ->; discriminate).
  assert (Ht : count_at tail = 0%nat).
  { clear -Htail. induction Htail as [|c s Hc _ IH]; [done |].
    rewrite count_at_cons_other; [done |]. intros ->.
    destruct Hc as [Hc | [Hc | [Hc | [Hc | Hc]]]]; discriminate. }
  destruct Hsign as [-> | ->]; simpl.
  - split; [by rewrite count_at_cons_other | eauto].
  - split; [| eauto].
    rewrite count_at_cons_other by done. by rewrite count_at_cons_other.
Qed.

Lemma Canonicalize_letter a : 0x41 <= a -> 0x41 <= Canonicalize a.
Proof.
  intros Ha. unfold Canonicalize.
  destruct (_ && _) eqn:E; [| done].
  apply andb_true_iff in E as [E _]. apply N.leb_le in E. lia.
Qed.

Lemma Canonicalize_below c : c < 0x41 -> Canonicalize c = c.
Proof.
  intros Hc. unfold Canonicalize.
  destruct (_ && _) eqn:E; [| done].
  apply andb_true_iff in E as [E _]. apply N.leb_le in E. lia.
Qed.

(** No prefix rule holds for a text that starts with a plus sign or a
    digit. *)
Lemma starts_with_ci_letter a w c rest :
  0x41 <= a ->
  c = 0x2B \/ isDigit c = true ->
  ~ starts_with_ci (a :: w) (c :: rest).
Proof.
  intros Ha Hc (h & r & Ht & Hh). destruct h as [|c' h]; [discriminate |].
  injection Ht as <- _. injection Hh as Hh _.
  apply Canonicalize_letter in Ha. rewrite <- Hh in Ha.
  assert (Hlt : c < 0x41).
  { destruct Hc as [-> | [_ H2]%andb_true_iff]; [done |].
    apply N.leb_le in H2. lia. }
  rewrite Canonicalize_below in Ha by done. lia.
Qed.

Lemma extended_email_not_email e c rest :
  email_shape e -> ~ plain c -> ~ email_shape (e ++ c :: rest).
Proof.
  intros [He _]%email_shape_inv Hc [Hn Hws]%email_shape_inv. apply Hc.
  apply Forall_app in Hws as [_ Hws]. apply Forall_cons in Hws as [Hws _].
  split; [done |]. intros ->.
  rewrite count_at_app, count_at_cons_at in Hn. lia.
Qed.

Lemma extended_email_not_phone e c rest :
  email_shape e -> ~ phone_shape (e ++ c :: rest).
Proof.
  intros [He _]%email_shape_inv [Hn _]%phone_shape_inv.
  rewrite count_at_app in Hn. lia.
Qed.

Lemma extended_phone_not_phone p c rest :
  phone_shape p -> ~ phone_char c -> ~ phone_shape (p ++ c :: rest).
Proof.
  intros (sign & d & tail & -> & Hsign & Hd & Hlen & Htail) Hc.
  intros (sign' & d' & tail' & Ht & Hsign' & Hd' & _ & Htail').
  assert (Hplus : isDigit 0x2B = false) by done.
  assert (tail ++ c :: rest = tail') as <-.
  { destruct Hsign as [-> | ->], Hsign' as [-> | ->]; simpl in Ht;
      simplify_eq; congruence. }
  apply Forall_app in Htail' as [_ Htail'].
  by apply Forall_cons in Htail' as [? _].
Qed.

(** A text that starts with a plus sign or a digit passes no prefix rule. *)
Lemma no_prefix_rule c rest :
  c = 0x2B \/ isDigit c = true ->
  ~ url_rule (c :: rest) /\ ~ starts_with_ci (lit "mailto:") (c :: rest) /\
  ~ starts_with_ci (lit "tel:") (c :: rest) /\ ~ wifi_rule (c :: rest).
Proof.
  intros Hc. unfold url_rule, wifi_rule. repeat split.
  - intros [H | [H | H]].
    + by apply (starts_with_ci_letter 0x68 (lit "ttp://") c rest).
    + by apply (starts_with_ci_letter 0x68 (lit "ttps://") c rest).
    + by apply (starts_with_ci_letter 0x77 (lit "ww.") c rest).
  - by apply (starts_with_ci_letter 0x6D (lit "ailto:") c rest).
  - by apply (starts_with_ci_letter 0x74 (lit "el:") c rest).
  - by apply (starts_with_ci_letter 0x57 (lit "IFI:") c rest).
Qed.

(** C9, amended. The email-shape and phone-shape checks span the whole
    trimmed text. When the trimmed text is an email shape followed by a white
    space or an at sign and anything more, neither shape check holds of it: it
    is tagged email only if it starts with mailto:, phone only if it starts
    with tel:, and never unknown. When the trimmed text is a phone shape
    followed by a code unit that is no digit, white space, hyphen or
    parenthesis and anything more, the phone-shape check fails and the tag is
    email if the whole trimmed text has the email shape (rule 2 comes before
    rule 3) and text otherwise. *)
Theorem shape_checks_anchored data s c rest :
  trim data = s ++ c :: rest ->
  (email_shape s -> ~ plain c ->
     ~ email_shape (trim data) /\ ~ phone_shape (trim data) /\
     (detectScanType data = email -> starts_with_ci (lit "mailto:") (trim data)) /\
     (detectScanType data = phone -> starts_with_ci (lit "tel:") (trim data)) /\
     detectScanType data <> unknown) /\
  (phone_shape s -> ~ phone_char c ->
     ~ phone_shape (trim data) /\
     (email_shape (trim data) -> detectScanType data = email) /\
     (~ email_shape (trim data) -> detectScanType data = text)).
Proof.
  intros Ht. rewrite !detectScanType_iff, Ht. split.
  - intros Hs Hc.
    pose proof (extended_email_not_email s c rest Hs Hc) as Hne.
    pose proof (extended_email_not_phone s c rest Hs) as Hnp.
    repeat split; try done.
    + inversion 1 as [|? [|]| | | |]; done.
    + inversion 1 as [| |? ? [|]| | |]; done.
    + inversion 1 as [| | | | |? ? ? ? Htext]. apply Htext.
      by destruct s.
  - intros Hs Hc.
    pose proof (extended_phone_not_phone s c rest Hs Hc) as Hnp.
    apply phone_shape_inv in Hs as (_ & c0 & rest0 & -> & Hc0).
    destruct (no_prefix_rule c0 (rest0 ++ c :: rest) Hc0)
      as (Hurl & Hmailto & Htel & Hwifi).
    simpl in *. repeat split; try done.
    + intros He. apply classifies_email; [done | by right].
    + intros He. apply classifies_text; try done.
      * by intros [|].
      * by intros [|].
Qed.

Lemma shape_checks_anchored_witness :
  (let data := lit "  john@x.co extra " in
   let t := trim data in
   t = lit "john@x.co" ++ 0x20 :: lit "extra" /\
   email_shape (lit "john@x.co") /\ ~ plain 0x20 /\
   ~ email_shape t /\ ~ phone_shape t /\
   (detectScanType data = email -> starts_with_ci (lit "mailto:") t) /\
   (detectScanType data = phone -> starts_with_ci (lit "tel:") t) /\
   detectScanType data <> unknown) /\
  (let data := lit "+1 555-123-4567 ext. 9" in
   let t := trim data in
   t = lit "+1 555-123-4567 " ++ 0x65 :: lit "xt. 9" /\
   phone_shape (lit "+1 555-123-4567 ") /\ ~ phone_char 0x65 /\
   ~ phone_shape t /\
   (email_shape t -> detectScanType data = email) /\
   (~ email_shape t -> detectScanType data = text)).
Proof.
  split; cbv zeta.
  - assert (Ht : trim (lit "  john@x.co extra ") =
                 lit "john@x.co" ++ 0x20 :: lit "extra") by reflexivity.
    assert (Hs : email_shape (lit "john@x.co"))
      by (apply test_re_email; reflexivity).
    assert (Hc : ~ plain 0x20) by (intros [? _]; discriminate).
    split; [exact Ht |]. split; [exact Hs |]. split; [exact Hc |].
    exact (proj1 (shape_checks_anchored _ _ _ _ Ht) Hs Hc).
  - assert (Ht : trim (lit "+1 555-123-4567 ext. 9") =
                 lit "+1 555-123-4567 " ++ 0x65 :: lit "xt. 9") by reflexivity.
    assert (Hs : phone_shape (lit "+1 555-123-4567 "))
      by (apply test_re_phone; reflexivity).
    assert (Hc : ~ phone_char 0x65)
      by (intros [? | [? | [? | [? | ?]]]]; discriminate).
    split; [exact Ht |]. split; [exact Hs |]. split; [exact Hc |].
    exact (proj2 (shape_checks_anchored _ _ _ _ Ht) Hs Hc).
Defined.

(** C9 as stated fails on a phone shape followed by an at sign and a domain:
    the whole text then has the email shape, and rule 2 tags it email. *)
Lemma shape_checks_anchored_counterexample :
  let data := lit "1234567@b.c" in
  (exists p c rest,
     trim data = p ++ c :: rest /\ phone_shape p /\ ~ phone_char c) /\
  email_shape (trim data) /\
  detectScanType data = email.
Proof.
  cbv zeta. split; [| split].
  - exists (lit "1234567"), 0x40, (lit "b.c"). split; [reflexivity |]. split.
    + apply test_re_phone. reflexivity.
    + intros [? | [? | [? | [? | ?]]]]; discriminate.
  - apply test_re_email. reflexivity.
  - reflexivity.
Qed.

End Anchoring.

(** ** [JSON.parse] reads back what [JSON.stringify] writes *)

Section Numbers.

Implicit Types (n : N) (z : Z) (s ds rest : jsstring).

Lemma size_nat_bound n : n < 2 ^ N.of_nat (N.size_nat n).
Proof.
  destruct n as [|p]; [done |]. simpl N.size_nat.
  induction p as [p IH|p IH|]; simpl Pos.size_nat;
    rewrite ?Nat2N.inj_succ, ?N.pow_succ_r'; lia.
Qed.

Lemma digits_value_snoc ds d :
  digits_value (ds ++ [d]) = 10 * digits_value ds + (d - 0x30).
Proof. unfold digits_value. by rewrite foldl_app. Qed.

Lemma digits_fuel_spec fuel n :
  n < 2 ^ N.of_nat fuel ->
  let ds := digits_fuel fuel n in
  Forall (fun c => isDigit c = true) ds /\
  digits_value ds = n /\
  (n <> 0 -> exists d ds', ds = d :: ds' /\ d <> 0x30).
Proof.
  revert n. induction fuel as [|fuel IH]; intros n Hn; cbn zeta.
  - simpl in *. assert (n = 0) as -> by lia. done.
  - simpl digits_fuel. destruct (n <? 10) eqn:E.
    + apply N.ltb_lt in E. repeat split.
      * constructor; [| done]. unfold isDigit.
        apply andb_true_iff. split; apply N.leb_le; lia.
      * unfold digits_value. simpl. lia.
      * intros H0. exists (0x30 + n), []. split; [done | lia].
    + apply N.ltb_ge in E.
      rewrite Nat2N.inj_succ, N.pow_succ_r' in Hn.
      assert (Hq : n / 10 < 2 ^ N.of_nat fuel).
      { apply N.Div0.div_lt_upper_bound. lia. }
      destruct (IH _ Hq) as (Hall & Hval & Hhd).
      assert (Hq0 : n / 10 <> 0).
      { intros H0. apply N.div_small_iff in H0; lia. }
      pose proof (N.div_mod n 10 ltac:(done)) as Hdm.
      pose proof (N.mod_upper_bound n 10 ltac:(done)) as Hm.
      revert Hdm Hm. generalize (n mod 10). intros m Hdm Hm. repeat split.
      * apply Forall_app. split; [done |]. constructor; [| done].
        unfold isDigit. apply andb_true_iff. split; apply N.leb_le; lia.
      * rewrite digits_value_snoc, Hval. lia.
      * intros _. destruct (Hhd Hq0) as (d & ds' & -> & Hd).
        by exists d, (ds' ++ [0x30 + m]).
Qed.

Lemma decimal_digits_spec n :
  let ds := decimal_digits n in
  Forall (fun c => isDigit c = true) ds /\
  digits_value ds = n /\
  exists d ds', ds = d :: ds' /\ (d = 0x30 -> n = 0 /\ ds' = []).
Proof.
  cbn zeta. unfold decimal_digits.
  assert (Hn : n < 2 ^ N.of_nat (S (N.size_nat n))).
  { pose proof (size_nat_bound n).
    rewrite Nat2N.inj_succ, N.pow_succ_r'. lia. }
  destruct (digits_fuel_spec _ _ Hn) as (Hall & Hval & Hhd).
  repeat split; try done.
  destruct (decide (n = 0)) as [-> | H0].
  - by exists 0x30, [].
  - destruct (Hhd H0) as (d & ds' & -> & Hd). by exists d, ds'.
Qed.

Lemma span_digits_app ds c rest :
  Forall (fun c => isDigit c = true) ds -> isDigit c = false ->
  span_digits (ds ++ c :: rest) = (ds, c :: rest).
Proof.
  intros Hds Hc. induction Hds as [|d ds Hd _ IH]; simpl.
  - by rewrite Hc.
  - by rewrite Hd, IH.
Qed.

Lemma parse_unsigned_digits neg n c rest :
  ends_number c = true ->
  parse_unsigned neg (decimal_digits n ++ c :: rest)
  = Some ({| negative := neg; mantissa := n; exponent := 0 |}, c :: rest).
Proof.
  intros Hc. unfold ends_number in Hc.
  rewrite negb_true_iff, !orb_false_iff in Hc.
  destruct Hc as [[[Hc1 Hc2] Hc3] Hc4].
  destruct (decimal_digits_spec n) as (Hall & Hval & d & ds' & Hds & Hd).
  assert (Hint : parse_int (decimal_digits n ++ c :: rest)
                 = Some (decimal_digits n, c :: rest)).
  { rewrite Hds in *. simpl. destruct (d =? 0x30) eqn:E.
    - apply N.eqb_eq in E. by destruct (Hd E) as [_ ->].
    - apply Forall_cons in Hall as [Hd' Hall]. rewrite Hd'.
      by rewrite span_digits_app. }
  unfold parse_unsigned. rewrite Hint. simpl. rewrite Hc2. simpl.
  rewrite Hc3, Hc4. simpl. by rewrite app_nil_r, Hval.
Qed.

Lemma parse_number_toString z c rest :
  ends_number c = true ->
  parse_number (Number_toString z ++ c :: rest) = Some (num_of_Z z, c :: rest).
Proof.
  intros Hc. unfold parse_number, Number_toString, num_of_Z.
  destruct (z <? 0)%Z eqn:Ez.
  - cbn [app]. rewrite N.eqb_refl. by apply parse_unsigned_digits.
  - destruct (decimal_digits_spec (Z.abs_N z)) as (Hall & _ & d & ds' & Hds & _).
    rewrite app_nil_l.
    assert (Hd : (d =? 0x2D) = false).
    { rewrite Hds in Hall. apply Forall_cons in Hall as [Hd _].
      unfold isDigit in Hd. apply andb_true_iff in Hd as [Hd _].
      apply N.leb_le in Hd. apply N.eqb_neq. lia. }
    rewrite <- (parse_unsigned_digits false (Z.abs_N z) c rest Hc).
    rewrite Hds. cbn [app]. by rewrite Hd.
Qed.

End Numbers.

Section Strings.

Implicit Types (c d : N) (s tl rest : jsstring).

Lemma hex_value_digit d : d < 16 -> hex_value (hex_digit d) = Some d.
Proof.
  intros Hd.
  assert (H : d = 0 \/ d = 1 \/ d = 2 \/ d = 3 \/ d = 4 \/ d = 5 \/ d = 6 \/
              d = 7 \/ d = 8 \/ d = 9 \/ d = 10 \/ d = 11 \/ d = 12 \/
              d = 13 \/ d = 14 \/ d = 15) by lia.
  repeat (destruct H as [-> | H]; [reflexivity |]). by subst.
Qed.

Lemma hex4_digits c :
  c < 0x10000 ->
  (((c / 0x1000 mod 16) * 16 + c / 0x100 mod 16) * 16 + c / 0x10 mod 16) * 16
  + c mod 16 = c.
Proof.
  intros Hc.
  change 0x1000 with (16 * 16 * 16). change 0x100 with (16 * 16).
  rewrite <- !N.Div0.div_div.
  pose proof (N.div_mod c 16 ltac:(done)) as H0.
  pose proof (N.div_mod (c / 16) 16 ltac:(done)) as H1.
  pose proof (N.div_mod (c / 16 / 16) 16 ltac:(done)) as H2.
  pose proof (N.div_mod (c / 16 / 16 / 16) 16 ltac:(done)) as H3.
  pose proof (N.mod_upper_bound c 16 ltac:(done)) as B0.
  pose proof (N.mod_upper_bound (c / 16) 16 ltac:(done)) as B1.
  pose proof (N.mod_upper_bound (c / 16 / 16) 16 ltac:(done)) as B2.
  pose proof (N.mod_upper_bound (c / 16 / 16 / 16) 16 ltac:(done)) as B3.
  revert H0 H1 H2 H3 B0 B1 B2 B3.
  generalize (c mod 16) (c / 16 mod 16) (c / 16 / 16 mod 16)
    (c / 16 / 16 / 16 mod 16) (c / 16 / 16 / 16 / 16).
  generalize (c / 16 / 16 / 16). generalize (c / 16 / 16). generalize (c / 16).
  intros. lia.
Qed.

Lemma hex4_escape c :
  c < 0x10000 ->
  hex4 (hex_digit (c / 0x1000 mod 16)) (hex_digit (c / 0x100 mod 16))
       (hex_digit (c / 0x10 mod 16)) (hex_digit (c mod 16)) = Some c.
Proof.
  intros Hc. unfold hex4.
  rewrite !hex_value_digit by (by apply N.mod_upper_bound).
  simpl. by rewrite hex4_digits.
Qed.

Lemma parse_chars_escape_u h1 h2 h3 h4 tl :
  parse_chars (0x5C :: 0x75 :: h1 :: h2 :: h3 :: h4 :: tl) =
  match hex4 h1 h2 h3 h4 with
  | Some u => cons_char u (parse_chars tl)
  | None => None
  end.
Proof. reflexivity. Qed.

Lemma parse_chars_plain c tl :
  (c =? 0x22) = false -> (c =? 0x5C) = false -> (c <? 0x20) = false ->
  parse_chars (c :: tl) = cons_char c (parse_chars tl).
Proof. intros H1 H2 H3. cbn [parse_chars]. by rewrite H1, H2, H3. Qed.

Lemma surrogate_plain c :
  is_leading_surrogate c || is_trailing_surrogate c = true ->
  (c =? 0x22) = false /\ (c =? 0x5C) = false /\ (c <? 0x20) = false /\
  c < 0x10000.
Proof.
  unfold is_leading_surrogate, is_trailing_surrogate.
  rewrite orb_true_iff, !andb_true_iff, !N.leb_le, !N.eqb_neq, N.ltb_ge. lia.
Qed.

(** Reading back one escaped or plain code unit. *)
Lemma parse_chars_unit c tl :
  parse_chars (quote_code_unit c ++ tl) = cons_char c (parse_chars tl).
Proof.
  unfold quote_code_unit.
  destruct (c =? 0x08) eqn:E1; [by apply N.eqb_eq in E1 as -> |].
  destruct (c =? 0x09) eqn:E2; [by apply N.eqb_eq in E2 as -> |].
  destruct (c =? 0x0A) eqn:E3; [by apply N.eqb_eq in E3 as -> |].
  destruct (c =? 0x0C) eqn:E4; [by apply N.eqb_eq in E4 as -> |].
  destruct (c =? 0x0D) eqn:E5; [by apply N.eqb_eq in E5 as -> |].
  destruct (c =? 0x22) eqn:E6; [by apply N.eqb_eq in E6 as -> |].
  destruct (c =? 0x5C) eqn:E7; [by apply N.eqb_eq in E7 as -> |].
  destruct (c <? 0x20) eqn:E8; cbn [orb].
  - unfold UnicodeEscape. cbn [app].
    rewrite parse_chars_escape_u, hex4_escape; [done |].
    apply N.ltb_lt in E8. lia.
  - destruct (is_leading_surrogate c || is_trailing_surrogate c) eqn:E9.
    + unfold UnicodeEscape. cbn [app].
      rewrite parse_chars_escape_u, hex4_escape; [done |].
      by apply surrogate_plain.
    + by apply parse_chars_plain.
Qed.

Lemma parse_chars_pair c d tl :
  is_leading_surrogate c && is_trailing_surrogate d = true ->
  parse_chars (c :: d :: tl) = cons_char c (cons_char d (parse_chars tl)).
Proof.
  intros [Hc Hd]%andb_true_iff.
  destruct (surrogate_plain c) as (? & ? & ? & _); [by rewrite Hc |].
  destruct (surrogate_plain d) as (? & ? & ? & _);
    [by rewrite Hd, orb_true_r |].
  by rewrite !parse_chars_plain.
Qed.

Lemma parse_chars_quote s rest :
  parse_chars (quote_code_points s ++ 0x22 :: rest) = Some (s, rest).
Proof.
  revert rest.
  cut ((forall rest, parse_chars (quote_code_points s ++ 0x22 :: rest)
                     = Some (s, rest)) /\
       (forall c rest, parse_chars (quote_code_points (c :: s) ++ 0x22 :: rest)
                       = Some (c :: s, rest))); [tauto |].
  induction s as [|d s [IH1 IH2]].
  - split; [done |]. intros c rest. cbn [quote_code_points].
    by rewrite parse_chars_unit.
  - split; [apply IH2 |]. intros c rest. cbn [quote_code_points].
    destruct (is_leading_surrogate c && is_trailing_surrogate d) eqn:E.
    + cbn [app]. rewrite parse_chars_pair by done. by rewrite IH1.
    + rewrite <- app_assoc, parse_chars_unit.
      change (match s with
              | [] => quote_code_unit d
              | d0 :: s2 =>
                  if is_leading_surrogate d && is_trailing_surrogate d0
                  then d :: d0 :: quote_code_points s2
                  else quote_code_unit d ++ quote_code_points s
              end) with (quote_code_points (d :: s)).
      by rewrite IH2.
Qed.

Lemma QuoteJSONString_app s rest :
  QuoteJSONString s ++ rest = 0x22 :: quote_code_points s ++ 0x22 :: rest.
Proof. unfold QuoteJSONString. by rewrite <- app_comm_cons, <- app_assoc. Qed.

End Strings.

Section RoundTrip.

Implicit Types (f : nat) (s tl rest vs : jsstring) (it : ScanItem).

(** How [parse_value] and its helpers start on a given first character. *)
Lemma parse_value_quote f s :
  parse_value (S f) (0x22 :: s) =
  match parse_chars s with
  | Some (str, rest) => Some (JString str, rest)
  | None => None
  end.
Proof. reflexivity. Qed.

Lemma parse_value_brace f s :
  parse_value (S f) (0x7B :: 0x22 :: s) =
  match parse_members f ∅ (0x22 :: s) with
  | Some (m, rest) => Some (JObject m, rest)
  | None => None
  end.
Proof. reflexivity. Qed.

Lemma parse_value_bracket f s :
  parse_value (S f) (0x5B :: 0x7B :: s) =
  match parse_elements f (0x7B :: s) with
  | Some (vs, rest) => Some (JArray vs, rest)
  | None => None
  end.
Proof. reflexivity. Qed.

Lemma parse_members_step_comma f m s key s3 v s5 :
  parse_chars s = Some (key, 0x3A :: s3) ->
  parse_value f s3 = Some (v, 0x2C :: s5) ->
  parse_members (S f) m (0x22 :: s) = parse_members f (<[key := v]> m) s5.
Proof.
  intros H1 H2. cbn [parse_members]. unfold members_step. simpl.
  rewrite H1. simpl. by rewrite H2.
Qed.

Lemma parse_members_step_last f m s key s3 v s5 :
  parse_chars s = Some (key, 0x3A :: s3) ->
  parse_value f s3 = Some (v, 0x7D :: s5) ->
  parse_members (S f) m (0x22 :: s) = Some (<[key := v]> m, s5).
Proof.
  intros H1 H2. cbn [parse_members]. unfold members_step. simpl.
  rewrite H1. simpl. by rewrite H2.
Qed.

Lemma parse_elements_step_comma f s v s2 :
  parse_value f s = Some (v, 0x2C :: s2) ->
  parse_elements (S f) s =
  match parse_elements f s2 with
  | Some (vs, rest) => Some (v :: vs, rest)
  | None => None
  end.
Proof.
  intros H1. cbn [parse_elements]. unfold elements_step. by rewrite H1.
Qed.

Lemma parse_elements_step_last f s v s2 :
  parse_value f s = Some (v, 0x5D :: s2) ->
  parse_elements (S f) s = Some ([v], s2).
Proof.
  intros H1. cbn [parse_elements]. unfold elements_step. by rewrite H1.
Qed.

Lemma parse_value_string f s rest :
  parse_value (S f) (QuoteJSONString s ++ rest) = Some (JString s, rest).
Proof.
  by rewrite QuoteJSONString_app, parse_value_quote, parse_chars_quote.
Qed.

Lemma Number_toString_head z :
  exists d tl, Number_toString z = d :: tl /\ (d = 0x2D \/ isDigit d = true).
Proof.
  unfold Number_toString. destruct (z <? 0)%Z.
  - exists 0x2D, (decimal_digits (Z.abs_N z)). auto.
  - destruct (decimal_digits_spec (Z.abs_N z)) as (Hall & _ & d & ds' & Hds & _).
    rewrite Hds in *. apply Forall_cons in Hall as [Hd _]. eauto.
Qed.

Lemma parse_value_number_head f d s :
  d = 0x2D \/ isDigit d = true ->
  parse_value (S f) (d :: s) =
  match parse_number (d :: s) with
  | Some (n, rest) => Some (JNumber n, rest)
  | None => None
  end.
Proof.
  intros Hd.
  assert (Hlt : d < 0x3A).
  { destruct Hd as [-> | [_ Hd%N.leb_le]%andb_true_iff]; [done | lia]. }
  assert (Hge : 0x2D <= d).
  { destruct Hd as [-> | [Hd%N.leb_le _]%andb_true_iff]; [done | lia]. }
  assert (Hws : is_json_ws d = false).
  { unfold is_json_ws. rewrite !orb_false_iff, !N.eqb_neq. lia. }
  cbn [parse_value]. unfold value_step. cbn [skip_ws]. rewrite Hws.
  replace (d =? 0x22) with false by (symmetry; apply N.eqb_neq; lia).
  replace (d =? 0x5B) with false by (symmetry; apply N.eqb_neq; lia).
  replace (d =? 0x7B) with false by (symmetry; apply N.eqb_neq; lia).
  replace (d =? 0x74) with false by (symmetry; apply N.eqb_neq; lia).
  replace (d =? 0x66) with false by (symmetry; apply N.eqb_neq; lia).
  replace (d =? 0x6E) with false by (symmetry; apply N.eqb_neq; lia).
  by destruct (parse_number (d :: s)) as [[n rest] |].
Qed.

Lemma parse_value_number f z c rest :
  ends_number c = true ->
  parse_value (S f) (Number_toString z ++ c :: rest)
  = Some (JNumber (num_of_Z z), c :: rest).
Proof.
  intros Hc. pose proof (parse_number_toString z c rest Hc) as Hn.
  destruct (Number_toString_head z) as (d & tl & Hz & Hd).
  rewrite Hz in *. cbn [app] in *.
  by rewrite parse_value_number_head, Hn.
Qed.

(** One member that a comma follows, and the last member of an object. *)
Lemma parse_members_comma f m key vs v tl :
  parse_value f (vs ++ 0x2C :: tl) = Some (v, 0x2C :: tl) ->
  parse_members (S f) m (member key vs ++ 0x2C :: tl)
  = parse_members f (<[key := v]> m) tl.
Proof.
  intros Hv. unfold member. rewrite <- app_assoc, QuoteJSONString_app.
  apply (parse_members_step_comma _ _ _ key (vs ++ 0x2C :: tl)); [| done].
  by rewrite parse_chars_quote.
Qed.

Lemma parse_members_last f m key vs v tl :
  parse_value f (vs ++ 0x7D :: tl) = Some (v, 0x7D :: tl) ->
  parse_members (S f) m (member key vs ++ 0x7D :: tl)
  = Some (<[key := v]> m, tl).
Proof.
  intros Hv. unfold member. rewrite <- app_assoc, QuoteJSONString_app.
  apply (parse_members_step_last _ _ _ key (vs ++ 0x7D :: tl)); [| done].
  by rewrite parse_chars_quote.
Qed.

Lemma stringify_item_app it rest :
  stringify_item it ++ rest =
  0x7B :: member (lit "id") (QuoteJSONString (id it)) ++ 0x2C ::
          member (lit "data") (QuoteJSONString (data it)) ++ 0x2C ::
          member (lit "type") (QuoteJSONString (ScanType_string (type it)))
          ++ 0x2C ::
          member (lit "timestamp") (Number_toString (timestamp it)) ++ 0x7D ::
          rest.
Proof.
  unfold stringify_item. cbn [join_comma].
  rewrite <- app_comm_cons. f_equal.
  repeat (rewrite <- app_assoc || rewrite <- app_comm_cons). done.
Qed.

Lemma member_head key vs : exists tl, member key vs = 0x22 :: tl.
Proof. unfold member, QuoteJSONString. eauto. Qed.

Lemma parse_value_item f it rest :
  parse_value (6 + f) (stringify_item it ++ rest) = Some (item_value it, rest).
Proof.
  rewrite stringify_item_app.
  change (6 + f)%nat with (S (S (S (S (S (S f)))))).
  destruct (member_head (lit "id") (QuoteJSONString (id it))) as (tl & Htl).
  rewrite Htl at 1. cbn [app]. rewrite parse_value_brace.
  rewrite app_comm_cons, <- Htl.
  rewrite (parse_members_comma _ _ _ _ (JString (id it)))
    by apply parse_value_string.
  rewrite (parse_members_comma _ _ _ _ (JString (data it)))
    by apply parse_value_string.
  rewrite (parse_members_comma _ _ _ _ (JString (ScanType_string (type it))))
    by apply parse_value_string.
  rewrite (parse_members_last _ _ _ _ (JNumber (num_of_Z (timestamp it))))
    by by apply parse_value_number.
  done.
Qed.

Lemma stringify_item_head it : exists tl, stringify_item it = 0x7B :: tl.
Proof. unfold stringify_item. eauto. Qed.

Lemma parse_elements_items f items rest :
  items <> [] ->
  parse_elements (length items + 6 + f)
    (join_comma (stringify_item <$> items) ++ 0x5D :: rest)
  = Some (item_value <$> items, rest).
Proof.
  induction items as [|it items IH]; [done |]. intros _.
  destruct items as [|it' items].
  - cbn [fmap list_fmap join_comma length].
    change (1 + 6 + f)%nat with (S (6 + f)).
    apply parse_elements_step_last, parse_value_item.
  - change (join_comma (stringify_item <$> it :: it' :: items))
      with (stringify_item it ++ 0x2C :: join_comma (stringify_item <$> it' :: items)).
    rewrite <- app_assoc. cbn [app].
    change (length (it :: it' :: items) + 6 + f)%nat
      with (S (length (it' :: items) + 6 + f)).
    rewrite (parse_elements_step_comma _ _ (item_value it)
               (join_comma (stringify_item <$> it' :: items) ++ 0x5D :: rest)).
    + by rewrite IH.
    + replace (length (it' :: items) + 6 + f)%nat
        with (6 + (length (it' :: items) + f))%nat by lia.
      apply parse_value_item.
Qed.

Lemma length_join_comma (l : list jsstring) :
  (forall e, e ∈ l -> 2 <= length e)%nat ->
  (2 * length l <= length (join_comma l))%nat.
Proof.
  induction l as [|e l IH]; intros Hl; [done |].
  assert (2 <= length e)%nat by (apply Hl; left).
  assert (2 * length l <= length (join_comma l))%nat
    by (apply IH; intros; apply Hl; by right).
  destruct l as [|e' l]; cbn [join_comma length] in *; [lia |].
  rewrite length_app. cbn [length]. lia.
Qed.

(** What [JSON.stringify] writes for a list of scan items, [JSON.parse]
    reads back as the value of that list. *)
(** What [JSON.stringify] writes for a list of scan items, [JSON.parse]
    reads back as the value of that list. *)
Lemma JSON_parse_stringify items :
  JSON_parse (JSON_stringify items) = Some (items_value items).
Proof.
  destruct items as [|it items]; [done |].
  unfold items_value. set (l := it :: items).
  assert (Hne : l <> []) by done.
  assert (Hj : exists tl, join_comma (stringify_item <$> l) = 0x7B :: tl).
  { destruct (stringify_item_head it) as (tl & Htl). subst l.
    cbn [fmap list_fmap]. rewrite Htl.
    destruct items; cbn [list_fmap join_comma]; eauto. }
  clearbody l. destruct Hj as (tl & Hj).
  assert (Hlen : (2 * length l <= length (join_comma (stringify_item <$> l)))%nat).
  { rewrite <- (length_fmap stringify_item). apply length_join_comma.
    intros e (it0 & -> & _)%list_elem_of_fmap.
    unfold stringify_item. cbn [length]. rewrite length_app. simpl. lia. }
  assert (Hl : (1 <= length l)%nat) by (destruct l; [done | simpl; lia]).
  unfold JSON_parse, JSON_stringify.
  cbn [length]. rewrite length_app. cbn [length].
  set (n := length (join_comma (stringify_item <$> l))) in *.
  replace (2 * S (n + 1) + 2)%nat
    with (S (length l + 6 + (2 * n - length l - 1)))%nat by lia.
  rewrite Hj at 1. cbn [app].
  rewrite parse_value_bracket, app_comm_cons, <- Hj.
  by rewrite parse_elements_items.
Qed.

End RoundTrip.

(** The fuel that [JSON_parse] gives is enough: a text that parses with some
    fuel parses with twice its length. *)

Section Fuel.

Implicit Types (f g : nat) (s rest : jsstring) (m : gmap jsstring JSValue).

Lemma skip_ws_length s : (length (skip_ws s) <= length s)%nat.
Proof.
  induction s as [|c s IH]; simpl; [done |].
  destruct (is_json_ws c); simpl; lia.
Qed.

Lemma cons_char_length c r str rest n :
  (forall str' rest', r = Some (str', rest') -> length rest' < n)%nat ->
  cons_char c r = Some (str, rest) -> (length rest < n)%nat.
Proof.
  intros Hr. destruct r as [[str' rest'] |]; [| done].
  intros [= _ <-]. by apply (Hr str').
Qed.

Lemma parse_chars_length s str rest :
  parse_chars s = Some (str, rest) -> (length rest < length s)%nat.
Proof.
  assert (H : forall n s, (length s <= n)%nat -> forall str rest,
                parse_chars s = Some (str, rest) -> (length rest < length s)%nat);
    [| by apply (H (length s))].
  clear. induction n as [|n IH]; intros s Hle str rest.
  { by destruct s; [| simpl in Hle; lia]. }
  destruct s as [|c s1]; [done |]. cbn [parse_chars length] in *.
  destruct (c =? 0x22); [intros [= _ <-]; lia |].
  destruct (c =? 0x5C).
  - destruct s1 as [|e s2]; [done |]. cbn [length] in *.
    destruct (e =? 0x75).
    + destruct s2 as [|h1 [|h2 [|h3 [|h4 s3]]]]; try done.
      cbn [length] in *. destruct (hex4 h1 h2 h3 h4); [| done].
      intros H. apply (cons_char_length _ _ _ _ (length s3)) in H; [lia |].
      intros str' rest'. apply IH. lia.
    + destruct (unescape e); [| done].
      intros H. apply (cons_char_length _ _ _ _ (length s2)) in H; [lia |].
      intros str' rest'. apply IH. lia.
  - destruct (c <? 0x20); [done |].
    intros H. apply (cons_char_length _ _ _ _ (length s1)) in H; [lia |].
    intros str' rest'. apply IH. lia.
Qed.

Lemma span_digits_length s ds rest :
  span_digits s = (ds, rest) -> (length rest <= length s)%nat.
Proof.
  revert ds rest. induction s as [|c s IH]; intros ds rest; simpl.
  - by intros [= _ <-].
  - destruct (isDigit c).
    + destruct (span_digits s) as [ds' rest'] eqn:E. intros [= _ <-].
      specialize (IH _ _ eq_refl). lia.
    + intros [= _ <-]. simpl. lia.
Qed.

Lemma parse_unsigned_length neg s n rest :
  parse_unsigned neg s = Some (n, rest) -> (length rest < length s)%nat.
Proof.
  unfold parse_unsigned.
  destruct (parse_int s) as [[int s2] |] eqn:Eint; [| done].
  assert (length s2 < length s)%nat.
  { unfold parse_int in Eint. destruct s as [|d s']; [done |].
    destruct (d =? 0x30); [injection Eint as _ <-; simpl; lia |].
    destruct (isDigit d) eqn:Ed; [| done]. injection Eint as Eint.
    simpl in Eint. rewrite Ed in Eint.
    destruct (span_digits s') as [ds' rest'] eqn:E. injection Eint as _ <-.
    apply span_digits_length in E. simpl. lia. }
  cbn [mbind option_bind].
  destruct (parse_frac s2) as [[frac s3] |] eqn:Efrac; [| done].
  assert (length s3 <= length s2)%nat.
  { unfold parse_frac in Efrac. destruct s2 as [|c s']; [by injection Efrac as _ <- |].
    destruct (c =? 0x2E); [| by injection Efrac as _ <-].
    destruct (span_digits s') as [ds' rest'] eqn:E.
    destruct (decide (ds' = [])); [done |]. injection Efrac as _ <-.
    apply span_digits_length in E. simpl. lia. }
  cbn [mbind option_bind].
  destruct (parse_exp s3) as [[e s4] |] eqn:Eexp; [| done].
  assert (length s4 <= length s3)%nat.
  { assert (Hd : forall b s' z r, parse_exp_digits b s' = Some (z, r) ->
                                  (length r <= length s')%nat).
    { intros b s' z r. unfold parse_exp_digits.
      destruct (span_digits s') as [ds' rest'] eqn:E.
      destruct (decide (ds' = [])); [done |]. intros [= _ <-].
      by apply span_digits_length in E. }
    unfold parse_exp in Eexp. destruct s3 as [|c s']; [by injection Eexp as _ <- |].
    destruct ((c =? 0x65) || (c =? 0x45)); [| by injection Eexp as _ <-].
    destruct s' as [|g s'']; [done |].
    destruct (g =? 0x2B); [apply Hd in Eexp; simpl; lia |].
    destruct (g =? 0x2D); [apply Hd in Eexp; simpl; lia |].
    apply Hd in Eexp. simpl in *. lia. }
  cbn [mbind option_bind]. intros [= _ <-]. lia.
Qed.

Lemma parse_number_length s n rest :
  parse_number s = Some (n, rest) -> (length rest < length s)%nat.
Proof.
  unfold parse_number. destruct s as [|c s']; [done |].
  destruct (c =? 0x2D); intros H%parse_unsigned_length; simpl in *; lia.
Qed.

Lemma strip_prefix_length p s rest :
  strip_prefix p s = Some rest -> (length rest <= length s)%nat.
Proof.
  revert s. induction p as [|a p IH]; intros s; simpl.
  - by intros [= <-].
  - destruct s as [|c s]; [done |]. destruct (a =? c); [| done].
    intros H%IH. simpl. lia.
Qed.

(** What a successful step owes to the readers it was given. *)
Lemma value_step_inv elements members s v rest :
  value_step elements members s = Some (v, rest) ->
  ((length rest < length s)%nat /\
   forall elements' members', value_step elements' members' s = Some (v, rest)) \/
  (exists s1 vs,
     (length s1 < length s)%nat /\ elements s1 = Some (vs, rest) /\
     forall elements' members',
       elements' s1 = Some (vs, rest) ->
       value_step elements' members' s = Some (v, rest)) \/
  (exists s1 m',
     (length s1 < length s)%nat /\ members ∅ s1 = Some (m', rest) /\
     forall elements' members',
       members' ∅ s1 = Some (m', rest) ->
       value_step elements' members' s = Some (v, rest)).
Proof.
  unfold value_step. pose proof (skip_ws_length s) as Hs.
  destruct (skip_ws s) as [|c s1]; [done |]. cbn [length] in Hs.
  destruct (c =? 0x22).
  { destruct (parse_chars s1) as [[str r] |] eqn:E; [| done].
    intros [= <- <-]. apply parse_chars_length in E. left. split; [lia | done]. }
  destruct (c =? 0x5B).
  { pose proof (skip_ws_length s1) as Hs1.
    destruct (skip_ws s1) as [|c1 s2] eqn:E1; [done |]. cbn [length] in Hs1.
    destruct (c1 =? 0x5D); [intros [= <- <-]; left; split; [lia | done] |].
    destruct (elements s1) as [[vs r] |] eqn:E; [| done]. intros [= <- <-].
    right. left. exists s1, vs. split; [lia |]. split; [done |].
    intros elements' members' ->. done. }
  destruct (c =? 0x7B).
  { pose proof (skip_ws_length s1) as Hs1.
    destruct (skip_ws s1) as [|c1 s2] eqn:E1; [done |]. cbn [length] in Hs1.
    destruct (c1 =? 0x7D); [intros [= <- <-]; left; split; [lia | done] |].
    destruct (members ∅ s1) as [[m' r] |] eqn:E; [| done]. intros [= <- <-].
    right. right. exists s1, m'. split; [lia |]. split; [done |].
    intros elements' members' ->. done. }
  destruct (c =? 0x74).
  { destruct (strip_prefix (lit "rue") s1) as [r |] eqn:E; [| done].
    intros [= <- <-]. apply strip_prefix_length in E. left. split; [lia | done]. }
  destruct (c =? 0x66).
  { destruct (strip_prefix (lit "alse") s1) as [r |] eqn:E; [| done].
    intros [= <- <-]. apply strip_prefix_length in E. left. split; [lia | done]. }
  destruct (c =? 0x6E).
  { destruct (strip_prefix (lit "ull") s1) as [r |] eqn:E; [| done].
    intros [= <- <-]. apply strip_prefix_length in E. left. split; [lia | done]. }
  destruct (parse_number (c :: s1)) as [[n r] |] eqn:E; [| done].
  intros [= <- <-]. apply parse_number_length in E. cbn [length] in E.
  left. split; [lia | done].
Qed.

Lemma elements_step_inv value elements s vs rest :
  elements_step value elements s = Some (vs, rest) ->
  exists v s1,
    value s = Some (v, s1) /\
    (((length rest < length s1)%nat /\
      forall value' elements',
        value' s = Some (v, s1) ->
        elements_step value' elements' s = Some (vs, rest)) \/
     (exists s2 vs',
        (length s2 < length s1)%nat /\ elements s2 = Some (vs', rest) /\
        forall value' elements',
          value' s = Some (v, s1) -> elements' s2 = Some (vs', rest) ->
          elements_step value' elements' s = Some (vs, rest))).
Proof.
  unfold elements_step.
  destruct (value s) as [[v s1] |] eqn:Ev; [| done]. cbn [mbind option_bind].
  pose proof (skip_ws_length s1) as Hs1.
  destruct (skip_ws s1) as [|c s2] eqn:E1; [done |]. cbn [length] in Hs1.
  intros H. exists v, s1. split; [done |].
  destruct (c =? 0x2C) eqn:Ec.
  - destruct (elements s2) as [[vs' r] |] eqn:E; [| done].
    injection H as <- <-. right. exists s2, vs'. split; [lia |]. split; [done |].
    intros value' elements' -> Hel. cbn [mbind option_bind].
    by rewrite E1, Ec, Hel.
  - destruct (c =? 0x5D) eqn:Ec'; [| done]. injection H as <- <-.
    left. split; [lia |]. intros value' elements' ->. cbn [mbind option_bind].
    by rewrite E1, Ec, Ec'.
Qed.

Lemma members_step_inv value members m s m' rest :
  members_step value members m s = Some (m', rest) ->
  exists s3 v s4,
    (length s3 < length s)%nat /\ value s3 = Some (v, s4) /\
    (((length rest < length s4)%nat /\
      forall value' members',
        value' s3 = Some (v, s4) ->
        members_step value' members' m s = Some (m', rest)) \/
     (exists m1 s5,
        (length s5 < length s4)%nat /\ members m1 s5 = Some (m', rest) /\
        forall value' members',
          value' s3 = Some (v, s4) -> members' m1 s5 = Some (m', rest) ->
          members_step value' members' m s = Some (m', rest))).
Proof.
  unfold members_step. pose proof (skip_ws_length s) as Hs.
  destruct (skip_ws s) as [|q s1]; [done |]. cbn [length] in Hs.
  destruct (q =? 0x22); [| done].
  destruct (parse_chars s1) as [[key s2] |] eqn:Ek; [| done].
  apply parse_chars_length in Ek. cbn [mbind option_bind].
  pose proof (skip_ws_length s2) as Hs2.
  destruct (skip_ws s2) as [|c s3]; [done |]. cbn [length] in Hs2.
  destruct (c =? 0x3A); [| done].
  destruct (value s3) as [[v s4] |] eqn:Ev; [| done]. cbn [mbind option_bind].
  pose proof (skip_ws_length s4) as Hs4.
  destruct (skip_ws s4) as [|c' s5] eqn:E4; [done |]. cbn [length] in Hs4.
  intros H. exists s3, v, s4. split; [lia |]. split; [done |].
  destruct (c' =? 0x2C) eqn:Ec.
  - right. exists (<[key := v]> m), s5. split; [lia |]. split; [done |].
    intros value' members' -> Hm. cbn [mbind option_bind].
    by rewrite E4, Ec.
  - destruct (c' =? 0x7D) eqn:Ec'; [| done]. injection H as <- <-.
    left. split; [lia |]. intros value' members' ->. cbn [mbind option_bind].
    by rewrite E4, Ec, Ec'.
Qed.

(** More fuel gives the same result. *)
Lemma parse_mono f :
  (forall s r, parse_value f s = Some r -> parse_value (S f) s = Some r) /\
  (forall s r, parse_elements f s = Some r -> parse_elements (S f) s = Some r) /\
  (forall m s r,
     parse_members f m s = Some r -> parse_members (S f) m s = Some r).
Proof.
  induction f as [|f (IHv & IHe & IHm)]; [done |]. split; [| split].
  - intros s [v rest] H. cbn [parse_value] in *.
    apply value_step_inv in H
      as [[_ H] | [(s1 & vs & _ & He & H) | (s1 & m' & _ & Hm & H)]].
    + apply H.
    + by apply H, IHe.
    + by apply H, IHm.
  - intros s [vs rest] H. cbn [parse_elements] in *.
    apply elements_step_inv in H
      as (v & s1 & Hv & [[_ H] | (s2 & vs' & _ & He & H)]).
    + by apply H, IHv.
    + apply H; [by apply IHv | by apply IHe].
  - intros m s [m' rest] H. cbn [parse_members] in *.
    apply members_step_inv in H
      as (s3 & v & s4 & _ & Hv & [[_ H] | (m1 & s5 & _ & Hm & H)]).
    + by apply H, IHv.
    + apply H; [by apply IHv | by apply IHm].
Qed.

Lemma parse_mono_le f g :
  (f <= g)%nat ->
  (forall s r, parse_value f s = Some r -> parse_value g s = Some r) /\
  (forall s r, parse_elements f s = Some r -> parse_elements g s = Some r) /\
  (forall m s r, parse_members f m s = Some r -> parse_members g m s = Some r).
Proof.
  induction 1 as [|g _ (IHv & IHe & IHm)]; [done |].
  destruct (parse_mono g) as (Hv & He & Hm).
  split; [| split]; eauto.
Qed.

(** A successful reader consumes text, and twice the length of what it
    consumes is fuel enough. *)
Lemma parse_enough f :
  (forall s v rest,
     parse_value f s = Some (v, rest) ->
     (length rest < length s)%nat /\
     parse_value (2 * (length s - length rest)) s = Some (v, rest)) /\
  (forall s vs rest,
     parse_elements f s = Some (vs, rest) ->
     (length rest < length s)%nat /\
     parse_elements (2 * (length s - length rest)) s = Some (vs, rest)) /\
  (forall m s m' rest,
     parse_members f m s = Some (m', rest) ->
     (length rest < length s)%nat /\
     parse_members (2 * (length s - length rest)) m s = Some (m', rest)).
Proof.
  induction f as [|f (IHv & IHe & IHm)]; [done |]. split; [| split].
  - intros s v rest H. cbn [parse_value] in H.
    apply value_step_inv in H
      as [[Hlen H] | [(s1 & vs & Hs1 & He & H) | (s1 & m' & Hs1 & Hm & H)]].
    + split; [done |].
      replace (2 * (length s - length rest))%nat
        with (S (2 * (length s - length rest) - 1))%nat by lia.
      apply H.
    + apply IHe in He as [Hlen He]. split; [lia |].
      replace (2 * (length s - length rest))%nat
        with (S (2 * (length s - length rest) - 1))%nat by lia.
      cbn [parse_value]. apply H.
      eapply (parse_mono_le (2 * (length s1 - length rest))); [lia | done].
    + apply IHm in Hm as [Hlen Hm]. split; [lia |].
      replace (2 * (length s - length rest))%nat
        with (S (2 * (length s - length rest) - 1))%nat by lia.
      cbn [parse_value]. apply H.
      eapply (parse_mono_le (2 * (length s1 - length rest))); [lia | done].
  - intros s vs rest H. cbn [parse_elements] in H.
    apply elements_step_inv in H
      as (v & s1 & Hv & [[Hlen H] | (s2 & vs' & Hs2 & He & H)]).
    + apply IHv in Hv as [Hlen1 Hv]. split; [lia |].
      replace (2 * (length s - length rest))%nat
        with (S (2 * (length s - length rest) - 1))%nat by lia.
      cbn [parse_elements]. apply H.
      eapply (parse_mono_le (2 * (length s - length s1))); [lia | done].
    + apply IHv in Hv as [Hlen1 Hv]. apply IHe in He as [Hlen2 He].
      split; [lia |].
      replace (2 * (length s - length rest))%nat
        with (S (2 * (length s - length rest) - 1))%nat by lia.
      cbn [parse_elements]. apply H.
      * eapply (parse_mono_le (2 * (length s - length s1))); [lia | done].
      * eapply (parse_mono_le (2 * (length s2 - length rest))); [lia | done].
  - intros m s m' rest H. cbn [parse_members] in H.
    apply members_step_inv in H
      as (s3 & v & s4 & Hs3 & Hv & [[Hlen H] | (m1 & s5 & Hs5 & Hm & H)]).
    + apply IHv in Hv as [Hlen1 Hv]. split; [lia |].
      replace (2 * (length s - length rest))%nat
        with (S (2 * (length s - length rest) - 1))%nat by lia.
      cbn [parse_members]. apply H.
      eapply (parse_mono_le (2 * (length s3 - length s4))); [lia | done].
    + apply IHv in Hv as [Hlen1 Hv]. apply IHm in Hm as [Hlen2 Hm].
      split; [lia |].
      replace (2 * (length s - length rest))%nat
        with (S (2 * (length s - length rest) - 1))%nat by lia.
      cbn [parse_members]. apply H.
      * eapply (parse_mono_le (2 * (length s3 - length s4))); [lia | done].
      * eapply (parse_mono_le (2 * (length s5 - length rest))); [lia | done].
Qed.

(** [JSON_parse] fails only on a text that no amount of fuel parses. *)
Lemma JSON_parse_iff s v :
  JSON_parse s = Some v <->
  exists f rest, parse_value f s = Some (v, rest) /\ skip_ws rest = [].
Proof.
  unfold JSON_parse. split.
  - destruct (parse_value _ s) as [[v' rest] |] eqn:E; [| done].
    cbn [mbind option_bind]. destruct (skip_ws rest) eqn:Er; [| done].
    intros [= <-]. eauto.
  - intros (f & rest & Hv & Hr).
    destruct (parse_enough f) as (Hen & _ & _).
    apply Hen in Hv as [Hlen Hv].
    eapply (parse_mono_le _ (2 * length s + 2)) in Hv; [| lia].
    rewrite Hv. cbn [mbind option_bind]. by rewrite Hr.
Qed.

End Fuel.

(** ** Scan items and their values *)

Section Items.

Implicit Types (it : ScanItem) (items : list ScanItem).

Lemma ScanType_string_inj t1 t2 :
  ScanType_string t1 = ScanType_string t2 -> t1 = t2.
Proof. destruct t1, t2; intros H; vm_compute in H; congruence. Qed.

Lemma num_of_Z_inj z1 z2 : num_of_Z z1 = num_of_Z z2 -> z1 = z2.
Proof.
  unfold num_of_Z. intros [= Hneg Habs].
  destruct (Z.ltb_spec z1 0), (Z.ltb_spec z2 0); try discriminate; lia.
Qed.

(** The four properties of the value of a scan item. *)
Lemma item_value_props it :
  exists m, item_value it = JObject m /\
    m !! lit "id" = Some (JString (id it)) /\
    m !! lit "data" = Some (JString (data it)) /\
    m !! lit "type" = Some (JString (ScanType_string (type it))) /\
    m !! lit "timestamp" = Some (JNumber (num_of_Z (timestamp it))).
Proof.
  eexists. split; [done |].
  repeat split.
Qed.

Lemma item_value_inj it1 it2 : item_value it1 = item_value it2 -> it1 = it2.
Proof.
  destruct (item_value_props it1) as (m1 & -> & Hi1 & Hd1 & Ht1 & Hs1).
  destruct (item_value_props it2) as (m2 & -> & Hi2 & Hd2 & Ht2 & Hs2).
  intros [= ->].
  assert (id it1 = id it2) by congruence.
  assert (data it1 = data it2) by congruence.
  assert (type it1 = type it2) by (apply ScanType_string_inj; congruence).
  assert (timestamp it1 = timestamp it2) by (apply num_of_Z_inj; congruence).
  destruct it1, it2; simpl in *. congruence.
Qed.

Lemma items_value_inj items1 items2 :
  items_value items1 = items_value items2 -> items1 = items2.
Proof.
  unfold items_value. intros [= H]. revert items2 H.
  induction items1 as [|it1 items1 IH]; intros [|it2 items2] H; try done.
  rewrite !fmap_cons in H.
  remember (item_value it1) as v1 eqn:E1.
  remember (item_value it2) as v2 eqn:E2.
  injection H as H1 H2. subst v1 v2.
  f_equal; [by apply item_value_inj | by apply IH].
Qed.

End Items.

(** ** Values that are scan items *)

Section Records.

Implicit Types (it : ScanItem) (items : list ScanItem) (v : JSValue).

Lemma ScanType_of_string_spec t : ScanType_of_string (ScanType_string t) = Some t.
Proof. by destruct t. Qed.

Lemma Z_of_num_spec z : Z_of_num (num_of_Z z) = Some z.
Proof.
  unfold Z_of_num, num_of_Z. cbn [exponent negative mantissa Z.eqb].
  destruct (Z.ltb_spec z 0) as [Hz | Hz].
  - destruct (N.eqb_spec (Z.abs_N z) 0) as [E | _]; [lia |].
    f_equal. rewrite N2Z.inj_abs_N. lia.
  - f_equal. rewrite N2Z.inj_abs_N. lia.
Qed.

Lemma record_of_item_value it : record_of (item_value it) = Some it.
Proof.
  unfold record_of, item_value.
  set (m := <[lit "timestamp" := _]> _).
  assert (Hi : m !! lit "id" = Some (JString (id it))) by reflexivity.
  assert (Hd : m !! lit "data" = Some (JString (data it))) by reflexivity.
  assert (Ht : m !! lit "type" = Some (JString (ScanType_string (type it))))
    by reflexivity.
  assert (Hs : m !! lit "timestamp" = Some (JNumber (num_of_Z (timestamp it))))
    by reflexivity.
  assert (Hsize : size m = 4%nat) by reflexivity.
  rewrite Hi, Hd, Ht, Hs, ScanType_of_string_spec, Z_of_num_spec, Hsize.
  rewrite bool_decide_eq_true_2 by done. by destruct it.
Qed.

Lemma records_of_items items : records_of (item_value <$> items) = Some items.
Proof.
  unfold records_of. induction items as [|it items IH]; [done |].
  rewrite fmap_cons. cbn [mapM]. rewrite record_of_item_value, IH. done.
Qed.

Lemma ScanType_of_string_Some t ty :
  ScanType_of_string t = Some ty -> t = ScanType_string ty.
Proof.
  unfold ScanType_of_string.
  repeat (case_bool_decide; [intros [= <-]; assumption |]). done.
Qed.

Lemma Z_of_num_Some n z : Z_of_num n = Some z -> n = num_of_Z z.
Proof.
  unfold Z_of_num, num_of_Z. destruct n as [neg m e]. cbn [exponent negative mantissa].
  destruct (Z.eqb_spec e 0) as [-> |]; [| done]. destruct neg.
  - destruct (N.eqb_spec m 0) as [| Hm]; [done |]. intros [= <-]. f_equal.
    + symmetry. apply Z.ltb_lt. lia.
    + rewrite Zabs2N.inj_opp, Zabs2N.id. done.
  - intros [= <-]. f_equal.
    + symmetry. apply Z.ltb_ge. lia.
    + by rewrite Zabs2N.id.
Qed.

(** [record_of] accepts the values of scan items and nothing else. *)
Lemma record_of_Some v it : record_of v = Some it -> v = item_value it.
Proof.
  destruct v as [| | | | |props]; try done. cbn [record_of].
  destruct (props !! lit "id") as [[| | |i| |] |] eqn:Hi; try done.
  destruct (props !! lit "data") as [[| | |d| |] |] eqn:Hd; try done.
  destruct (props !! lit "type") as [[| | |t| |] |] eqn:Ht; try done.
  destruct (props !! lit "timestamp") as [[| |n| | |] |] eqn:Hs; try done.
  destruct (ScanType_of_string t) as [ty |] eqn:Hty; [| done].
  destruct (Z_of_num n) as [z |] eqn:Hz; [| done].
  case_bool_decide as Hsize; [| done]. intros [= <-].
  apply ScanType_of_string_Some in Hty as ->. apply Z_of_num_Some in Hz as ->.
  unfold item_value. cbn [id data type timestamp]. f_equal. symmetry.
  apply map_subseteq_size_eq; [| by rewrite Hsize].
  apply map_subseteq_spec. intros k v.
  rewrite !lookup_insert_Some, lookup_empty.
  intros [[<- <-] | [_ [[<- <-] | [_ [[<- <-] | [_ [[<- <-] | [_ [=]]]]]]]]];
    done.
Qed.

Lemma records_of_Some (l : list JSValue) items :
  records_of l = Some items -> JArray l = items_value items.
Proof.
  unfold records_of, items_value. intros H. f_equal.
  apply mapM_Some in H.
  induction H as [|v it l items Hv _ IH]; [done |].
  rewrite fmap_cons. f_equal; [by apply record_of_Some | done].
Qed.

Lemma JSON_stringify_value_items other items :
  JSON_stringify_value other (items_value items) = JSON_stringify items.
Proof. unfold JSON_stringify_value, items_value. by rewrite records_of_items. Qed.

(** Every other value is written as the host says. *)
Lemma JSON_stringify_value_other other v :
  (forall items, v <> items_value items) ->
  JSON_stringify_value other v = other v.
Proof.
  intros Hv. unfold JSON_stringify_value. destruct v as [| | | |l|]; try done.
  destruct (records_of l) as [items |] eqn:Hl; [| done].
  by apply records_of_Some, Hv in Hl.
Qed.

Lemma id_differs_item_value id' it :
  id_differs id' (item_value it) = Some (bool_decide (id it <> id')).
Proof.
  unfold id_differs, item_value.
  set (m := <[lit "timestamp" := _]> _).
  assert (Hi : m !! lit "id" = Some (JString (id it))) by reflexivity.
  rewrite Hi. by rewrite bool_decide_not.
Qed.

Lemma Array_filter_items id' items :
  Array_filter id' (items_value items)
  = Some (item_value <$> filter (fun item => id item <> id') items).
Proof.
  unfold Array_filter, items_value.
  induction items as [|it items IH]; [done |].
  rewrite fmap_cons. cbn [filter_elements].
  rewrite id_differs_item_value, IH.
  destruct (decide (id it <> id')) as [Hne | Heq].
  - by rewrite bool_decide_eq_true_2, filter_cons_True by done.
  - by rewrite bool_decide_eq_false_2, filter_cons_False by done.
Qed.

End Records.

(** ** The history store *)

Arguments JSON_stringify : simpl never.
Arguments JSON_parse : simpl never.
Arguments items_value : simpl never.
Arguments detectScanType : simpl never.
Arguments lit : simpl never.
Arguments STORAGE_KEY : simpl never.
Arguments JSON_stringify_value : simpl never.

Section Store.

Implicit Types (h : Host) (w : World) (items : list ScanItem).

(** A run to the end is the run up to the first [await], the storage
    request, and the run of what follows. *)
Lemma run_resume {A : Type} h w (p : Prog A) :
  run h w p =
  match run_sync h w p with
  | (w', Settles r) => (w', r)
  | (w', Awaits io k) => let '(w'', r) := do_async h w' io in run h w'' (k r)
  end.
Proof.
  revert w. induction p as [a|e|X op k IH|X io k _]; intros w; simpl; try done.
  destruct (do_sync h w op) as [w' x]. apply IH.
Qed.

Lemma run_saveHistory_value h w (value : JSValue) :
  run h w (saveHistory value) = (after_save_value h value w, Fulfilled tt).
Proof.
  unfold saveHistory, after_save_value. simpl. by destruct (write_error h).
Qed.

Lemma after_save_items h items w :
  after_save_value h (items_value items) w = after_save h items w.
Proof.
  unfold after_save_value, after_save. by rewrite JSON_stringify_value_items.
Qed.

Lemma run_saveHistory h w items :
  run h w (saveHistory (items_value items)) = (after_save h items w, Fulfilled tt).
Proof. by rewrite run_saveHistory_value, after_save_items. Qed.

Lemma run_bind {A B : Type} h w (p : Prog A) (f : A -> Prog B) :
  run h w (p ≫= f) =
  match run h w p with
  | (w', Fulfilled a) => run h w' (f a)
  | (w', Rejected e) => (w', Rejected e)
  end.
Proof.
  revert w. induction p as [a|e|X op k IH|X io k IH]; intros w; simpl; try done.
  - destruct (do_sync h w op) as [w' x]. apply IH.
  - destruct (do_async h w io) as [w' r]. apply IH.
Qed.

(** [addScan] on a state that can be spread, and on one that cannot. *)
Lemma run_addScan_value h w (captured : JSValue) elements data :
  spread captured = Some elements ->
  let updated := JArray (item_value (new_item h data) :: elements) in
  run h w (addScan captured data) =
  (after_save_value h updated (set_history updated w),
   Fulfilled (new_item h data)).
Proof.
  intros Hs. unfold addScan, after_save_value, new_item. simpl. rewrite Hs.
  simpl. by destruct (write_error h).
Qed.

Lemma run_addScan_TypeError h w (captured : JSValue) data :
  spread captured = None ->
  run h w (addScan captured data) = (w, Rejected TypeError).
Proof. intros Hs. unfold addScan. simpl. by rewrite Hs. Qed.

Lemma run_addScan h w items data :
  run h w (addScan (items_value items) data) =
  (after_save h (new_item h data :: items)
     (set_history (items_value (new_item h data :: items)) w),
   Fulfilled (new_item h data)).
Proof.
  rewrite (run_addScan_value h w _ (item_value <$> items)) by done.
  cbv zeta. by rewrite <- after_save_items.
Qed.

(** [removeScan] on an array without [null], and on any other state. *)
Lemma run_removeScan_value h w (captured : JSValue) kept id' :
  Array_filter id' captured = Some kept ->
  run h w (removeScan captured id') =
  (after_save_value h (JArray kept) (set_history (JArray kept) w), Fulfilled tt).
Proof.
  intros Hf. unfold removeScan. rewrite Hf. cbv zeta.
  unfold after_save_value. simpl. by destruct (write_error h).
Qed.

Lemma run_removeScan_TypeError h w (captured : JSValue) id' :
  Array_filter id' captured = None ->
  run h w (removeScan captured id') = (w, Rejected TypeError).
Proof. intros Hf. unfold removeScan. by rewrite Hf. Qed.

Lemma run_removeScan h w items id' :
  let updated := filter (fun item => id item <> id') items in
  run h w (removeScan (items_value items) id') =
  (after_save h updated (set_history (items_value updated) w), Fulfilled tt).
Proof.
  cbv zeta. rewrite (run_removeScan_value h w _ _ _ (Array_filter_items _ _)).
  by rewrite <- after_save_items.
Qed.

Lemma run_clearHistory h w :
  run h w clearHistory =
  (after_save h [] (set_history (items_value []) w), Fulfilled tt).
Proof.
  unfold clearHistory. simpl. unfold after_save.
  by destruct (write_error h).
Qed.

Lemma history_after_save_value h (value : JSValue) w :
  history (after_save_value h value w) = history w.
Proof. unfold after_save_value. by destruct (write_error h). Qed.

Lemma history_after_save h items w : history (after_save h items w) = history w.
Proof. unfold after_save. by destruct (write_error h). Qed.

Lemma isLoading_after_save h items w :
  isLoading (after_save h items w) = isLoading w.
Proof. unfold after_save. by destruct (write_error h). Qed.

End Store.

Section Mutations.

Implicit Types (h : Host) (w : World) (items : list ScanItem) (x : jsstring).

Lemma spread_None (captured : JSValue) :
  spread captured = None <->
  captured = JNull \/ (exists b, captured = JBool b) \/
  (exists n, captured = JNumber n) \/ (exists props, captured = JObject props).
Proof.
  split.
  - destruct captured; try done; eauto.
  - by intros [-> | [[b ->] | [[n ->] | [props ->]]]].
Qed.

(** C2, amended. [add(x)] works on the state that its callback has captured.
    When that state can be spread, which an array can, the call returns a
    record whose payload is [x] itself and whose category is what the
    classifier gives for the trimmed view of [x], and the history becomes that
    record at index 0 followed by the elements of the captured state: by all
    records present before when the captured state is the current one. When
    the captured state cannot be spread, being [null], a boolean, a number or
    a plain object, the call is rejected with a [TypeError] and changes
    nothing. *)
Theorem addScan_prepends h w (captured : JSValue) x :
  (forall elements,
     spread captured = Some elements ->
     exists newItem,
       snd (run h w (addScan captured x)) = Fulfilled newItem /\
       data newItem = x /\
       type newItem = detectScanType (trim x) /\
       classifies (trim x) (type newItem) /\
       history (fst (run h w (addScan captured x)))
       = JArray (item_value newItem :: elements)) /\
  (forall previous,
     history w = JArray previous -> captured = history w ->
     exists newItem,
       snd (run h w (addScan captured x)) = Fulfilled newItem /\
       history (fst (run h w (addScan captured x)))
       = JArray (item_value newItem :: previous)) /\
  (spread captured = None ->
   run h w (addScan captured x) = (w, Rejected TypeError)) /\
  (spread captured = None <->
   captured = JNull \/ (exists b, captured = JBool b) \/
   (exists n, captured = JNumber n) \/ (exists props, captured = JObject props)).
Proof.
  split; [| split; [| split]].
  - intros elements Hs. exists (new_item h x).
    rewrite (run_addScan_value h w captured elements x Hs). cbn [fst snd].
    rewrite history_after_save_value. cbn [new_item data type set_history history].
    rewrite detectScanType_trim.
    repeat split. apply detectScanType_classifies.
  - intros previous Hw ->. exists (new_item h x).
    rewrite (run_addScan_value h w (history w) previous x) by (by rewrite Hw).
    cbn [fst snd]. by rewrite history_after_save_value.
  - apply run_addScan_TypeError.
  - apply spread_None.
Qed.

Lemma addScan_prepends_witness :
  let h := {| uuid := lit "9c1d"; now := 1700000000001;
              read_error := None; write_error := None;
              stringify_other := fun _ => [] |} in
  let a := {| id := lit "3f2a"; data := lit "hello"; type := text;
              timestamp := 1700000000000 |} in
  let w := {| history := items_value [a]; isLoading := false;
              storage := ∅; console := [] |} in
  spread (history w) = Some [item_value a] /\
  exists newItem,
    snd (run h w (addScan (history w) (lit " www.a.b "))) = Fulfilled newItem /\
    data newItem = lit " www.a.b " /\
    type newItem = detectScanType (trim (lit " www.a.b ")) /\
    classifies (trim (lit " www.a.b ")) (type newItem) /\
    history (fst (run h w (addScan (history w) (lit " www.a.b "))))
    = JArray [item_value newItem; item_value a].
Proof.
  cbv zeta. split; [reflexivity |].
  exact (proj1 (addScan_prepends
                  {| uuid := lit "9c1d"; now := 1700000000001;
                     read_error := None; write_error := None;
                     stringify_other := fun _ => [] |}
                  {| history :=
                       items_value [{| id := lit "3f2a"; data := lit "hello";
                                       type := text;
                                       timestamp := 1700000000000 |}];
                     isLoading := false; storage := ∅; console := [] |}
                  (items_value [{| id := lit "3f2a"; data := lit "hello";
                                   type := text;
                                   timestamp := 1700000000000 |}])
                  (lit " www.a.b "))
           [item_value {| id := lit "3f2a"; data := lit "hello"; type := text;
                          timestamp := 1700000000000 |}] eq_refl).
Defined.

(** C2 as stated fails. The state [null], which [initialize] installs from
    the snapshot [null], is a prior history state on which [add] returns no
    record and puts none at index 0. And of two calls of the callback of one
    render, the second drops the record that the first has put into the
    history. *)
Lemma addScan_prepends_counterexample :
  let h1 := {| uuid := lit "3f2a"; now := 1700000000000;
               read_error := None; write_error := None;
               stringify_other := fun _ => [] |} in
  let h2 := {| uuid := lit "9c1d"; now := 1700000000001;
               read_error := None; write_error := None;
               stringify_other := fun _ => [] |} in
  (let w := fst (run h1 (mount {[ STORAGE_KEY := lit "null" ]}) loadHistory) in
   history w = JNull /\
   run h1 w (addScan (history w) (lit "hello")) = (w, Rejected TypeError)) /\
  (let render := mount ∅ in
   let w1 := fst (run h1 render (addScan (history render) (lit "one"))) in
   let w2 := fst (run h2 w1 (addScan (history render) (lit "two"))) in
   history w1 = items_value [new_item h1 (lit "one")] /\
   history w2 = items_value [new_item h2 (lit "two")] /\
   ~ exists newItem, history w2 = JArray [item_value newItem;
                                          item_value (new_item h1 (lit "one"))]).
Proof.
  cbv zeta. split; [by split |].
  split; [reflexivity |]. split; [reflexivity |].
  intros [newItem H].
  assert (Hlen : forall l1 l2 : list JSValue,
             JArray l1 = JArray l2 -> length l1 = length l2)
    by (by intros l1 l2 [= ->]).
  apply Hlen in H. discriminate H.
Qed.

(** C8. When the durable write fails during [add], [remove] or [clear], the
    failure is caught: the call still returns normally, the in-memory
    collection is the mutated one, the storage keeps its old content, and the
    failure is on the console. *)
Theorem write_failure_is_caught h w e :
  write_error h = Some e ->
  let failed v :=
    log_error (lit "Failed to save scan history:") e (set_history v w) in
  (forall items x,
     run h w (addScan (items_value items) x)
     = (failed (items_value (new_item h x :: items)), Fulfilled (new_item h x))) /\
  (forall items id',
     run h w (removeScan (items_value items) id')
     = (failed (items_value (filter (fun item => id item <> id') items)),
        Fulfilled tt)) /\
  run h w clearHistory = (failed (items_value []), Fulfilled tt) /\
  (forall v, history (failed v) = v /\ storage (failed v) = storage w).
Proof.
  intros He. cbn zeta. repeat split.
  - intros items x. rewrite run_addScan. unfold after_save. by rewrite He.
  - intros items id'. rewrite run_removeScan. unfold after_save. by rewrite He.
  - rewrite run_clearHistory. unfold after_save. by rewrite He.
Qed.

Lemma write_failure_is_caught_witness :
  let h := {| uuid := lit "3f2a"; now := 1700000000000;
              read_error := None;
              write_error := Some (HostError (lit "disk full"));
              stringify_other := fun _ => [] |} in
  let w := mount ∅ in
  write_error h = Some (HostError (lit "disk full")) /\
  snd (run h w (addScan (items_value []) (lit "hello")))
  = Fulfilled (new_item h (lit "hello")) /\
  history (fst (run h w (addScan (items_value []) (lit "hello"))))
  = items_value [new_item h (lit "hello")] /\
  storage (fst (run h w (addScan (items_value []) (lit "hello")))) = ∅.
Proof.
  cbv zeta. split; [reflexivity |].
  pose proof (write_failure_is_caught
                {| uuid := lit "3f2a"; now := 1700000000000;
                   read_error := None;
                   write_error := Some (HostError (lit "disk full"));
              stringify_other := fun _ => [] |}
                (mount ∅) (HostError (lit "disk full")) eq_refl)
    as (Hadd & _ & _ & _).
  rewrite (Hadd [] (lit "hello")). repeat split.
Defined.



(** Removing by identifier. *)

Lemma filter_id_absent items id' :
  id' ∉ (id <$> items) -> filter (fun item => id item <> id') items = items.
Proof.
  induction items as [|it items IH]; [done |]. rewrite fmap_cons, not_elem_of_cons.
  intros [Hne Hnot]. rewrite filter_cons_True by done. by rewrite IH.
Qed.

Lemma filter_id_gone items id' :
  id' ∉ (id <$> filter (fun item => id item <> id') items).
Proof.
  intros (it & -> & [Hne _]%list_elem_of_filter)%list_elem_of_fmap. done.
Qed.

Lemma filter_id_present items id' :
  id' ∈ (id <$> items) -> NoDup (id <$> items) ->
  S (length (filter (fun item => id item <> id') items)) = length items.
Proof.
  induction items as [|it items IH]; [by intros ?%elem_of_nil |].
  rewrite fmap_cons, NoDup_cons. intros Hin [Hnot Hnd].
  destruct (decide (id it = id')) as [<- | Hne].
  - rewrite filter_cons_False by (by intros ?).
    by rewrite filter_id_absent.
  - rewrite filter_cons_True by done. cbn [length]. f_equal.
    apply IH; [| done]. apply elem_of_cons in Hin as [? | ?]; done.
Qed.

(** The invariant of the data model, that no two records share an
    identifier, is kept by [removeScan], and by [addScan] when the identifier
    that the host hands out is not in use. *)
Lemma unique_ids_kept items :
  NoDup (id <$> items) ->
  (forall id', NoDup (id <$> filter (fun item => id item <> id') items)) /\
  (forall h x, uuid h ∉ (id <$> items) -> NoDup (id <$> new_item h x :: items)).
Proof.
  intros Hnd. split.
  - intros id'. induction items as [|it items IH]; [done |].
    rewrite fmap_cons, NoDup_cons in Hnd. destruct Hnd as [Hnot Hnd].
    destruct (decide (id it <> id')).
    + rewrite filter_cons_True by done. rewrite fmap_cons, NoDup_cons.
      split; [| by apply IH].
      intros (it' & Hid & [_ Hin]%list_elem_of_filter)%list_elem_of_fmap.
      apply Hnot, list_elem_of_fmap. eauto.
    + rewrite filter_cons_False by done. by apply IH.
  - intros h x Hfresh. rewrite fmap_cons, NoDup_cons. done.
Qed.

Lemma filter_id_count items id' :
  (length (filter (fun item => id item <> id') items)
   + length (filter (fun item => id item = id') items))%nat = length items.
Proof.
  induction items as [|it items IH]; [done |].
  destruct (decide (id it = id')) as [Heq | Hne].
  - rewrite filter_cons_False by (by intros ?).
    rewrite (filter_cons_True (fun item => id item = id')) by done.
    cbn [length]. lia.
  - rewrite filter_cons_True by done.
    rewrite (filter_cons_False (fun item => id item = id')) by done.
    cbn [length]. lia.
Qed.

Lemma id_differs_None id' (item : JSValue) :
  id_differs id' item = None <-> item = JNull.
Proof.
  split; [| by intros ->].
  destruct item as [| | | | |props]; try done. cbn [id_differs].
  by destruct (props !! lit "id") as [[]|].
Qed.

Lemma filter_elements_None id' (elements : list JSValue) :
  filter_elements id' elements = None <-> JNull ∈ elements.
Proof.
  induction elements as [|item rest IH]; cbn [filter_elements].
  - split; [done | by intros ?%elem_of_nil].
  - rewrite elem_of_cons, <- IH.
    destruct (id_differs id' item) as [keep |] eqn:Hitem.
    + assert (JNull <> item)
        by (intros <-; discriminate Hitem).
      destruct (filter_elements id' rest); split; try done.
      * by intros [? | ?].
      * by right.
    + apply id_differs_None in Hitem as ->. split; [by left | done].
Qed.

Lemma filter_elements_kept id' (elements kept : list JSValue) :
  filter_elements id' elements = Some kept ->
  Forall (fun item => id_differs id' item = Some true) kept /\
  kept `sublist_of` elements.
Proof.
  revert kept. induction elements as [|item rest IH]; intros kept;
    cbn [filter_elements].
  - by intros [= <-].
  - destruct (id_differs id' item) as [keep |] eqn:Hkeep; [| done].
    destruct (filter_elements id' rest) as [kept' |]; [| done].
    destruct (IH kept' eq_refl) as [Hall Hsub].
    intros [= <-]. destruct keep.
    + split; [by constructor | by apply sublist_skip].
    + split; [done | by apply sublist_cons].
Qed.

Lemma Array_filter_None id' (captured : JSValue) :
  Array_filter id' captured = None <->
  (forall elements, captured = JArray elements -> JNull ∈ elements).
Proof.
  destruct captured as [| | | |elements|]; cbn [Array_filter];
    try (split; [by intros _ ? [=] | done]).
  rewrite filter_elements_None. split.
  - by intros H ? [= <-].
  - intros H. by apply H.
Qed.

(** C5, amended. [remove(id)] works on the state that its callback has
    captured. On a collection of records it returns normally and leaves the
    captured records without those that carry the identifier: the identifier
    no longer occurs, and the collection is shorter by the number of records
    that carried it, by exactly one when the identifier is present and no two
    records share an identifier; when the identifier is absent the collection
    is unchanged, and removing again changes nothing. On any array without
    [null] the call returns normally and keeps no element with the
    identifier. When the captured state is not an array, or is an array that
    holds [null], the call is rejected with a [TypeError] and changes
    nothing. *)
Theorem removeScan_removes h w (captured : JSValue) id' :
  (forall items,
     captured = items_value items ->
     exists updated,
       run h w (removeScan captured id')
       = (after_save h updated (set_history (items_value updated) w),
          Fulfilled tt) /\
       (id' ∉ (id <$> updated)) /\
       (length updated + length (filter (fun item => id item = id') items))%nat
       = length items /\
       (id' ∈ (id <$> items) -> NoDup (id <$> items) ->
        S (length updated) = length items) /\
       (id' ∉ (id <$> items) -> updated = items) /\
       (forall h' w',
          history (fst (run h' w' (removeScan (items_value updated) id')))
          = items_value updated)) /\
  (forall kept,
     Array_filter id' captured = Some kept ->
     snd (run h w (removeScan captured id')) = Fulfilled tt /\
     history (fst (run h w (removeScan captured id'))) = JArray kept /\
     Forall (fun item => id_differs id' item = Some true) kept) /\
  (Array_filter id' captured = None ->
   run h w (removeScan captured id') = (w, Rejected TypeError)) /\
  (Array_filter id' captured = None <->
   (forall elements, captured = JArray elements -> JNull ∈ elements)).
Proof.
  split; [| split; [| split]].
  - intros items ->. exists (filter (fun item => id item <> id') items).
    split; [apply run_removeScan |].
    split; [apply filter_id_gone |].
    split; [apply filter_id_count |].
    split; [apply filter_id_present |].
    split; [apply filter_id_absent |].
    intros h' w'. rewrite run_removeScan. cbn [fst].
    rewrite history_after_save. cbn [set_history history].
    by rewrite filter_id_absent by apply filter_id_gone.
  - intros kept Hk. rewrite (run_removeScan_value h w captured kept id' Hk).
    cbn [fst snd]. rewrite history_after_save_value.
    split; [done |]. split; [done |].
    destruct captured; try discriminate Hk.
    by apply (filter_elements_kept id' l kept).
  - apply run_removeScan_TypeError.
  - apply Array_filter_None.
Qed.

Lemma removeScan_removes_witness :
  let a := {| id := lit "a"; data := lit "one"; type := text; timestamp := 1 |} in
  let b := {| id := lit "b"; data := lit "two"; type := text; timestamp := 2 |} in
  let h := {| uuid := []; now := 0; read_error := None; write_error := None;
              stringify_other := fun _ => [] |} in
  (lit "a" ∈ (id <$> [b; a]) /\ NoDup (id <$> [b; a]) /\
   exists updated,
     history (fst (run h (mount ∅) (removeScan (items_value [b; a]) (lit "a"))))
     = items_value updated /\
     S (length updated) = length [b; a]) /\
  ((lit "c" ∉ (id <$> [b; a])) /\
   history (fst (run h (mount ∅) (removeScan (items_value [b; a]) (lit "c"))))
   = items_value [b; a]).
Proof.
  cbv zeta.
  set (a := {| id := lit "a"; data := lit "one"; type := text; timestamp := 1 |}).
  set (b := {| id := lit "b"; data := lit "two"; type := text; timestamp := 2 |}).
  set (h := {| uuid := []; now := 0; read_error := None; write_error := None;
               stringify_other := fun _ => [] |}).
  assert (Hin : lit "a" ∈ (id <$> [b; a])) by (right; left).
  assert (Hnd : NoDup (id <$> [b; a])).
  { apply NoDup_cons. split; [| apply NoDup_singleton].
    intros Hb%list_elem_of_singleton. discriminate Hb. }
  assert (Hout : lit "c" ∉ (id <$> [b; a])).
  { intros Hc. apply elem_of_cons in Hc as [Hc | Hc]; [discriminate Hc |].
    apply list_elem_of_singleton in Hc. discriminate Hc. }
  destruct (proj1 (removeScan_removes h (mount ∅) (items_value [b; a]) (lit "a"))
              [b; a] eq_refl)
    as (u1 & Hrun1 & _ & _ & Hlen1 & _ & _).
  destruct (proj1 (removeScan_removes h (mount ∅) (items_value [b; a]) (lit "c"))
              [b; a] eq_refl)
    as (u2 & Hrun2 & _ & _ & _ & Hsame2 & _).
  split.
  - split; [exact Hin |]. split; [exact Hnd |]. exists u1. split.
    + rewrite Hrun1. cbn [fst]. by rewrite history_after_save.
    + exact (Hlen1 Hin Hnd).
  - split; [exact Hout |]. rewrite Hrun2, (Hsame2 Hout). cbn [fst].
    by rewrite history_after_save.
Defined.

(** C5 as stated fails. A snapshot in which two records share an identifier
    loads as it is, and [remove] of that identifier makes the collection two
    shorter. And on the state [null], which holds no record with the
    identifier, [remove] raises an error. *)
Lemma removeScan_removes_counterexample :
  let h := {| uuid := []; now := 0; read_error := None; write_error := None;
              stringify_other := fun _ => [] |} in
  let a := {| id := lit "a"; data := lit "one"; type := text; timestamp := 1 |} in
  let a' := {| id := lit "a"; data := lit "two"; type := text; timestamp := 2 |} in
  (let w := fst (run h (mount {[ STORAGE_KEY := JSON_stringify [a'; a] ]})
                   loadHistory) in
   history w = items_value [a'; a] /\
   lit "a" ∈ (id <$> [a'; a]) /\
   history (fst (run h w (removeScan (history w) (lit "a")))) = items_value []) /\
  (let w := fst (run h (mount {[ STORAGE_KEY := lit "null" ]}) loadHistory) in
   history w = JNull /\
   run h w (removeScan (history w) (lit "a")) = (w, Rejected TypeError)).
Proof.
  cbv zeta. split.
  - assert (Hw : history (fst (run {| uuid := []; now := 0; read_error := None;
                                      write_error := None;
                                      stringify_other := fun _ => [] |}
                                (mount {[ STORAGE_KEY :=
                                            JSON_stringify
                                              [{| id := lit "a"; data := lit "two";
                                                  type := text; timestamp := 2 |};
                                               {| id := lit "a"; data := lit "one";
                                                  type := text; timestamp := 1 |}] ]})
                                loadHistory))
                 = items_value [{| id := lit "a"; data := lit "two";
                                   type := text; timestamp := 2 |};
                                {| id := lit "a"; data := lit "one";
                                   type := text; timestamp := 1 |}]).
    { vm_compute. reflexivity. }
    split; [exact Hw |]. split; [left |].
    rewrite Hw, run_removeScan. cbn [fst]. by rewrite history_after_save.
  - by split.
Qed.

(** The records kept are the largest part of the history, in order, that
    avoids the identifier. *)
Lemma sublist_filter_max (P : ScanItem -> Prop) `{!forall it, Decision (P it)}
    (l items : list ScanItem) :
  l `sublist_of` items -> Forall P l -> l `sublist_of` filter P items.
Proof.
  induction 1 as [|it l1 l2 _ IH|it l1 l2 _ IH]; intros Hl.
  - done.
  - apply Forall_cons in Hl as [Hit Hl].
    rewrite filter_cons_True by done. by apply sublist_skip, IH.
  - destruct (decide (P it)).
    + rewrite filter_cons_True by done. by apply sublist_cons, IH.
    + rewrite filter_cons_False by done. by apply IH.
Qed.

(** C10. [remove(id)] keeps every record whose identifier differs from the
    argument, each as it was, and in the order they had: the new collection is
    a sub-sequence of the old one, holds exactly the old records with another
    identifier, and every sub-sequence of the old collection that avoids the
    identifier is a sub-sequence of the new one. *)
Theorem removeScan_keeps_the_others h w items id' :
  exists updated,
    history (fst (run h w (removeScan (items_value items) id')))
    = items_value updated /\
    updated `sublist_of` items /\
    (forall item, item ∈ updated <-> item ∈ items /\ id item <> id') /\
    (forall l, l `sublist_of` items ->
               Forall (fun item => id item <> id') l ->
               l `sublist_of` updated).
Proof.
  exists (filter (fun item => id item <> id') items). rewrite run_removeScan.
  cbn [fst]. rewrite history_after_save. cbn [set_history history].
  split; [done |].
  split; [apply sublist_filter |].
  split.
  - intros item. rewrite list_elem_of_filter. tauto.
  - intros l. apply sublist_filter_max.
Qed.

Lemma removeScan_keeps_the_others_witness :
  let a := {| id := lit "a"; data := lit "one"; type := text; timestamp := 1 |} in
  let b := {| id := lit "b"; data := lit "two"; type := text; timestamp := 2 |} in
  let c := {| id := lit "c"; data := lit "3"; type := text; timestamp := 3 |} in
  let h := {| uuid := []; now := 0; read_error := None; write_error := None;
              stringify_other := fun _ => [] |} in
  exists updated,
    history (fst (run h (mount ∅) (removeScan (items_value [c; b; a]) (lit "b"))))
    = items_value updated /\
    [c; a] `sublist_of` updated.
Proof.
  cbv zeta.
  destruct (removeScan_keeps_the_others
              {| uuid := []; now := 0; read_error := None; write_error := None;
              stringify_other := fun _ => [] |}
              (mount ∅)
              [{| id := lit "c"; data := lit "3"; type := text; timestamp := 3 |};
               {| id := lit "b"; data := lit "two"; type := text; timestamp := 2 |};
               {| id := lit "a"; data := lit "one"; type := text; timestamp := 1 |}]
              (lit "b")) as (updated & Hrun & _ & _ & Hmax).
  exists updated. split; [exact Hrun |]. apply Hmax.
  - apply sublist_skip, sublist_cons, sublist_skip, sublist_nil.
  - repeat constructor; intros Hid; discriminate Hid.
Defined.

(** C6. [clear()] leaves the collection empty whatever it held, and a second
    [clear()] leaves the same in-memory state as the first; when the writes
    succeed, the whole state, storage included, is the same. *)
Theorem clearHistory_empties h1 h2 w :
  let once := fst (run h1 w clearHistory) in
  let twice := fst (run h2 once clearHistory) in
  snd (run h1 w clearHistory) = Fulfilled tt /\
  history once = items_value [] /\
  history twice = history once /\
  isLoading twice = isLoading once /\
  (write_error h1 = None -> write_error h2 = None -> twice = once).
Proof.
  cbn zeta. rewrite !run_clearHistory. cbn [fst snd].
  rewrite !history_after_save.
  do 3 (split; [done |]).
  split; [cbn [set_history isLoading]; by rewrite isLoading_after_save |].
  intros H1 H2. unfold after_save. rewrite H1, H2.
  unfold write_storage, set_history. cbn. f_equal. apply insert_insert_eq.
Qed.

Lemma clearHistory_empties_witness :
  let h := {| uuid := []; now := 0; read_error := None; write_error := None;
              stringify_other := fun _ => [] |} in
  let w := {| history := items_value [new_item h (lit "hello")];
              isLoading := false;
              storage := {[ STORAGE_KEY := JSON_stringify [new_item h (lit "hello")] ]};
              console := [] |} in
  write_error h = None /\
  fst (run h (fst (run h w clearHistory)) clearHistory) = fst (run h w clearHistory).
Proof.
  cbv zeta. split; [reflexivity |].
  refine (proj2 (proj2 (proj2 (proj2 (clearHistory_empties _ _ _)))) _ _);
    reflexivity.
Defined.

End Mutations.

Section Loading.

Implicit Types (h : Host) (w : World) (items : list ScanItem)
  (store : gmap jsstring jsstring).

Lemma JSON_parse_empty : JSON_parse [] = None.
Proof. reflexivity. Qed.

Lemma run_loadHistory h w :
  snd (run h w loadHistory) = Fulfilled tt /\
  isLoading (fst (run h w loadHistory)) = false /\
  storage (fst (run h w loadHistory)) = storage w /\
  history (fst (run h w loadHistory))
  = default (history w) (loaded_value h (storage w)).
Proof.
  unfold loadHistory, loaded_value. simpl.
  destruct (read_error h) as [e |]; [done |]. simpl.
  destruct (storage w !! STORAGE_KEY) as [[|c s] |]; try done. simpl.
  unfold JSON_parse_or_throw.
  by destruct (JSON_parse (c :: s)) as [v |].
Qed.

Lemma history_loaded_snapshot h store items :
  read_error h = None ->
  store !! STORAGE_KEY = Some (JSON_stringify items) ->
  history (fst (run h (mount store) loadHistory)) = items_value items.
Proof.
  intros Hread Hstore.
  destruct (run_loadHistory h (mount store)) as (_ & _ & _ & ->).
  unfold loaded_value. cbn [mount storage].
  rewrite Hread, Hstore. cbn [mbind option_bind].
  by rewrite JSON_parse_stringify.
Qed.

(** C4, amended. Whatever the storage holds at startup, [initialize] returns
    normally and sets the readiness flag. When the snapshot is read and is
    valid JSON text, the value it parses to becomes the collection, as it is
    and without a check of its shape; the snapshot of a collection of records
    gives back that collection. When the snapshot is absent, is the empty
    string, cannot be read or is not valid JSON text, the collection starts
    empty. *)
Theorem loadHistory_fails_open h store :
  let w := fst (run h (mount store) loadHistory) in
  snd (run h (mount store) loadHistory) = Fulfilled tt /\
  isLoading w = false /\
  storage w = store /\
  history w = default (items_value []) (loaded_value h store) /\
  (forall items,
     read_error h = None ->
     store !! STORAGE_KEY = Some (JSON_stringify items) ->
     history w = items_value items).
Proof.
  cbn zeta.
  destruct (run_loadHistory h (mount store)) as (Hr & Hl & Hs & Hh).
  do 4 (split; [done |]). apply history_loaded_snapshot.
Qed.

Lemma loadHistory_fails_open_witness :
  let h := {| uuid := []; now := 0; read_error := None; write_error := None;
              stringify_other := fun _ => [] |} in
  let item := {| id := lit "3f2a"; data := lit "https://example.com";
                 type := url; timestamp := 1700000000000 |} in
  let store := {[ STORAGE_KEY := JSON_stringify [item] ]} in
  read_error h = None /\
  store !! STORAGE_KEY = Some (JSON_stringify [item]) /\
  history (fst (run h (mount store) loadHistory)) = items_value [item].
Proof.
  cbv zeta. split; [reflexivity |]. split; [apply lookup_singleton_eq |].
  refine (proj2 (proj2 (proj2 (proj2 (loadHistory_fails_open _ _)))) _ _ _).
  - reflexivity.
  - apply lookup_singleton_eq.
Defined.

(** C4 as stated fails on a snapshot that is valid JSON text but not a list
    of records: it is neither decoded into a collection of records nor
    replaced by the empty collection. *)
Lemma loadHistory_fails_open_counterexample :
  let h := {| uuid := []; now := 0; read_error := None; write_error := None;
              stringify_other := fun _ => [] |} in
  let store := {[ STORAGE_KEY := lit "[1]" ]} in
  let w := fst (run h (mount store) loadHistory) in
  (~ exists items, JSON_parse (lit "[1]") = Some (items_value items)) /\
  history w = JArray [JNumber (num_of_Z 1)] /\
  history w <> items_value [] /\
  (~ exists items, history w = items_value items).
Proof.
  cbv zeta.
  set (h := {| uuid := []; now := 0; read_error := None; write_error := None;
              stringify_other := fun _ => [] |}).
  set (store := {[ STORAGE_KEY := lit "[1]" ]} : gmap jsstring jsstring).
  assert (Hp : JSON_parse (lit "[1]") = Some (JArray [JNumber (num_of_Z 1)]))
    by reflexivity.
  assert (Hno : forall items, JArray [JNumber (num_of_Z 1)] <> items_value items).
  { intros [|it [|it' items]]; discriminate. }
  assert (Hh : history (fst (run h (mount store) loadHistory))
               = JArray [JNumber (num_of_Z 1)]).
  { destruct (run_loadHistory h (mount store)) as (_ & _ & _ & ->).
    unfold loaded_value. cbn [mount storage h read_error]. subst store.
    rewrite lookup_singleton_eq. cbn [mbind option_bind]. by rewrite Hp. }
  split; [| split; [exact Hh | split]].
  - intros (items & Hitems). rewrite Hp in Hitems.
    apply (Hno items). congruence.
  - rewrite Hh. apply Hno.
  - intros (items & Hitems). rewrite Hh in Hitems. by apply (Hno items).
Qed.

(** C7. Serializing a collection of scan records and deserializing the
    result gives a collection equal to the original, with the same
    identifiers, payloads, categories and time stamps in the same order: the
    text that [JSON.stringify] writes parses to the value of the collection,
    that value determines the collection, and a collection saved by one
    session is the history that the next session loads. *)
Theorem save_then_load_roundtrip :
  (forall items, JSON_parse (JSON_stringify items) = Some (items_value items)) /\
  (forall items items', items_value items' = items_value items -> items' = items) /\
  (forall h1 h2 w items,
     write_error h1 = None -> read_error h2 = None ->
     let saved := storage (fst (run h1 w (saveHistory (items_value items)))) in
     history (fst (run h2 (mount saved) loadHistory)) = items_value items).
Proof.
  split; [apply JSON_parse_stringify |].
  split; [intros items items'; apply items_value_inj |].
  intros h1 h2 w items Hw Hr. cbn zeta.
  apply history_loaded_snapshot; [done |].
  rewrite run_saveHistory. cbn [fst]. unfold after_save. rewrite Hw.
  apply lookup_insert_eq.
Qed.

Lemma save_then_load_roundtrip_witness :
  let h := {| uuid := []; now := 0; read_error := None; write_error := None;
              stringify_other := fun _ => [] |} in
  let item1 := {| id := lit "3f2a"; data := lit "https://example.com";
                  type := url; timestamp := 1700000000000 |} in
  let item2 := {| id := lit "9c1d"; data := [0x22; 0x5C; 0x0A; 0xD83D; 0xDE00; 0xDC00];
                  type := text; timestamp := 1700000000001 |} in
  write_error h = None /\ read_error h = None /\
  history (fst (run h (mount (storage (fst (run h (mount ∅)
                                              (saveHistory (items_value [item2; item1]))))))
                  loadHistory))
  = items_value [item2; item1].
Proof.
  cbv zeta. split; [reflexivity |]. split; [reflexivity |].
  refine (proj2 (proj2 save_then_load_roundtrip) _ _ _ _ _ _); reflexivity.
Defined.

End Loading.

(** ** More on the classifier *)

Section ClassifierMore.

Implicit Types (s t data lead trail : jsstring) (c : N).

Local Abbreviation is_ws := (fun c : N => isWhiteSpace c = true).

Lemma trim_padding lead s trail :
  Forall is_ws lead -> Forall is_ws trail -> trim (lead ++ s ++ trail) = trim s.
Proof.
  intros Hlead Htrail. symmetry. apply trimmed_of_unique.
  destruct (trim_trimmed_of s) as (l & t & Hs & Hl & Ht & Hends).
  exists (lead ++ l), (t ++ trail). split.
  - rewrite Hs at 1. by rewrite <- !app_assoc.
  - split; [by apply Forall_app |]. split; [by apply Forall_app | done].
Qed.

(** X1. White space around a payload does not change its tag: a string
    padded on either side with white-space code units is classified as the
    string itself. *)
Theorem detectScanType_padding lead s trail :
  Forall (fun c => isWhiteSpace c = true) lead ->
  Forall (fun c => isWhiteSpace c = true) trail ->
  detectScanType (lead ++ s ++ trail) = detectScanType s.
Proof.
  intros Hlead Htrail. unfold detectScanType. by rewrite trim_padding.
Qed.

Lemma detectScanType_padding_witness :
  Forall (fun c => isWhiteSpace c = true) [0x0A; 0x20] /\
  Forall (fun c => isWhiteSpace c = true) [0x09] /\
  detectScanType ([0x0A; 0x20] ++ lit "tel:+123" ++ [0x09])
  = detectScanType (lit "tel:+123").
Proof.
  assert (H1 : Forall (fun c => isWhiteSpace c = true) [0x0A; 0x20])
    by (repeat constructor).
  assert (H2 : Forall (fun c => isWhiteSpace c = true) [0x09])
    by (repeat constructor).
  split; [exact H1 |]. split; [exact H2 |].
  exact (detectScanType_padding _ (lit "tel:+123") _ H1 H2).
Defined.

(** X2. The tag [unknown] is given to the strings of white space only, the
    empty string among them, and to no other string. *)
Theorem detectScanType_unknown_iff data :
  detectScanType data = unknown <->
  Forall (fun c => isWhiteSpace c = true) data.
Proof.
  split; [| apply detectScanType_all_ws].
  intros H. apply detectScanType_iff in H.
  inversion H as [| | | | |? ? ? ? Htext].
  assert (Ht : trim data = []).
  { unfold text_rule in Htext. by destruct (trim data); [| destruct Htext]. }
  destruct (trim_trimmed_of data) as (l & t & Hs & Hl & Htr & _).
  rewrite Ht in Hs. rewrite Hs. by apply Forall_app.
Qed.

(** Letter case. *)

Lemma Canonicalize_cases c :
  Canonicalize c = c \/ (0x61 <= c <= 0x7A /\ Canonicalize c = c - 0x20).
Proof.
  unfold Canonicalize. destruct (_ && _) eqn:E; [| by left].
  apply andb_true_iff in E as [E1%N.leb_le E2%N.leb_le]. right. lia.
Qed.

Lemma Canonicalize_idem c : Canonicalize (Canonicalize c) = Canonicalize c.
Proof.
  destruct (Canonicalize_cases c) as [H | [Hc H]]; [by rewrite !H |].
  rewrite H. unfold Canonicalize. destruct (_ && _) eqn:E; [| done].
  apply andb_true_iff in E as [E1%N.leb_le E2%N.leb_le]. lia.
Qed.

Lemma isWhiteSpace_letter c :
  0x41 <= c <= 0x7A -> isWhiteSpace c = false.
Proof.
  intros Hc. unfold isWhiteSpace.
  rewrite !orb_false_iff, andb_false_iff, !N.eqb_neq, !N.leb_gt. lia.
Qed.

Lemma isDigit_letter c : 0x41 <= c <= 0x7A -> isDigit c = false.
Proof.
  intros Hc. unfold isDigit. rewrite andb_false_iff, !N.leb_gt. lia.
Qed.

Lemma eqb_letter a c :
  a < 0x41 -> 0x41 <= c <= 0x7A -> (c =? a) = false /\ (a =? c) = false.
Proof. intros Ha Hc. rewrite !N.eqb_neq. lia. Qed.

Lemma isWhiteSpace_Canonicalize c : isWhiteSpace (Canonicalize c) = isWhiteSpace c.
Proof.
  destruct (Canonicalize_cases c) as [-> | [Hc ->]]; [done |].
  rewrite !isWhiteSpace_letter; [done | lia..].
Qed.

Lemma isDigit_Canonicalize c : isDigit (Canonicalize c) = isDigit c.
Proof.
  destruct (Canonicalize_cases c) as [-> | [Hc ->]]; [done |].
  rewrite !isDigit_letter; [done | lia..].
Qed.

Lemma eqb_Canonicalize a c : a < 0x41 -> (a =? Canonicalize c) = (a =? c).
Proof.
  intros Ha. destruct (Canonicalize_cases c) as [-> | [Hc ->]]; [done |].
  destruct (eqb_letter a c Ha) as [_ ->]; [lia |].
  by destruct (eqb_letter a (c - 0x20) Ha) as [_ ->]; [lia |].
Qed.

Lemma deriv_Canonicalize r c :
  blind_to_case r -> deriv (Canonicalize c) r = deriv c r.
Proof.
  induction r as [| |p|r1 IH1 r2 IH2|r1 IH1 r2 IH2|r IH]; simpl; try done.
  - by intros ->.
  - intros [H1 H2]. by rewrite IH1, IH2.
  - intros [H1 H2]. by rewrite IH1, IH2.
  - intros H. by rewrite IH.
Qed.

Lemma deriv_blind_to_case r c : blind_to_case r -> blind_to_case (deriv c r).
Proof.
  induction r as [| |p|r1 IH1 r2 IH2|r1 IH1 r2 IH2|r IH]; simpl; try done.
  - intros _. by destruct (p c).
  - intros [H1 H2]. destruct (nullable r1); simpl; auto.
  - intros [H1 H2]. auto.
  - intros H. auto.
Qed.

Lemma full_match_Canonicalize r s :
  blind_to_case r -> full_match r (Canonicalize <$> s) = full_match r s.
Proof.
  revert r. induction s as [|c s IH]; intros r Hr; [done |].
  rewrite fmap_cons. cbn [full_match]. rewrite deriv_Canonicalize by done.
  by apply IH, deriv_blind_to_case.
Qed.

Lemma prefix_match_Canonicalize r s :
  blind_to_case r -> prefix_match r (Canonicalize <$> s) = prefix_match r s.
Proof.
  revert r. induction s as [|c s IH]; intros r Hr; [done |].
  rewrite fmap_cons. cbn [prefix_match]. rewrite deriv_Canonicalize by done.
  by rewrite IH by by apply deriv_blind_to_case.
Qed.

Lemma test_Canonicalize re s :
  blind_to_case (body re) -> test re (Canonicalize <$> s) = test re s.
Proof.
  intros Hre. unfold test. destruct (to_end re).
  - by apply full_match_Canonicalize.
  - by apply prefix_match_Canonicalize.
Qed.

Lemma blind_word w : blind_to_case (Word ChrI w).
Proof.
  induction w as [|a w IH]; simpl; [done |]. split; [| done].
  intros c. by rewrite Canonicalize_idem.
Qed.

Lemma blind_notSpaceNorAt c : notSpaceNorAt (Canonicalize c) = notSpaceNorAt c.
Proof.
  unfold notSpaceNorAt. rewrite isWhiteSpace_Canonicalize.
  by rewrite (N.eqb_sym _ 0x40), eqb_Canonicalize, (N.eqb_sym 0x40).
Qed.

Lemma blind_isPhoneChar c : isPhoneChar (Canonicalize c) = isPhoneChar c.
Proof.
  unfold isPhoneChar. rewrite isDigit_Canonicalize, isWhiteSpace_Canonicalize.
  rewrite !(N.eqb_sym (Canonicalize c)), !eqb_Canonicalize by done.
  by rewrite !(N.eqb_sym c).
Qed.

Lemma literals_blind_to_case :
  blind_to_case (body re_http) /\ blind_to_case (body re_www) /\
  blind_to_case (body re_mailto) /\ blind_to_case (body re_email) /\
  blind_to_case (body re_tel) /\ blind_to_case (body re_phone) /\
  blind_to_case (body re_wifi).
Proof.
  pose proof blind_word. pose proof blind_notSpaceNorAt.
  pose proof blind_isPhoneChar. pose proof isDigit_Canonicalize.
  assert (forall a c, a < 0x41 -> (a =? Canonicalize c) = (a =? c))
    by (intros; by apply eqb_Canonicalize).
  assert (forall c, (Canonicalize (Canonicalize c) =? Canonicalize 0x73)
                    = (Canonicalize c =? Canonicalize 0x73))
    by (intros; by rewrite Canonicalize_idem).
  cbn [body re_http re_www re_mailto re_email re_tel re_phone re_wifi
       blind_to_case Opt Plus Chr ChrI AtLeast].
  repeat split; auto;
    try (intros c; by apply eqb_Canonicalize);
    intros c; unfold ChrI; cbn [blind_to_case]; intros; by rewrite Canonicalize_idem.
Qed.

Lemma trimStart_Canonicalize s :
  trimStart (Canonicalize <$> s) = Canonicalize <$> trimStart s.
Proof.
  induction s as [|c s IH]; [done |]. rewrite fmap_cons. cbn [trimStart].
  rewrite isWhiteSpace_Canonicalize. destruct (isWhiteSpace c); [done |].
  by rewrite fmap_cons.
Qed.

Lemma trim_Canonicalize s : trim (Canonicalize <$> s) = Canonicalize <$> trim s.
Proof.
  unfold trim, trimEnd.
  by rewrite trimStart_Canonicalize, <- fmap_reverse, trimStart_Canonicalize,
    fmap_reverse.
Qed.

Lemma detectScanType_Canonicalize data :
  detectScanType (Canonicalize <$> data) = detectScanType data.
Proof.
  destruct literals_blind_to_case as (H1 & H2 & H3 & H4 & H5 & H6 & H7).
  unfold detectScanType. cbv zeta. rewrite trim_Canonicalize.
  by rewrite !test_Canonicalize, length_fmap.
Qed.

(** X3. The tag does not depend on the case of the letters [a] to [z]: two
    payloads that differ only there get the same tag. *)
Theorem detectScanType_ignores_case data data' :
  Canonicalize <$> data = Canonicalize <$> data' ->
  detectScanType data = detectScanType data'.
Proof.
  intros H.
  by rewrite <- (detectScanType_Canonicalize data), H,
    detectScanType_Canonicalize.
Qed.

Lemma detectScanType_ignores_case_witness :
  Canonicalize <$> lit "MailTo:Ann@Site.Org" = Canonicalize <$> lit "mailto:ann@site.org" /\
  detectScanType (lit "MailTo:Ann@Site.Org") = detectScanType (lit "mailto:ann@site.org").
Proof.
  assert (H : Canonicalize <$> lit "MailTo:Ann@Site.Org"
              = Canonicalize <$> lit "mailto:ann@site.org") by reflexivity.
  split; [exact H | exact (detectScanType_ignores_case _ _ H)].
Defined.

End ClassifierMore.

(** ** More on the history store *)

Section StoreMore.

Implicit Types (h : Host) (w : World) (items : list ScanItem) (x : jsstring).

Lemma storage_after_save h items w :
  write_error h = None ->
  storage (after_save h items w) !! STORAGE_KEY = Some (JSON_stringify items).
Proof.
  intros Hw. unfold after_save. rewrite Hw. apply lookup_insert_eq.
Qed.

(** X4. Removing the record that [addScan] has just returned gives back the
    history from before the scan, provided the identifier that the host handed
    out was not in use. *)
Theorem addScan_then_removeScan h1 h2 w items x :
  uuid h1 ∉ (id <$> items) ->
  exists newItem,
    snd (run h1 w (addScan (items_value items) x)) = Fulfilled newItem /\
    history (fst (run h2 (fst (run h1 w (addScan (items_value items) x)))
                    (removeScan (items_value (newItem :: items)) (id newItem))))
    = items_value items.
Proof.
  intros Hfresh. exists (new_item h1 x). rewrite run_addScan. cbn [fst snd].
  split; [done |]. rewrite run_removeScan. cbn [fst].
  rewrite history_after_save. cbn [set_history history new_item id].
  rewrite filter_cons_False by (by intros ?).
  by rewrite filter_id_absent.
Qed.

Lemma addScan_then_removeScan_witness :
  let h1 := {| uuid := lit "b"; now := 2; read_error := None; write_error := None;
              stringify_other := fun _ => [] |} in
  let h2 := {| uuid := lit "c"; now := 3; read_error := None; write_error := None;
              stringify_other := fun _ => [] |} in
  let a := {| id := lit "a"; data := lit "one"; type := text; timestamp := 1 |} in
  (uuid h1 ∉ (id <$> [a])) /\
  exists newItem,
    snd (run h1 (mount ∅) (addScan (items_value [a]) (lit "two"))) = Fulfilled newItem /\
    history (fst (run h2 (fst (run h1 (mount ∅) (addScan (items_value [a]) (lit "two"))))
                    (removeScan (items_value [newItem; a]) (id newItem))))
    = items_value [a].
Proof.
  cbv zeta.
  assert (H : lit "b" ∉ (id <$> [{| id := lit "a"; data := lit "one";
                                    type := text; timestamp := 1 |}])).
  { intros Hb%list_elem_of_singleton. discriminate Hb. }
  split; [exact H |].
  exact (addScan_then_removeScan
           {| uuid := lit "b"; now := 2; read_error := None; write_error := None;
              stringify_other := fun _ => [] |}
           {| uuid := lit "c"; now := 3; read_error := None; write_error := None;
              stringify_other := fun _ => [] |}
           (mount ∅) _ (lit "two") H).
Defined.

(** X5. After [addScan], [removeScan] or [clearHistory] with a successful
    write, the stored snapshot parses to the collection that is in memory,
    whatever the storage held before. *)
Theorem mutation_persists h w :
  write_error h = None ->
  (forall items x,
     let w' := fst (run h w (addScan (items_value items) x)) in
     storage w' !! STORAGE_KEY ≫= JSON_parse = Some (history w')) /\
  (forall items id',
     let w' := fst (run h w (removeScan (items_value items) id')) in
     storage w' !! STORAGE_KEY ≫= JSON_parse = Some (history w')) /\
  (let w' := fst (run h w clearHistory) in
   storage w' !! STORAGE_KEY ≫= JSON_parse = Some (history w')).
Proof.
  intros Hw. cbn zeta. split; [| split].
  - intros items x. rewrite run_addScan. cbn [fst].
    rewrite storage_after_save, history_after_save by done.
    cbn [mbind option_bind set_history history]. apply JSON_parse_stringify.
  - intros items id'. rewrite run_removeScan. cbn [fst].
    rewrite storage_after_save, history_after_save by done.
    cbn [mbind option_bind set_history history]. apply JSON_parse_stringify.
  - rewrite run_clearHistory. cbn [fst].
    rewrite storage_after_save, history_after_save by done.
    cbn [mbind option_bind set_history history]. apply JSON_parse_stringify.
Qed.

Lemma mutation_persists_witness :
  let h := {| uuid := lit "b"; now := 2; read_error := None; write_error := None;
              stringify_other := fun _ => [] |} in
  let w := {| history := items_value []; isLoading := false;
              storage := {[ STORAGE_KEY := lit "stale" ]}; console := [] |} in
  write_error h = None /\
  storage (fst (run h w (addScan (items_value []) (lit "two")))) !! STORAGE_KEY ≫= JSON_parse
  = Some (history (fst (run h w (addScan (items_value []) (lit "two"))))).
Proof.
  cbv zeta. split; [reflexivity |].
  exact (proj1 (mutation_persists
                  {| uuid := lit "b"; now := 2; read_error := None;
                     write_error := None;
              stringify_other := fun _ => [] |}
                  {| history := items_value []; isLoading := false;
                     storage := {[ STORAGE_KEY := lit "stale" ]}; console := [] |}
                  eq_refl) [] (lit "two")).
Defined.

(** X6. [addScan] builds on the history that it has captured, not on the
    current state: of two calls made with the same captured history, the
    second overwrites the first, and the record of the first call is in the
    final history only if the second call has captured the updated one. *)
Theorem addScan_same_capture h1 h2 w items x1 x2 :
  uuid h1 ∉ (id <$> items) -> uuid h1 <> uuid h2 ->
  let w1 := fst (run h1 w (addScan (items_value items) x1)) in
  (exists L, history (fst (run h2 w1 (addScan (items_value items) x2))) = items_value L /\
             length L = S (length items) /\ uuid h1 ∉ (id <$> L)) /\
  (exists L, history (fst (run h2 w1 (addScan (items_value (new_item h1 x1 :: items)) x2)))
             = items_value L /\
             length L = S (S (length items)) /\ uuid h1 ∈ (id <$> L)).
Proof.
  intros Hfresh Hne. cbn zeta. split.
  - exists (new_item h2 x2 :: items). rewrite !run_addScan. cbn [fst].
    rewrite history_after_save. split; [done |]. split; [done |].
    rewrite fmap_cons, not_elem_of_cons. done.
  - exists (new_item h2 x2 :: new_item h1 x1 :: items). rewrite !run_addScan.
    cbn [fst]. rewrite history_after_save. split; [done |]. split; [done |].
    rewrite !fmap_cons. right. left.
Qed.

Lemma addScan_same_capture_witness :
  let h1 := {| uuid := lit "b"; now := 2; read_error := None; write_error := None;
              stringify_other := fun _ => [] |} in
  let h2 := {| uuid := lit "c"; now := 3; read_error := None; write_error := None;
              stringify_other := fun _ => [] |} in
  (uuid h1 ∉ (id <$> @nil ScanItem)) /\ uuid h1 <> uuid h2 /\
  exists L,
    history (fst (run h2 (fst (run h1 (mount ∅) (addScan (items_value []) (lit "one"))))
                    (addScan (items_value []) (lit "two")))) = items_value L /\
    length L = 1%nat /\ (uuid h1 ∉ (id <$> L)).
Proof.
  cbv zeta.
  assert (H1 : lit "b" ∉ (id <$> @nil ScanItem)) by apply not_elem_of_nil.
  assert (H2 : lit "b" <> lit "c") by discriminate.
  split; [exact H1 |]. split; [exact H2 |].
  exact (proj1 (addScan_same_capture
                  {| uuid := lit "b"; now := 2; read_error := None;
                     write_error := None;
              stringify_other := fun _ => [] |}
                  {| uuid := lit "c"; now := 3; read_error := None;
                     write_error := None;
              stringify_other := fun _ => [] |}
                  (mount ∅) [] (lit "one") (lit "two") H1 H2)).
Defined.

(** X7. The mutations keep the identifiers of the collection distinct:
    [removeScan] and [clearHistory] always, [addScan] when the identifier that
    the host hands out is not in use. *)
Theorem unique_ids_invariant h w items :
  NoDup (id <$> items) ->
  (forall x, uuid h ∉ (id <$> items) ->
     exists L, history (fst (run h w (addScan (items_value items) x))) = items_value L /\
               NoDup (id <$> L)) /\
  (forall id',
     exists L, history (fst (run h w (removeScan (items_value items) id'))) = items_value L /\
               NoDup (id <$> L)) /\
  (exists L, history (fst (run h w clearHistory)) = items_value L /\
             NoDup (id <$> L)).
Proof.
  intros Hnd. destruct (unique_ids_kept items Hnd) as [Hrem Hadd].
  split; [| split].
  - intros x Hfresh. exists (new_item h x :: items). rewrite run_addScan.
    cbn [fst]. rewrite history_after_save. split; [done | by apply Hadd].
  - intros id'. exists (filter (fun item => id item <> id') items).
    rewrite run_removeScan. cbn [fst]. rewrite history_after_save.
    split; [done | apply Hrem].
  - exists []. rewrite run_clearHistory. cbn [fst]. rewrite history_after_save.
    split; [done | apply NoDup_nil_2].
Qed.

Lemma unique_ids_invariant_witness :
  let h := {| uuid := lit "b"; now := 2; read_error := None; write_error := None;
              stringify_other := fun _ => [] |} in
  let a := {| id := lit "a"; data := lit "one"; type := text; timestamp := 1 |} in
  NoDup (id <$> [a]) /\ (uuid h ∉ (id <$> [a])) /\
  exists L, history (fst (run h (mount ∅) (addScan (items_value [a]) (lit "two")))) = items_value L /\
            NoDup (id <$> L).
Proof.
  cbv zeta.
  assert (H1 : NoDup (id <$> [{| id := lit "a"; data := lit "one";
                                 type := text; timestamp := 1 |}]))
    by apply NoDup_singleton.
  assert (H2 : lit "b" ∉ (id <$> [{| id := lit "a"; data := lit "one";
                                     type := text; timestamp := 1 |}])).
  { intros Hb%list_elem_of_singleton. discriminate Hb. }
  split; [exact H1 |]. split; [exact H2 |].
  exact (proj1 (unique_ids_invariant
                  {| uuid := lit "b"; now := 2; read_error := None;
                     write_error := None;
              stringify_other := fun _ => [] |} (mount ∅) _ H1) (lit "two") H2).
Defined.

Lemma storage_after_failed_save h items w e :
  write_error h = Some e -> storage (after_save h items w) = storage w.
Proof. intros Hw. unfold after_save. by rewrite Hw. Qed.

(** X16. A mutation whose write fails lives in memory only: the state has the
    new collection, and the next session starts from the snapshot that was
    stored before. *)
Theorem failed_write_lost_on_restart h h' w old e :
  write_error h = Some e ->
  read_error h' = None ->
  storage w !! STORAGE_KEY = Some (JSON_stringify old) ->
  (forall items x,
     let w1 := fst (run h w (addScan (items_value items) x)) in
     history w1 = items_value (new_item h x :: items) /\
     history (fst (run h' (mount (storage w1)) loadHistory)) = items_value old) /\
  (forall items id',
     let w1 := fst (run h w (removeScan (items_value items) id')) in
     history w1 = items_value (filter (fun item => id item <> id') items) /\
     history (fst (run h' (mount (storage w1)) loadHistory)) = items_value old) /\
  (let w1 := fst (run h w clearHistory) in
   history w1 = items_value [] /\
   history (fst (run h' (mount (storage w1)) loadHistory)) = items_value old).
Proof.
  intros Hw Hr Hold. cbn zeta. split; [| split].
  - intros items x. rewrite run_addScan. cbn [fst].
    rewrite history_after_save, (storage_after_failed_save _ _ _ e) by done.
    split; [done |]. by apply history_loaded_snapshot.
  - intros items id'. rewrite run_removeScan. cbn [fst].
    rewrite history_after_save, (storage_after_failed_save _ _ _ e) by done.
    split; [done |]. by apply history_loaded_snapshot.
  - rewrite run_clearHistory. cbn [fst].
    rewrite history_after_save, (storage_after_failed_save _ _ _ e) by done.
    split; [done |]. by apply history_loaded_snapshot.
Qed.

Lemma failed_write_lost_on_restart_witness :
  let h := {| uuid := lit "b"; now := 2; read_error := None;
              write_error := Some (HostError (lit "disk full"));
              stringify_other := fun _ => [] |} in
  let h' := {| uuid := lit "c"; now := 3; read_error := None;
               write_error := None;
              stringify_other := fun _ => [] |} in
  let w := {| history := items_value []; isLoading := false;
              storage := {[ STORAGE_KEY := JSON_stringify [] ]};
              console := [] |} in
  write_error h = Some (HostError (lit "disk full")) /\
  read_error h' = None /\
  storage w !! STORAGE_KEY = Some (JSON_stringify []) /\
  history (fst (run h w (addScan (items_value []) (lit "one"))))
  = items_value [new_item h (lit "one")] /\
  history (fst (run h' (mount (storage (fst (run h w (addScan (items_value []) (lit "one"))))))
                  loadHistory))
  = items_value [].
Proof.
  cbv zeta.
  assert (H : ({[ STORAGE_KEY := JSON_stringify [] ]} : gmap jsstring jsstring)
              !! STORAGE_KEY = Some (JSON_stringify [])) by apply lookup_singleton_eq.
  split; [reflexivity |]. split; [reflexivity |]. split; [exact H |].
  exact (proj1 (failed_write_lost_on_restart
                  {| uuid := lit "b"; now := 2; read_error := None;
                     write_error := Some (HostError (lit "disk full"));
              stringify_other := fun _ => [] |}
                  {| uuid := lit "c"; now := 3; read_error := None;
                     write_error := None;
              stringify_other := fun _ => [] |}
                  {| history := items_value []; isLoading := false;
                     storage := {[ STORAGE_KEY := JSON_stringify [] ]};
                     console := [] |}
                  [] (HostError (lit "disk full")) eq_refl eq_refl H)
           [] (lit "one")).
Defined.

End StoreMore.

(** ** Opening a scan *)

Section Opening.

Implicit Types (host : Linking) (data target : jsstring) (type : ScanType).

Lemma word_match_length (p w : jsstring) :
  Canonicalize <$> p = Canonicalize <$> w -> length p = length w.
Proof. intros H. apply (f_equal length) in H. by rewrite !length_fmap in H. Qed.

(** The model of [replace] is the removal of the match: a match of a word has
    the length of the word. *)
Lemma under_scheme_remove scheme data :
  under_scheme scheme data
    (scheme ++ remove_match {| body := Word ChrI scheme; to_end := false |}
                 (length scheme) data).
Proof.
  eexists. split; [done |]. unfold remove_match.
  destruct (test _ data) eqn:Ht.
  - apply test_word in Ht as (p & rest & -> & Hp). right. exists p.
    split; [| done]. f_equal.
    by rewrite <- (word_match_length _ _ Hp), drop_app_length.
  - left. split; [| done]. intros H%test_word. congruence.
Qed.

Lemma has_web_scheme_https data : has_web_scheme (lit "https://" ++ data).
Proof. right. by exists (lit "https://"), data. Qed.

Lemma open_scan_targets host data type c :
  c ∈ fst (open_scan host data type) ->
  link_target data type (call_target c).
Proof.
  destruct type; cbn [open_scan link_target]; try by intros ?%elem_of_nil.
  - assert (Ht : link_target data url
                   (if test re_http data then data else lit "https://" ++ data)).
    { cbn [link_target]. destruct (test re_http data) eqn:E.
      - apply test_re_http in E. split; [done | by left].
      - split; [apply has_web_scheme_https |]. right. split; [| done].
        intros H%test_re_http. congruence. }
    cbn [link_target] in Ht.
    destruct (canOpenURL_answer host _) as [[] | e]; cbn [fst];
      rewrite ?elem_of_cons; intros H;
      repeat (destruct H as [-> | H]; [exact Ht |]);
      by apply elem_of_nil in H.
  - cbn [fst]. intros ->%list_elem_of_singleton. cbn [call_target].
    apply (under_scheme_remove (lit "mailto:")).
  - cbn [fst]. intros ->%list_elem_of_singleton. cbn [call_target].
    apply (under_scheme_remove (lit "tel:")).
Qed.

(** X8. Whatever [handleOpen] of either screen passes to [Linking] carries a
    scheme: for a url the data itself when it begins with [http://] or
    [https://] in any letter case, and [https://] followed by the data
    otherwise; for an email and for a phone number [mailto:] and [tel:]
    followed by the data, without the scheme of the data if it begins with
    one. For the other types nothing is passed. *)
Theorem handleOpen_targets host :
  (forall item c,
     c ∈ fst (HistoryScreen.handleOpen host item) ->
     link_target (data item) (type item) (call_target c)) /\
  (forall s c,
     c ∈ fst (ScannerScreen.handleOpen host s) ->
     exists data type,
       ScannerScreen.lastScan s = Some (data, type) /\
       link_target data type (call_target c)).
Proof.
  split.
  - intros item c. apply open_scan_targets.
  - intros s c. unfold ScannerScreen.handleOpen.
    destruct (ScannerScreen.lastScan s) as [[data type] |].
    + intros H. exists data, type. split; [done |].
      exact (open_scan_targets host data type c H).
    + by intros ?%elem_of_nil.
Qed.

Lemma handleOpen_targets_witness :
  let host := {| canOpenURL_answer := fun _ => Fulfilled true;
                 openURL_answer := fun _ => Fulfilled tt |} in
  let item := {| id := lit "a"; data := lit "MAILTO:a@b.c"; type := email;
                 timestamp := 1 |} in
  openURL (lit "mailto:a@b.c") ∈ fst (HistoryScreen.handleOpen host item) /\
  link_target (data item) (type item) (lit "mailto:a@b.c").
Proof.
  cbv zeta.
  assert (H : openURL (lit "mailto:a@b.c")
              ∈ fst (HistoryScreen.handleOpen
                       {| canOpenURL_answer := fun _ => Fulfilled true;
                          openURL_answer := fun _ => Fulfilled tt |}
                       {| id := lit "a"; data := lit "MAILTO:a@b.c";
                          type := email; timestamp := 1 |})).
  { apply list_elem_of_singleton. reflexivity. }
  split; [exact H |].
  exact (proj1 (handleOpen_targets _) _ _ H).
Defined.

Lemma open_scan_offers host data type :
  offers_open type = true <-> fst (open_scan host data type) <> [].
Proof.
  destruct type; cbn [open_scan]; try done.
  cbv zeta. by destruct (canOpenURL_answer host _) as [[] | e].
Qed.

(** X9. A screen offers the open button for exactly the scans for which
    [handleOpen] asks [Linking] for something. *)
Theorem open_button_iff_request host :
  (forall item,
     offers_open (type item) = true <->
     fst (HistoryScreen.handleOpen host item) <> []) /\
  (forall s,
     (exists data type, ScannerScreen.lastScan s = Some (data, type) /\
                        offers_open type = true) <->
     fst (ScannerScreen.handleOpen host s) <> []).
Proof.
  split.
  - intros item. apply open_scan_offers.
  - intros s. unfold ScannerScreen.handleOpen.
    destruct (ScannerScreen.lastScan s) as [[data type] |].
    + rewrite <- (open_scan_offers host data type). split.
      * by intros (? & ? & [= <- <-] & H).
      * intros H. by exists data, type.
    + split; [by intros (? & ? & ? & _) | done].
Qed.

(** X10. [handleOpen] opens a url only after [canOpenURL] has answered [true]
    for the same target, and it asks [canOpenURL] for nothing but a url: an
    email or a phone number is opened unasked. It catches nothing: when a
    request is rejected, no further request is made and [handleOpen] is
    rejected with the same error. *)
Theorem handleOpen_asks_first host item :
  let calls := fst (HistoryScreen.handleOpen host item) in
  let result := snd (HistoryScreen.handleOpen host item) in
  (forall target,
     type item = url -> openURL target ∈ calls ->
     canOpenURL_answer host target = Fulfilled true /\
     calls = [canOpenURL target; openURL target]) /\
  (forall target, canOpenURL target ∈ calls -> type item = url) /\
  (forall e,
     result = Rejected e <->
     (exists target, last calls = Some (canOpenURL target) /\
                     canOpenURL_answer host target = Rejected e) \/
     (exists target, last calls = Some (openURL target) /\
                     openURL_answer host target = Rejected e)).
Proof.
  cbv zeta. unfold HistoryScreen.handleOpen.
  destruct (type item); cbn [open_scan]; cbv zeta.
  - generalize (if test re_http (data item)
                then data item else lit "https://" ++ data item).
    intros t.
    destruct (canOpenURL_answer host t) as [[] | e0] eqn:E; cbn [fst snd last].
    + split; [| split]; [| done |].
      * intros target _ H. apply elem_of_cons in H as [[=] | H].
        apply list_elem_of_singleton in H as [= ->]. done.
      * intros e. split.
        -- intros H. right. by eexists.
        -- intros [(t' & [=] & _) | (t' & [= <-] & H)]. done.
    + split; [| split]; [| done |].
      * intros target _ H. by apply list_elem_of_singleton in H.
      * intros e. split; [done |].
        intros [(t' & [= <-] & H) | (t' & [=] & _)]. congruence.
    + split; [| split]; [| done |].
      * intros target _ H. by apply list_elem_of_singleton in H.
      * intros e. split.
        -- intros [= <-]. left. by eexists.
        -- intros [(t' & [= <-] & H) | (t' & [=] & _)]. congruence.
  - cbn [fst snd last]. split; [| split]; [done | |].
    + by intros ? ?%elem_of_nil.
    + intros e. split; [done |]. by intros [(t & [=] & _) | (t & [=] & _)].
  - generalize (lit "mailto:" ++ remove_match re_mailto 7 (data item)).
    intros t. cbn [fst snd last]. split; [| split]; [done | |].
    + intros target H. by apply list_elem_of_singleton in H.
    + intros e. split.
      * intros H. right. by eexists.
      * by intros [(t' & [=] & _) | (t' & [= <-] & H)].
  - generalize (lit "tel:" ++ remove_match re_tel 4 (data item)).
    intros t. cbn [fst snd last]. split; [| split]; [done | |].
    + intros target H. by apply list_elem_of_singleton in H.
    + intros e. split.
      * intros H. right. by eexists.
      * by intros [(t' & [=] & _) | (t' & [= <-] & H)].
  - cbn [fst snd last]. split; [| split]; [done | |].
    + by intros ? ?%elem_of_nil.
    + intros e. split; [done |]. by intros [(t & [=] & _) | (t & [=] & _)].
  - cbn [fst snd last]. split; [| split]; [done | |].
    + by intros ? ?%elem_of_nil.
    + intros e. split; [done |]. by intros [(t & [=] & _) | (t & [=] & _)].
Qed.

Lemma handleOpen_asks_first_witness :
  let host := {| canOpenURL_answer := fun _ => Fulfilled true;
                 openURL_answer := fun _ => Fulfilled tt |} in
  let item := {| id := lit "a"; data := lit "www.a.b"; type := url;
                 timestamp := 1 |} in
  type item = url /\
  (openURL (lit "https://www.a.b") ∈ fst (HistoryScreen.handleOpen host item)) /\
  canOpenURL_answer host (lit "https://www.a.b") = Fulfilled true /\
  fst (HistoryScreen.handleOpen host item)
  = [canOpenURL (lit "https://www.a.b"); openURL (lit "https://www.a.b")].
Proof.
  cbv zeta.
  assert (H : openURL (lit "https://www.a.b")
              ∈ fst (HistoryScreen.handleOpen
                       {| canOpenURL_answer := fun _ => Fulfilled true;
                          openURL_answer := fun _ => Fulfilled tt |}
                       {| id := lit "a"; data := lit "www.a.b"; type := url;
                          timestamp := 1 |})).
  { apply elem_of_cons. right. apply list_elem_of_singleton. reflexivity. }
  split; [reflexivity |]. split; [exact H |].
  exact (proj1 (handleOpen_asks_first
                  {| canOpenURL_answer := fun _ => Fulfilled true;
                     openURL_answer := fun _ => Fulfilled tt |}
                  {| id := lit "a"; data := lit "www.a.b"; type := url;
                     timestamp := 1 |}) _ eq_refl H).
Defined.

Lemma starts_with_ci_space scheme c rest :
  from_option isWhiteSpace true (head scheme) = false ->
  isWhiteSpace c = true ->
  ~ starts_with_ci scheme (c :: rest).
Proof.
  destruct scheme as [|a w]; [discriminate |]. cbn [head from_option].
  intros Ha Hc (p & r & Ht & Hp). destruct p as [|c' p]; [discriminate |].
  injection Ht as <- _. rewrite !fmap_cons in Hp. injection Hp as Hp _.
  apply (f_equal isWhiteSpace) in Hp.
  rewrite !isWhiteSpace_Canonicalize in Hp. congruence.
Qed.

(** X11. The classifier reads the payload without its padding, [handleOpen]
    reads it as it is: when the payload begins with white space, it is not
    seen to begin with a scheme, and the target is [https://], [mailto:] or
    [tel:] followed by the whole payload, white space included. *)
Theorem handleOpen_keeps_padding host c rest type call :
  isWhiteSpace c = true ->
  call ∈ fst (open_scan host (c :: rest) type) ->
  (type = url /\ call_target call = lit "https://" ++ c :: rest) \/
  (type = email /\ call = openURL (lit "mailto:" ++ c :: rest)) \/
  (type = phone /\ call = openURL (lit "tel:" ++ c :: rest)).
Proof.
  intros Hc.
  assert (Hhttp : test re_http (c :: rest) = false).
  { apply not_true_is_false. intros [H | H]%test_re_http;
      revert H; by apply starts_with_ci_space. }
  assert (Hmailto : test re_mailto (c :: rest) = false).
  { apply not_true_is_false. unfold re_mailto. intros H%test_word.
    revert H; by apply starts_with_ci_space. }
  assert (Htel : test re_tel (c :: rest) = false).
  { apply not_true_is_false. unfold re_tel. intros H%test_word.
    revert H; by apply starts_with_ci_space. }
  destruct type; cbn [open_scan]; cbv zeta; unfold remove_match;
    rewrite ?Hhttp, ?Hmailto, ?Htel; try by intros ?%elem_of_nil.
  - intros H. left. split; [done |].
    destruct (canOpenURL_answer host _) as [[] | e]; cbn [fst] in H;
      rewrite ?elem_of_cons in H;
      repeat (destruct H as [-> | H]; [done |]); by apply elem_of_nil in H.
  - cbn [fst]. intros ->%list_elem_of_singleton. right. by left.
  - cbn [fst]. intros ->%list_elem_of_singleton. right. by right.
Qed.

Lemma handleOpen_keeps_padding_witness :
  let host := {| canOpenURL_answer := fun _ => Fulfilled true;
                 openURL_answer := fun _ => Fulfilled tt |} in
  isWhiteSpace 0x20 = true /\
  detectScanType (0x20 :: lit "tel:112") = phone /\
  (openURL (lit "tel: tel:112")
   ∈ fst (open_scan host (0x20 :: lit "tel:112") phone)) /\
  ((phone = url /\
    call_target (openURL (lit "tel: tel:112"))
    = lit "https://" ++ 0x20 :: lit "tel:112") \/
   (phone = email /\
    openURL (lit "tel: tel:112") = openURL (lit "mailto:" ++ 0x20 :: lit "tel:112")) \/
   (phone = phone /\
    openURL (lit "tel: tel:112") = openURL (lit "tel:" ++ 0x20 :: lit "tel:112"))).
Proof.
  cbv zeta.
  assert (H : openURL (lit "tel: tel:112")
              ∈ fst (open_scan
                       {| canOpenURL_answer := fun _ => Fulfilled true;
                          openURL_answer := fun _ => Fulfilled tt |}
                       (0x20 :: lit "tel:112") phone)).
  { apply list_elem_of_singleton. reflexivity. }
  split; [reflexivity |]. split; [reflexivity |]. split; [exact H |].
  exact (handleOpen_keeps_padding _ 0x20 (lit "tel:112") phone _ eq_refl H).
Defined.

End Opening.

(** ** The screens *)

Section Screens.

Import ScannerScreen.

Implicit Types (h : Host) (w : World) (items : list ScanItem) (s : State)
  (d : Device).

(** X12. [formatTime] by the age of the record in milliseconds: below one
    minute, a timestamp in the future included, ['Just now']; then whole
    minutes from 1 to 59, whole hours from 1 to 23 and whole days from 1 to 6,
    rounded down; from seven days on the date of the host. *)
Theorem formatTime_thresholds toLocaleDateString now timestamp :
  let age := (now - timestamp)%Z in
  let shown := formatTime toLocaleDateString now timestamp in
  ((age < 60000)%Z -> shown = lit "Just now") /\
  ((60000 <= age < 3600000)%Z ->
   exists m, (1 <= m <= 59)%Z /\ (m * 60000 <= age < (m + 1) * 60000)%Z /\
             shown = Number_toString m ++ lit "m ago") /\
  ((3600000 <= age < 86400000)%Z ->
   exists hr, (1 <= hr <= 23)%Z /\ (hr * 3600000 <= age < (hr + 1) * 3600000)%Z /\
              shown = Number_toString hr ++ lit "h ago") /\
  ((86400000 <= age < 604800000)%Z ->
   exists dy, (1 <= dy <= 6)%Z /\ (dy * 86400000 <= age < (dy + 1) * 86400000)%Z /\
              shown = Number_toString dy ++ lit "d ago") /\
  ((604800000 <= age)%Z -> shown = toLocaleDateString timestamp).
Proof.
  cbv zeta. unfold formatTime.
  generalize (now - timestamp)%Z. intros age.
  pose proof (Z.div_mod age 60000 ltac:(lia)) as Hm.
  pose proof (Z.mod_pos_bound age 60000 ltac:(lia)) as Hm'.
  pose proof (Z.div_mod age 3600000 ltac:(lia)) as Hh.
  pose proof (Z.mod_pos_bound age 3600000 ltac:(lia)) as Hh'.
  pose proof (Z.div_mod age 86400000 ltac:(lia)) as Hd.
  pose proof (Z.mod_pos_bound age 86400000 ltac:(lia)) as Hd'.
  revert Hm Hm' Hh Hh' Hd Hd'.
  generalize (age / 60000)%Z (age mod 60000)%Z (age / 3600000)%Z
    (age mod 3600000)%Z (age / 86400000)%Z (age mod 86400000)%Z.
  intros m rm hr rh dy rd Hm Hm' Hh Hh' Hd Hd'.
  destruct (Z.ltb_spec m 1); [| destruct (Z.ltb_spec m 60);
    [| destruct (Z.ltb_spec hr 24); [| destruct (Z.ltb_spec dy 7)]]].
  - split; [done |]. repeat split; intros; lia.
  - split; [intros; lia |]. split; [| repeat split; intros; lia].
    intros _. exists m. split; [lia |]. split; [lia | done].
  - split; [intros; lia |]. split; [intros; lia |].
    split; [| repeat split; intros; lia].
    intros _. exists hr. split; [lia |]. split; [lia | done].
  - do 3 (split; [intros; lia |]). split; [| intros; lia].
    intros _. exists dy. split; [lia |]. split; [lia | done].
  - do 4 (split; [intros; lia |]). done.
Qed.

Lemma formatTime_thresholds_witness :
  (60000 <= 200000 - 20000 < 3600000)%Z /\
  exists m, (1 <= m <= 59)%Z /\
            (m * 60000 <= 200000 - 20000 < (m + 1) * 60000)%Z /\
            formatTime (fun _ => lit "1/1/1970") 200000 20000
            = Number_toString m ++ lit "m ago".
Proof.
  assert (H : (60000 <= 200000 - 20000 < 3600000)%Z) by lia.
  split; [exact H |].
  exact (proj1 (proj2 (formatTime_thresholds (fun _ => lit "1/1/1970")
                         200000 20000)) H).
Defined.

Lemma handleBarCodeScanned_off h render (captured : JSValue) x s d w :
  scanned render = true ->
  handleBarCodeScanned h render captured x s d w = (s, d, w, Fulfilled tt).
Proof. intros Hr. unfold handleBarCodeScanned. by rewrite Hr. Qed.

Lemma handleBarCodeScanned_taken h render (captured : JSValue) elements x s d w :
  scanned render = false ->
  spread captured = Some elements ->
  let updated := JArray (item_value (new_item h x) :: elements) in
  handleBarCodeScanned h render captured x s d w =
  (setShowResult true
     (setLastScan (Some (x, detectScanType x)) (setScanned true s)),
   haptic NotificationSuccess d,
   after_save_value h updated (set_history updated w),
   Fulfilled tt).
Proof.
  intros Hr Hs. unfold handleBarCodeScanned.
  rewrite Hr, (run_addScan_value h w captured elements x Hs). done.
Qed.

Lemma handleBarCodeScanned_rejected h render (captured : JSValue) x s d w :
  scanned render = false ->
  spread captured = None ->
  handleBarCodeScanned h render captured x s d w =
  (setScanned true s, haptic NotificationSuccess d, w, Rejected TypeError).
Proof.
  intros Hr Hs. unfold handleBarCodeScanned.
  rewrite Hr, (run_addScan_TypeError h w captured x Hs). done.
Qed.

Lemma haptic_twice f d :
  haptics (haptic f (haptic f d))
  = (if web d then haptics d else haptics d ++ [f; f]).
Proof.
  unfold haptic. destruct (web d) eqn:Hw; cbn [web haptics]; rewrite ?Hw; [done |].
  cbn [web haptics]. by rewrite <- app_assoc.
Qed.

(** X13. The scanner takes a code when the [scanned] that the handling
    render has captured is false: on a state of the provider that can be
    spread it adds the record, asks for the haptic feedback unless on the
    web, and shows the payload as it was read with its type. The render of
    the state it leaves takes no further code, whatever the code, until
    [handleDismiss] turns the scanner on again. The render that took the code
    takes the next one as well: a second haptic feedback, the sheet showing
    the second code, and the history built on the captured state once more,
    without the first record. *)
Theorem scan_taken_once_per_render h render (captured : JSValue) elements x s d w :
  scanned render = false ->
  spread captured = Some elements ->
  exists s1 d1 w1,
    handleBarCodeScanned h render captured x s d w = (s1, d1, w1, Fulfilled tt) /\
    scanned s1 = true /\ showResult s1 = true /\
    lastScan s1 = Some (x, detectScanType x) /\
    history w1 = JArray (item_value (new_item h x) :: elements) /\
    haptics d1 = (if web d then haptics d
                  else haptics d ++ [NotificationSuccess]) /\
    (forall h' (captured' : JSValue) x' s' d' w',
       handleBarCodeScanned h' s1 captured' x' s' d' w'
       = (s', d', w', Fulfilled tt)) /\
    scanned (handleDismiss s1) = false /\
    (forall h' x',
       exists s2 d2 w2,
         handleBarCodeScanned h' render captured x' s1 d1 w1
         = (s2, d2, w2, Fulfilled tt) /\
         lastScan s2 = Some (x', detectScanType x') /\
         history w2 = JArray (item_value (new_item h' x') :: elements) /\
         haptics d2 = (if web d then haptics d
                       else haptics d
                            ++ [NotificationSuccess; NotificationSuccess])).
Proof.
  intros Hr Hs. do 3 eexists.
  split; [by apply handleBarCodeScanned_taken |].
  do 3 (split; [done |]). split; [by rewrite history_after_save_value |].
  split; [unfold haptic; by destruct (web d) |].
  split; [intros; by apply handleBarCodeScanned_off |].
  split; [done |].
  intros h' x'. do 3 eexists.
  split; [by apply handleBarCodeScanned_taken |].
  split; [done |]. split; [by rewrite history_after_save_value |].
  apply haptic_twice.
Qed.

Lemma scan_taken_once_per_render_witness :
  let h := {| uuid := lit "b"; now := 2; read_error := None; write_error := None;
              stringify_other := fun _ => [] |} in
  let d := {| web := false; haptics := [] |} in
  scanned initial = false /\
  spread (history (mount ∅)) = Some [] /\
  exists s1 d1 w1,
    handleBarCodeScanned h initial (history (mount ∅)) (lit "www.a.b") initial d
      (mount ∅) = (s1, d1, w1, Fulfilled tt) /\
    scanned s1 = true /\ showResult s1 = true /\
    lastScan s1 = Some (lit "www.a.b", detectScanType (lit "www.a.b")) /\
    history w1 = JArray [item_value (new_item h (lit "www.a.b"))] /\
    haptics d1 = (if web d then haptics d
                  else haptics d ++ [NotificationSuccess]) /\
    (forall h' (captured' : JSValue) x' s' d' w',
       handleBarCodeScanned h' s1 captured' x' s' d' w'
       = (s', d', w', Fulfilled tt)) /\
    scanned (handleDismiss s1) = false /\
    (forall h' x',
       exists s2 d2 w2,
         handleBarCodeScanned h' initial (history (mount ∅)) x' s1 d1 w1
         = (s2, d2, w2, Fulfilled tt) /\
         lastScan s2 = Some (x', detectScanType x') /\
         history w2 = JArray [item_value (new_item h' x')] /\
         haptics d2 = (if web d then haptics d
                       else haptics d
                            ++ [NotificationSuccess; NotificationSuccess])).
Proof.
  cbv zeta. split; [reflexivity |]. split; [reflexivity |].
  exact (scan_taken_once_per_render
           {| uuid := lit "b"; now := 2; read_error := None; write_error := None;
              stringify_other := fun _ => [] |}
           initial (history (mount ∅)) [] (lit "www.a.b") initial
           {| web := false; haptics := [] |} (mount ∅) eq_refl eq_refl).
Defined.

(** X14. In every state that the scanner screen can reach, the result sheet
    is shown exactly when there is a last scan, the scanner is off whenever
    the sheet is shown, and the type of the last scan is the one that the
    classifier gives to its data. When every state of the provider that a
    scan has captured can be spread, the scanner is off only while the sheet
    is shown, also when the write of the history fails. *)
Theorem scanner_invariant (P : JSValue -> Prop) s :
  reachable P s ->
  (showResult s = true <-> lastScan s <> None) /\
  (showResult s = true -> scanned s = true) /\
  (forall data type,
     lastScan s = Some (data, type) -> type = detectScanType data) /\
  ((forall captured, P captured -> spread captured <> None) ->
   scanned s = true -> showResult s = true).
Proof.
  induction 1 as [| granted canAsk s _ IH | render s _ IH
                  | h render captured x s d w HP _ IH | s _ IH].
  - by repeat split.
  - exact IH.
  - exact IH.
  - destruct (scanned render) eqn:Hr.
    + by rewrite handleBarCodeScanned_off.
    + destruct (spread captured) as [elements |] eqn:Hs.
      * rewrite (handleBarCodeScanned_taken _ _ _ elements) by done.
        cbn [fst]. split; [done |]. split; [done |].
        split; [| done]. by intros data type [= <- <-].
      * rewrite handleBarCodeScanned_rejected by done. cbn [fst].
        destruct IH as (IH1 & IH2 & IH3 & IH4).
        split; [exact IH1 |]. split; [done |]. split; [exact IH3 |].
        intros Hall. by destruct (Hall captured HP).
  - by repeat split.
Qed.

Lemma scanner_invariant_witness :
  let h := {| uuid := lit "b"; now := 2; read_error := None;
              write_error := Some (HostError (lit "full"));
              stringify_other := fun _ => [] |} in
  let s := (handleBarCodeScanned h initial (JArray []) (lit "112 112 112")
              initial {| web := true; haptics := [] |} (mount ∅)).1.1.1 in
  reachable (fun captured => captured = JArray []) s /\
  (forall captured, captured = JArray [] -> spread captured <> None) /\
  scanned s = true /\ showResult s = true /\ lastScan s <> None.
Proof.
  cbv zeta.
  assert (H : reachable (fun captured => captured = JArray [])
                (handleBarCodeScanned
                   {| uuid := lit "b"; now := 2; read_error := None;
                      write_error := Some (HostError (lit "full"));
                      stringify_other := fun _ => [] |}
                   initial (JArray []) (lit "112 112 112") initial
                   {| web := true; haptics := [] |} (mount ∅)).1.1.1).
  { apply reach_scan; [reflexivity | apply reach_initial]. }
  assert (HP : forall captured : JSValue,
             captured = JArray [] -> spread captured <> None)
    by (by intros ? ->).
  split; [exact H |]. split; [exact HP |]. split; [reflexivity |].
  pose proof (scanner_invariant _ _ H) as (H1 & _ & _ & H4).
  split; [exact (H4 HP eq_refl) |]. apply H1. exact (H4 HP eq_refl).
Defined.

(** X17. When the state of the provider that the scan has captured cannot be
    spread, as the state [null] that [loadHistory] installs from the snapshot
    [null], [handleBarCodeScanned] turns the scanner off and asks for the
    haptic feedback, and is then rejected with the [TypeError] of [addScan]:
    no record is added, no sheet is shown, and the render of the state it
    leaves takes no further code. *)
Theorem rejected_scan_turns_scanner_off h render (captured : JSValue) x s d w :
  scanned render = false ->
  spread captured = None ->
  exists s1 d1,
    handleBarCodeScanned h render captured x s d w
    = (s1, d1, w, Rejected TypeError) /\
    scanned s1 = true /\
    showResult s1 = showResult s /\ lastScan s1 = lastScan s /\
    haptics d1 = (if web d then haptics d
                  else haptics d ++ [NotificationSuccess]) /\
    (forall h' (captured' : JSValue) x' s' d' w',
       handleBarCodeScanned h' s1 captured' x' s' d' w'
       = (s', d', w', Fulfilled tt)).
Proof.
  intros Hr Hs. do 2 eexists.
  split; [by apply handleBarCodeScanned_rejected |].
  do 3 (split; [done |]).
  split; [unfold haptic; by destruct (web d) |].
  intros. by apply handleBarCodeScanned_off.
Qed.

Lemma rejected_scan_turns_scanner_off_witness :
  let h := {| uuid := lit "b"; now := 2; read_error := None; write_error := None;
              stringify_other := fun _ => [] |} in
  let d := {| web := false; haptics := [] |} in
  let w := fst (run h (mount {[ STORAGE_KEY := lit "null" ]}) loadHistory) in
  scanned initial = false /\
  spread (history w) = None /\
  exists s1 d1,
    handleBarCodeScanned h initial (history w) (lit "www.a.b") initial d w
    = (s1, d1, w, Rejected TypeError) /\
    scanned s1 = true /\
    showResult s1 = false /\ lastScan s1 = None /\
    haptics d1 = [NotificationSuccess] /\
    (forall h' (captured' : JSValue) x' s' d' w',
       handleBarCodeScanned h' s1 captured' x' s' d' w'
       = (s', d', w', Fulfilled tt)).
Proof.
  cbv zeta. split; [reflexivity |]. split; [reflexivity |].
  exact (rejected_scan_turns_scanner_off
           {| uuid := lit "b"; now := 2; read_error := None; write_error := None;
              stringify_other := fun _ => [] |}
           initial
           (history (fst (run {| uuid := lit "b"; now := 2; read_error := None;
                                 write_error := None;
                                 stringify_other := fun _ => [] |}
                            (mount {[ STORAGE_KEY := lit "null" ]}) loadHistory)))
           (lit "www.a.b") initial {| web := false; haptics := [] |} _
           eq_refl eq_refl).
Defined.

(** X15. No two scan types are shown alike: the label, the colour and the
    icon each tell the six types apart. *)
Theorem type_tables_injective (t1 t2 : ScanType) :
  (getTypeLabel t1 = getTypeLabel t2 -> t1 = t2) /\
  (getTypeColor t1 = getTypeColor t2 -> t1 = t2) /\
  (getTypeIcon t1 = getTypeIcon t2 -> t1 = t2).
Proof.
  repeat split; destruct t1, t2; (done || (intros H; vm_compute in H; done)).
Qed.

Lemma type_tables_injective_witness :
  getTypeLabel url = getTypeLabel url /\ url = url.
Proof.
  split; [reflexivity |].
  exact (proj1 (type_tables_injective url url) eq_refl).
Defined.

End Screens.
